(** * saisei01: the exam-question formatter of [app.py]

    A shallow embedding of the text pipeline of [app.py]
    ([normalize_blanks], [normalize_standalone_letters],
    [convert_desu_masu], [clean_text], [format_blanks], [format_answer],
    [format_question]) together with the part of Python's [re] and [str]
    that the pipeline calls, and the properties of the pipeline.

    Python strings are sequences of Unicode code points; a string is a
    [list N] here.  String literals of the source are written as UTF-8
    literals and decoded by [u]. *)

From Stdlib Require Import String Ascii.
From Stdlib Require Import List NArith ZArith Bool Lia Arith.
Import ListNotations.

Set Implicit Arguments.

(** ** Code points and literals *)

Definition char := N.
Definition str := list char.

Fixpoint utf8_decode (bs : list N) (need : nat) (acc : N) : str :=
  match bs with
  | [] => []
  | b :: bs' =>
      match need with
      | O =>
          if (b <? 128)%N then b :: utf8_decode bs' 0 0%N
          else if (b <? 224)%N then utf8_decode bs' 1 (b - 192)%N
          else if (b <? 240)%N then utf8_decode bs' 2 (b - 224)%N
          else utf8_decode bs' 3 (b - 240)%N
      | S O => (acc * 64 + (b - 128))%N :: utf8_decode bs' 0 0%N
      | S n => utf8_decode bs' n (acc * 64 + (b - 128))%N
      end
  end.

Definition u (s : string) : str :=
  utf8_decode (map N_of_ascii (list_ascii_of_string s)) 0 0%N.

Definition str_eqb (a b : str) : bool :=
  if list_eq_dec N.eq_dec a b then true else false.

(** ** Outcomes of fallible code

    Python code either returns or raises; the loop of
    [normalize_standalone_letters] is run with fuel, and [Diverge] is the
    outcome of a run that exhausts it. *)

Inductive exn := IndexError | TypeError | AttributeError.

Inductive res (A : Type) : Type :=
| Ok (a : A)
| Raise (e : exn)
| Diverge.

Arguments Ok {A} a.
Arguments Raise {A} e.
Arguments Diverge {A}.

Definition bind {A B} (m : res A) (f : A -> res B) : res B :=
  match m with
  | Ok a => f a
  | Raise e => Raise e
  | Diverge => Diverge
  end.

Notation "x <- m ;; k" := (bind m (fun x => k))
  (at level 61, m at next level, right associativity).

(** ** Python's [str] methods used by the program *)

Module Str.

(** [str.isspace] on one code point; the same set is [\s] of [re]. *)
Definition whitespace : list (char * char) :=
  [ (9, 13); (28, 32); (133, 133); (160, 160); (5760, 5760);
    (8192, 8202); (8232, 8233); (8239, 8239); (8287, 8287);
    (12288, 12288) ]%N.

Definition in_ranges (rs : list (char * char)) (c : char) : bool :=
  existsb (fun r => (fst r <=? c)%N && (c <=? snd r)%N) rs.

Definition isspace (c : char) : bool := in_ranges whitespace c.

Fixpoint lstrip_by (p : char -> bool) (s : str) : str :=
  match s with
  | c :: s' => if p c then lstrip_by p s' else s
  | [] => []
  end.

Definition rstrip_by (p : char -> bool) (s : str) : str :=
  rev (lstrip_by p (rev s)).

Definition strip (s : str) : str := rstrip_by isspace (lstrip_by isspace s).

(** [s.rstrip(chars)] *)
Definition rstrip (chars : str) (s : str) : str :=
  rstrip_by (fun c => existsb (N.eqb c) chars) s.

(** [s.startswith(p)], with the rest of [s] after [p]. *)
Fixpoint strip_prefix (p s : str) : option str :=
  match p, s with
  | [], _ => Some s
  | a :: p', b :: s' => if (a =? b)%N then strip_prefix p' s' else None
  | _ :: _, [] => None
  end.

(** [s.count(old)]: occurrences from the left, not overlapping. *)
Fixpoint count_from (old : str) (s : str) (skip : nat) : nat :=
  match s with
  | [] => match skip, old with O, [] => 1 | _, _ => 0 end
  | _ :: s' =>
      match skip with
      | S k => count_from old s' k
      | O =>
          match strip_prefix old s with
          | Some _ => S (count_from old s' (pred (length old)))
          | None => count_from old s' 0
          end
      end
  end.

Definition count (old s : str) : nat := count_from old s 0.

(** [s.replace(old, new, limit)] for a non-empty [old]; [limit = None]
    replaces every occurrence. *)
Fixpoint replace_from (old new : str) (limit : option nat) (s : str)
  (skip : nat) : str :=
  match s with
  | [] => []
  | c :: s' =>
      match skip with
      | S k => replace_from old new limit s' k
      | O =>
          match limit with
          | Some O => s
          | _ =>
              match strip_prefix old s with
              | Some _ =>
                  new ++ replace_from old new (option_map pred limit) s'
                           (pred (length old))
              | None => c :: replace_from old new limit s' 0
              end
          end
      end
  end.

Definition replace (old new s : str) : str :=
  replace_from old new None s 0.

Definition replace_n (old new : str) (n : nat) (s : str) : str :=
  replace_from old new (Some n) s 0.

(** [s.split(sep)] for a one-character separator. *)
Fixpoint split (sep : char) (s : str) : list str :=
  match s with
  | [] => [[]]
  | c :: s' =>
      if (c =? sep)%N then [] :: split sep s'
      else match split sep s' with
           | l :: ls => (c :: l) :: ls
           | [] => [[c]]
           end
  end.

(** [sep.join(parts)] *)
Fixpoint join (sep : str) (parts : list str) : str :=
  match parts with
  | [] => []
  | [p] => p
  | p :: ps => p ++ sep ++ join sep ps
  end.

(** [s.upper()] on ASCII letters, the only arguments the program passes
    (a group matched by [[A-Za-z]]). *)
Definition upper_char (c : char) : char :=
  if ((97 <=? c) && (c <=? 122))%N then (c - 32)%N else c.

Definition upper (s : str) : str := map upper_char s.

(** [str(n)] for a natural number. *)
Fixpoint digits_fuel (fuel : nat) (n : N) (acc : str) : str :=
  match fuel with
  | O => acc
  | S f =>
      let acc' := (48 + n mod 10)%N :: acc in
      if (n <? 10)%N then acc' else digits_fuel f (n / 10)%N acc'
  end.

Definition of_nat (n : nat) : str :=
  digits_fuel (S n) (N.of_nat n) [].

End Str.

(** ** Python's [re]: the patterns and calls the program uses

    A pattern of the source is written as a [regex] term; every
    repetition in the source ranges over one character class, so [Rep]
    carries a class.  [rmatch] is the backtracking matcher: alternatives
    and repetition counts are tried in the order Python tries them, and
    the first complete match wins. *)

Module Re.

Inductive regex :=
| Eps
| Cls (neg : bool) (rs : list (char * char))
| Seq (a b : regex)
| Alt (a b : regex)
| Rep (greedy : bool) (lo : nat) (hi : option nat)
      (neg : bool) (rs : list (char * char))
| Grp (i : nat) (a : regex)
| Ahead (a : regex)
| Bos
| Eos.

Definition in_cls (neg : bool) (rs : list (char * char)) (c : char) : bool :=
  xorb neg (Str.in_ranges rs c).

(** The captured groups of a match, latest binding first. *)
Definition captures := list (nat * str).

Fixpoint lookup (i : nat) (caps : captures) : option str :=
  match caps with
  | [] => None
  | (j, v) :: caps' => if Nat.eqb i j then Some v else lookup i caps'
  end.

Definition more_allowed (hi : option nat) : bool :=
  match hi with Some O => false | _ => true end.

Section Matcher.
Variable R : Type.

(** A repetition of a class: [lo] further characters are required and at
    most [hi] are allowed. *)
Fixpoint rep (greedy : bool) (p : char -> bool) (lo : nat) (hi : option nat)
  (bos : bool) (s : str) (k : bool -> str -> option R) {struct s}
  : option R :=
  match lo with
  | S lo' =>
      match s with
      | c :: s' =>
          if p c then rep greedy p lo' (option_map pred hi) false s' k
          else None
      | [] => None
      end
  | O =>
      let more :=
        match s with
        | c :: s' =>
            if more_allowed hi && p c
            then rep greedy p 0 (option_map pred hi) false s' k
            else None
        | [] => None
        end in
      if greedy then
        match more with Some x => Some x | None => k bos s end
      else
        match k bos s with Some x => Some x | None => more end
  end.

End Matcher.

(** [rmatch r bos s caps k]: match [r] at the front of [s]; [bos] tells
    whether [s] is the whole subject (for [^]); [k] is what has to match
    after [r], and receives the rest of the input and the groups. *)
Fixpoint rmatch (R : Type) (r : regex) (bos : bool) (s : str)
  (caps : captures) (k : bool -> str -> captures -> option R)
  {struct r} : option R :=
  match r with
  | Eps => k bos s caps
  | Cls neg rs =>
      match s with
      | c :: s' => if in_cls neg rs c then k false s' caps else None
      | [] => None
      end
  | Seq a b =>
      rmatch a bos s caps (fun bos' s' caps' => rmatch b bos' s' caps' k)
  | Alt a b =>
      match rmatch a bos s caps k with
      | Some x => Some x
      | None => rmatch b bos s caps k
      end
  | Rep greedy lo hi neg rs =>
      rep greedy (in_cls neg rs) lo hi bos s (fun bos' s' => k bos' s' caps)
  | Grp i a =>
      rmatch a bos s caps
        (fun bos' s' caps' =>
           k bos' s' ((i, firstn (length s - length s') s) :: caps'))
  | Ahead a =>
      match rmatch a bos s caps (fun _ _ _ => Some tt) with
      | Some _ => k bos s caps
      | None => None
      end
  | Bos => if bos then k bos s caps else None
  | Eos =>
      match s with
      | [] => k bos s caps
      | [c] => if (c =? 10)%N then k bos s caps else None
      | _ => None
      end
  end.

(** A match at the front of [s]: its length and its groups. *)
Definition match_here (r : regex) (bos : bool) (s : str)
  : option (nat * captures) :=
  rmatch r bos s [] (fun _ s' caps => Some (length s - length s', caps)).

(** The match object of [re.match] and of the callbacks of [re.sub]:
    group 0 is the whole match. *)
Record match_obj := { whole : str; groups : captures }.

(** [m.group(i)]: [None] for a group that took no part in the match. *)
Definition group (m : match_obj) (i : nat) : option str :=
  match i with
  | O => Some (whole m)
  | _ => lookup i (groups m)
  end.

(** A group in a template ([\1]) or in a [findall] tuple: empty when the
    group took no part. *)
Definition group_or_empty (m : match_obj) (i : nat) : str :=
  match group m i with Some v => v | None => [] end.

(** [re.match(r, s)] *)
Definition match_ (r : regex) (s : str) : option match_obj :=
  match match_here r true s with
  | Some (n, caps) => Some {| whole := firstn n s; groups := caps |}
  | None => None
  end.

(** [re.sub(r, repl, s)] with a callback [repl]; [skip] characters of the
    previous match are still to be passed over.  Every pattern of the
    program matches at least one character (see [min_len]); an empty
    match is replaced and the scan moves on by one character. *)
Fixpoint sub_from (r : regex) (repl : match_obj -> str) (bos : bool)
  (s : str) (skip : nat) {struct s} : str :=
  match skip with
  | S n =>
      match s with
      | [] => []
      | _ :: s' => sub_from r repl false s' n
      end
  | O =>
      match match_here r bos s with
      | Some (n, caps) =>
          repl {| whole := firstn n s; groups := caps |} ++
          match s with
          | [] => []
          | c :: s' =>
              match n with
              | O => c :: sub_from r repl false s' 0
              | S n' => sub_from r repl false s' n'
              end
          end
      | None =>
          match s with
          | [] => []
          | c :: s' => c :: sub_from r repl false s' 0
          end
      end
  end.

Definition sub_with (r : regex) (repl : match_obj -> str) (s : str) : str :=
  sub_from r repl true s 0.

(** [re.sub(r, repl, s)] with a constant replacement string. *)
Definition sub (r : regex) (repl : str) (s : str) : str :=
  sub_with r (fun _ => repl) s.

(** [re.sub] with a callback that may raise. *)
Fixpoint sub_from_res (r : regex) (repl : match_obj -> res str) (bos : bool)
  (s : str) (skip : nat) {struct s} : res str :=
  match skip with
  | S n =>
      match s with
      | [] => Ok []
      | _ :: s' => sub_from_res r repl false s' n
      end
  | O =>
      match match_here r bos s with
      | Some (n, caps) =>
          x <- repl {| whole := firstn n s; groups := caps |} ;;
          rest <-
            match s with
            | [] => Ok []
            | c :: s' =>
                match n with
                | O => t <- sub_from_res r repl false s' 0 ;; Ok (c :: t)
                | S n' => sub_from_res r repl false s' n'
                end
            end ;;
          Ok (x ++ rest)
      | None =>
          match s with
          | [] => Ok []
          | c :: s' => t <- sub_from_res r repl false s' 0 ;; Ok (c :: t)
          end
      end
  end.

Definition sub_res (r : regex) (repl : match_obj -> res str) (s : str)
  : res str :=
  sub_from_res r repl true s 0.

(** [re.findall(r, s)]: the match objects from the left, not overlapping. *)
Fixpoint findall_from (r : regex) (bos : bool) (s : str) (skip : nat)
  {struct s} : list match_obj :=
  match skip with
  | S n =>
      match s with
      | [] => []
      | _ :: s' => findall_from r false s' n
      end
  | O =>
      match match_here r bos s with
      | Some (n, caps) =>
          {| whole := firstn n s; groups := caps |} ::
          match s with
          | [] => []
          | _ :: s' => findall_from r false s' (pred n)
          end
      | None =>
          match s with
          | [] => []
          | _ :: s' => findall_from r false s' 0
          end
      end
  end.

Definition findall (r : regex) (s : str) : list match_obj :=
  findall_from r true s 0.

(** *** Pattern syntax *)

Definition chr (c : char) : regex := Cls false [(c, c)].

Fixpoint lit (s : str) : regex :=
  match s with
  | [] => Eps
  | [c] => chr c
  | c :: s' => Seq (chr c) (lit s')
  end.

Fixpoint seq (rs : list regex) : regex :=
  match rs with
  | [] => Eps
  | [r] => r
  | r :: rs' => Seq r (seq rs')
  end.

Fixpoint alt (rs : list regex) : regex :=
  match rs with
  | [] => Cls false []
  | [r] => r
  | r :: rs' => Alt r (alt rs')
  end.

(** [[...]], [[^...]], [.] and [\s] *)
Definition set (rs : list (char * char)) : regex := Cls false rs.
Definition nset (rs : list (char * char)) : regex := Cls true rs.
Definition dot_ranges : list (char * char) := [(10, 10)]%N.
Definition space : list (char * char) := Str.whitespace.

(** [x*], [x+], [x?], [x{n,}] and the lazy [x+?] on a class [x] *)
Definition star (rs : list (char * char)) : regex := Rep true 0 None false rs.
Definition plus (rs : list (char * char)) : regex := Rep true 1 None false rs.
Definition opt (rs : list (char * char)) : regex :=
  Rep true 0 (Some 1) false rs.
Definition at_least (n : nat) (rs : list (char * char)) : regex :=
  Rep true n None false rs.
Definition lazy_plus (neg : bool) (rs : list (char * char)) : regex :=
  Rep false 1 None neg rs.
Definition dot_plus : regex := Rep true 1 None true dot_ranges.

(** The ranges of the characters of a string, for a class that lists
    them. *)
Definition chars (s : str) : list (char * char) := map (fun c => (c, c)) s.

End Re.

(** ** The rule tables of [app.py] *)

Import Re.

(** The code point of a one-character literal. *)
Definition ch (s : string) : char := hd 0%N (u s).

(** [BLANK_PATTERNS] *)
Definition BLANK_PATTERNS : list regex :=
  [ seq [chr (ch "（"); star space; chr (ch "）")];
    seq [chr (ch "("); star space; chr (ch ")")];
    seq [chr (ch "【"); star space; chr (ch "】")];
    seq [chr (ch "["); star space; chr (ch "]")];
    at_least 2 (chars (u "_"));
    at_least 2 (chars (u "＿"));
    seq [set (chars (u "（(")); star space; set (chars (u "ABab"));
         star space; set (chars (u "）)"))];
    seq [chr (ch "（"); star space; set (chars (u "①②")); star space;
         chr (ch "）")];
    seq [chr (ch "("); star space; set (chars (u "①②")); star space;
         chr (ch ")")];
    seq [chr (ch "（"); star space; set (chars (u "12")); star space;
         chr (ch "）")];
    seq [chr (ch "("); star space; set (chars (u "12")); star space;
         chr (ch ")")] ].

(** [DESU_MASU_PATTERNS] *)
Definition DESU_MASU_PATTERNS : list (regex * str) :=
  map (fun p => (lit (u (fst p)), u (snd p)))
    [ ("でしょうか", "であろうか");
      ("ましょう", "よう");
      ("ません", "ない");
      ("ました", "た");
      ("ています", "ている");
      ("てきます", "てくる");
      ("ております", "ている");
      ("されています", "されている");
      ("なっています", "なっている");
      ("います", "いる");
      ("あります", "ある");
      ("きます", "くる");
      ("します", "する");
      ("ですが", "であるが");
      ("ですので", "であるので");
      ("ですから", "であるから");
      ("です", "である");
      ("ます", "る") ]%string.

(** [QUESTION_END_PATTERNS]: each pattern ends in [[。？?]?]. *)
Definition question_end (s : string) : regex :=
  Seq (lit (u s)) (opt (chars (u "。？?"))).

Definition QUESTION_END_PATTERNS : list (regex * str) :=
  map (fun s => (question_end s, u "はなにか。"))
    [ "は何でしょうか"; "は何ですか"; "は何であろうか"; "は何であるか";
      "は何か"; "はなんでしょうか"; "はなんですか"; "はなんであろうか";
      "はなんであるか"; "はなんか" ]%string.

(** The canonical marker. *)
Definition MARKER : str := u "{{BLANK}}".

(** ** [normalize_standalone_letters] *)

Definition jp_char : list (char * char) :=
  [ (0x3040, 0x309F); (0x30A0, 0x30FF); (0x4E00, 0x9FFF) ]%N.

Definition upper_AZ : list (char * char) := [ (ch "A", ch "Z") ].

Definition exclude_suffixes : regex :=
  alt (map (fun s => lit (u s))
    [ "型"; "群"; "細胞"; "抗原"; "受容体"; "リンパ球"; "ウイルス"; "遺伝子";
      "タンパク"; "蛋白"; "因子"; "鎖"; "座"; "領域"; "ドメイン"; "クラス";
      "サブ"; "波"; "線"; "層"; "帯"; "管"; "点"; "面"; "軸"; "端"; "相";
      "期"; "染色体" ]%string).

(** The members of the set [exclude_letters_before_cell].  Python does not
    fix the order in which a set of strings is iterated; the functions
    below take the order as [set_order]. *)
Definition exclude_letters_before_cell : list str :=
  [ u "T"; u "B"; u "K"; u "NK" ].

Definition protect_pattern (letter : str) : regex :=
  Seq (lit letter)
      (Grp 1 (alt (map (fun s => lit (u s))
                     [ "細胞"; "リンパ球"; "抗原"; "受容体" ]%string))).

Definition protect_repl (letter : str) (m : match_obj) : str :=
  u "__PROTECT_" ++ letter ++ u "_" ++ group_or_empty m 1 ++ u "__".

Definition tech_pattern : regex :=
  seq [Grp 1 (set jp_char); Grp 2 (set upper_AZ); Grp 3 exclude_suffixes].

(** [m.group(i)] where the program concatenates it with a string. *)
Definition group_str (m : match_obj) (i : nat) : res str :=
  match group m i with
  | Some v => Ok v
  | None => Raise TypeError
  end.

(** [m.group(i)] inside an f-string. *)
Definition group_fmt (m : match_obj) (i : nat) : str :=
  match group m i with
  | Some v => v
  | None => u "None"
  end.

Definition tech_repl (m : match_obj) : res str :=
  g1 <- group_str m 1 ;;
  g3 <- group_str m 3 ;;
  Ok (g1 ++ (u "__TECH_" ++ group_fmt m 2 ++ u "__") ++ g3).

Definition before_chars : list (char * char) :=
  jp_char ++ chars (u "、,とや・").

Definition after_chars : list (char * char) :=
  jp_char ++ chars (u "、,とや・など").

Definition standalone_pattern : regex :=
  seq [Grp 1 (set before_chars); Grp 2 (set upper_AZ);
       Grp 3 (set after_chars)].

Definition replace_standalone (m : match_obj) : res str :=
  before <- group_str m 1 ;;
  after <- group_str m 3 ;;
  Ok (before ++ MARKER ++ after).

(** The loop [while prev_result != result], run for at most [fuel]
    passes. *)
Fixpoint standalone_loop (fuel : nat) (result : str) : res str :=
  match fuel with
  | O => Diverge
  | S f =>
      let prev_result := result in
      result <- sub_res standalone_pattern replace_standalone result ;;
      if str_eqb prev_result result then Ok result
      else standalone_loop f result
  end.

Definition tech_restore_pattern : regex :=
  seq [lit (u "__TECH_"); Grp 1 (set upper_AZ); lit (u "__")].

Definition protect_restore_pattern (letter : str) : regex :=
  seq [lit (u "__PROTECT_" ++ letter ++ u "_");
       Grp 1 (lazy_plus true dot_ranges); lit (u "__")].

Definition protect_restore_repl (letter : str) (m : match_obj) : str :=
  letter ++ group_or_empty m 1.

Section Pipeline.

(** The order in which Python iterates [exclude_letters_before_cell]. *)
Variable set_order : list str.

Definition protect_all (result : str) : str :=
  fold_left
    (fun result letter =>
       sub_with (protect_pattern letter) (protect_repl letter) result)
    set_order result.

Definition restore_all (result : str) : str :=
  fold_left
    (fun result letter =>
       sub_with (protect_restore_pattern letter)
         (protect_restore_repl letter) result)
    set_order result.

(** The fuel of the loop: one pass more than the text has characters. *)
Definition loop_fuel (result : str) : nat := S (length result).

Definition normalize_standalone_letters (text : str) : res str :=
  let result := text in
  let result := protect_all result in
  result <- sub_res tech_pattern tech_repl result ;;
  result <- standalone_loop (loop_fuel result) result ;;
  let result :=
    sub_with tech_restore_pattern (fun m => group_or_empty m 1) result in
  let result := restore_all result in
  let result := restore_all result in
  Ok result.

(** ** [normalize_blanks] *)

Definition normalize_blanks (text : str) : res str :=
  let result :=
    fold_left (fun result pattern => sub pattern MARKER result)
      BLANK_PATTERNS text in
  normalize_standalone_letters result.

End Pipeline.

(** ** [convert_desu_masu] *)

Definition apply_table (table : list (regex * str)) (text : str) : str :=
  fold_left (fun result p => sub (fst p) (snd p) result) table text.

Definition convert_desu_masu (text : str) : str :=
  let result := text in
  let result := apply_table QUESTION_END_PATTERNS result in
  let result := apply_table DESU_MASU_PATTERNS result in
  result.

(** ** [clean_text] *)

Definition bold_pattern : regex :=
  seq [lit (u "**"); Grp 1 (lazy_plus true dot_ranges); lit (u "**")].

Definition italic_pattern : regex :=
  seq [lit (u "*"); Grp 1 (lazy_plus true dot_ranges); lit (u "*")].

Definition clean_text (text : str) : str :=
  let result := sub_with bold_pattern (fun m => group_or_empty m 1) text in
  let result := sub_with italic_pattern (fun m => group_or_empty m 1) result in
  let result := sub (lit (u ",。")) (u "。") result in
  let result := sub (lit (u "、。")) (u "。") result in
  let result := sub (Seq (chr (ch ",")) (nset dot_ranges)) (u ".") result in
  let result := sub (lit (u ",、")) (u "、") result in
  let result := sub (plus (chars (u " 　"))) (u " ") result in
  let result := sub (plus (chars (u "、，"))) (u "、") result in
  let result := sub (plus (chars (u "。．"))) (u "。") result in
  let result := Str.strip result in
  let result :=
    sub (seq [chr 10%N; star space; chr 10%N]) [10%N] result in
  result.

(** ** [format_blanks] *)

Definition labels : str := u "ABCDEFGHIJKLMNOPQRSTUVWXYZ".

(** [labels[i]] *)
Definition index (s : str) (i : nat) : res char :=
  match nth_error s i with
  | Some c => Ok c
  | None => Raise IndexError
  end.

Definition unlabeled_blank : str := u "（　　　　　）".

Definition labeled_blank (label : char) : str :=
  u "（　　" ++ [label] ++ u "　　）".

(** One round of the loop [for i in range(blank_count)]. *)
Definition format_blanks_step (result : res str) (i : nat) : res str :=
  result <- result ;;
  if i <? length labels then
    label <- index labels i ;;
    Ok (Str.replace_n MARKER (labeled_blank label) 1 result)
  else Ok result.

Definition format_blanks (text : str) (blank_count : Z) : res str :=
  if (blank_count =? 0)%Z then Ok text
  else if (blank_count =? 1)%Z then
    Ok (Str.replace MARKER unlabeled_blank text)
  else
    fold_left format_blanks_step (List.seq 0 (Z.to_nat blank_count))
      (Ok text).

(** ** [format_answer] *)

Definition ANSWER_MARK : str := u "正解：".
Definition SEPARATOR : str := u "　　".

Definition circled : list (char * char) :=
  chars (u "①②③④⑤⑥⑦⑧⑨⑩⑪⑫⑬⑭⑮⑯⑰⑱⑲⑳").

(** The dict [circled_to_alpha] *)
Definition circled_to_alpha : list (str * str) :=
  map (fun p => (u (fst p), u (snd p)))
    [ ("①", "A"); ("②", "B"); ("③", "C"); ("④", "D"); ("⑤", "E");
      ("⑥", "F"); ("⑦", "G"); ("⑧", "H"); ("⑨", "I"); ("⑩", "J");
      ("⑪", "K"); ("⑫", "L"); ("⑬", "M"); ("⑭", "N"); ("⑮", "O");
      ("⑯", "P"); ("⑰", "Q"); ("⑱", "R"); ("⑲", "S"); ("⑳", "T") ]%string.

(** The dict [num_to_alpha = {str(i): labels[i-1] for i in range(1, 27)}] *)
Definition num_to_alpha : list (str * str) :=
  map (fun i => (Str.of_nat i, [nth (i - 1) labels 0%N])) (List.seq 1 26).

(** [d.get(key, default)] *)
Fixpoint dict_get (d : list (str * str)) (key : str) (default : str) : str :=
  match d with
  | [] => default
  | (k, v) :: d' => if str_eqb k key then v else dict_get d' key default
  end.

(** The prefix [^正解[：:]\s*] *)
Definition answer_prefix : regex :=
  seq [Bos; lit (u "正解"); set (chars (u "：:")); star space].

Definition sep_circled_line : list (char * char) :=
  chars (u ".") ++ space ++ chars (u ":：") ++ [(9, 9)]%N.

Definition line_circled : regex :=
  seq [Bos; Grp 1 (set circled); star sep_circled_line; Grp 2 dot_plus; Eos].

Definition line_num : regex :=
  seq [Bos; Grp 1 (plus [(ch "0", ch "9")]);
       star (sep_circled_line ++ chars (u ")）")); Grp 2 dot_plus; Eos].

Definition letters : list (char * char) :=
  [ (ch "A", ch "Z"); (ch "a", ch "z") ].

Definition line_letter : regex :=
  seq [Bos; Grp 1 (set letters); plus sep_circled_line; Grp 2 dot_plus; Eos].

(** [m.group(i)] where the program calls a string method on it. *)
Definition group_obj (m : match_obj) (i : nat) : res str :=
  match group m i with
  | Some v => Ok v
  | None => Raise AttributeError
  end.

(** [f'{label}. {value}'] *)
Definition entry (label value : str) : str := label ++ u ". " ++ value.

(** The body of [for line in lines]. *)
Definition parse_line (parts : list str) (line : str) : res (list str) :=
  let line := Str.strip line in
  match line with
  | [] => Ok parts
  | _ =>
      match match_ line_circled line with
      | Some match_circled =>
          let label :=
            dict_get circled_to_alpha (group_or_empty match_circled 1)
              (u "A") in
          g2 <- group_obj match_circled 2 ;;
          let value := Str.strip g2 in
          Ok (parts ++ [entry label value])
      | None =>
          match match_ line_num line with
          | Some match_num =>
              let num := group_or_empty match_num 1 in
              default <-
                (if length parts <? length labels
                 then c <- index labels (length parts) ;; Ok [c]
                 else Ok (u "A")) ;;
              let label := dict_get num_to_alpha num default in
              g2 <- group_obj match_num 2 ;;
              let value := Str.strip g2 in
              Ok (parts ++ [entry label value])
          | None =>
              match match_ line_letter line with
              | Some m =>
                  g1 <- group_obj m 1 ;;
                  let label := Str.upper g1 in
                  g2 <- group_obj m 2 ;;
                  let value := Str.strip g2 in
                  Ok (parts ++ [entry label value])
              | None =>
                  if length parts <? length labels then
                    c <- index labels (length parts) ;;
                    Ok (parts ++ [entry [c] line])
                  else Ok parts
              end
          end
      end
  end.

(** [pattern_circled] of the single-line branch *)
Definition pattern_circled : regex :=
  seq [Grp 1 (set circled);
       star (chars (u ".") ++ space ++ chars (u ":："));
       Grp 2 (lazy_plus true circled);
       Ahead (Alt (Seq (star space) (set circled)) Eos)].

Definition label_sep : list (char * char) :=
  chars (u ".．:：") ++ [(9, 9)]%N.

(** [([A-Za-z])[.．:：\t]\s*(.+?)(?=\s*[,、]\s*[A-Za-z][.．:：\t]|$)] *)
Definition pattern_comma : regex :=
  seq [Grp 1 (set letters); set label_sep; star space;
       Grp 2 (lazy_plus true dot_ranges);
       Ahead (Alt (seq [star space; set (chars (u ",、")); star space;
                        set letters; set label_sep])
                  Eos)].

(** [([A-Za-z])[.．:：\t]\s*([^A-Za-z]+?)(?=\s*[A-Za-z][.．:：\t]|$)] *)
Definition pattern_space : regex :=
  seq [Grp 1 (set letters); set label_sep; star space;
       Grp 2 (lazy_plus true letters);
       Ahead (Alt (seq [star space; set letters; set label_sep]) Eos)].

(** [re.sub(r, protect_brackets, s)]: the callback appends the match to
    [bracket_contents] and returns its placeholder. *)
Definition bracket_placeholder (i : nat) : str :=
  u "__BRACKET_" ++ Str.of_nat i ++ u "__".

Fixpoint protect_from (r : regex) (bracket_contents : list str) (bos : bool)
  (s : str) (skip : nat) {struct s} : str * list str :=
  match skip with
  | S n =>
      match s with
      | [] => ([], bracket_contents)
      | _ :: s' => protect_from r bracket_contents false s' n
      end
  | O =>
      match match_here r bos s with
      | Some (n, _) =>
          let bracket_contents := bracket_contents ++ [firstn n s] in
          let placeholder :=
            bracket_placeholder (length bracket_contents - 1) in
          let rest :=
            match s with
            | [] => ([], bracket_contents)
            | c :: s' =>
                match n with
                | O =>
                    let r' := protect_from r bracket_contents false s' 0 in
                    (c :: fst r', snd r')
                | S n' => protect_from r bracket_contents false s' n'
                end
            end in
          (placeholder ++ fst rest, snd rest)
      | None =>
          match s with
          | [] => ([], bracket_contents)
          | c :: s' =>
              let r' := protect_from r bracket_contents false s' 0 in
              (c :: fst r', snd r')
          end
      end
  end.

Definition protect_brackets (r : regex) (bracket_contents : list str)
  (s : str) : str * list str :=
  protect_from r bracket_contents true s 0.

(** [for i, content in enumerate(bracket_contents)] *)
Fixpoint restore_brackets (i : nat) (bracket_contents : list str)
  (restored : str) : str :=
  match bracket_contents with
  | [] => restored
  | content :: rest =>
      restore_brackets (S i) rest
        (Str.replace (bracket_placeholder i) content restored)
  end.

Definition format_answer (answer : str) (blank_count : Z) : res str :=
  let answer := Str.strip answer in
  if (blank_count =? 0)%Z then
    Ok (match answer with [] => ANSWER_MARK | _ => ANSWER_MARK ++ answer end)
  else if (blank_count =? 1)%Z then
    let answer := sub answer_prefix [] answer in
    Ok (ANSWER_MARK ++ answer)
  else
    let answer := sub answer_prefix [] answer in
    let lines := Str.split 10%N (Str.strip answer) in
    parts <-
      (if 2 <=? length lines then
         fold_left (fun parts line => parts <- parts ;; parse_line parts line)
           lines (Ok [])
       else
         let matches_circled := findall pattern_circled answer in
         match matches_circled with
         | _ :: _ =>
             Ok (map (fun m =>
                        let label :=
                          dict_get circled_to_alpha (group_or_empty m 1)
                            (u "A") in
                        entry label
                          (Str.rstrip (u ",、")
                             (Str.strip (group_or_empty m 2))))
                   matches_circled)
         | [] =>
             let matches := findall pattern_comma answer in
             match matches with
             | _ :: _ =>
                 Ok (map (fun m =>
                            entry (Str.upper (group_or_empty m 1))
                              (Str.rstrip (u ",、")
                                 (Str.strip (group_or_empty m 2))))
                       matches)
             | [] =>
                 let protected := answer in
                 let '(protected, bracket_contents) :=
                   protect_brackets
                     (seq [chr (ch "("); Rep true 0 None true (chars (u ")"));
                           chr (ch ")")])
                     [] protected in
                 let '(protected, bracket_contents) :=
                   protect_brackets
                     (seq [chr (ch "（");
                           Rep true 0 None true (chars (u "）"));
                           chr (ch "）")])
                     bracket_contents protected in
                 let matches := findall pattern_space protected in
                 Ok (map (fun m =>
                            let restored :=
                              restore_brackets 0 bracket_contents
                                (Str.strip (group_or_empty m 2)) in
                            entry (Str.upper (group_or_empty m 1)) restored)
                       matches)
             end
         end) ;;
    match parts with
    | _ :: _ => Ok (ANSWER_MARK ++ Str.join SEPARATOR parts)
    | [] => Ok (ANSWER_MARK ++ answer)
    end.

(** ** [format_question] *)

Record output := {
  question : str;
  answer : str;
  blank_count : Z
}.

Definition INSTRUCTION : str :=
  u "以下の記述の空欄に適切な語句を記入せよ。" ++ [10%N].

Section Orchestrator.

Variable set_order : list str.

Definition format_question (question_text answer_text : str) : res output :=
  normalized <- normalize_blanks set_order question_text ;;
  let blank_count := Z.of_nat (Str.count MARKER normalized) in
  let converted := convert_desu_masu normalized in
  let cleaned := clean_text converted in
  formatted <- format_blanks cleaned blank_count ;;
  let formatted :=
    if (0 <? blank_count)%Z then INSTRUCTION ++ formatted else formatted in
  formatted_answer <- format_answer answer_text blank_count ;;
  Ok {| question := formatted;
        answer := formatted_answer;
        blank_count := blank_count |}.

End Orchestrator.

(** The orders in which [exclude_letters_before_cell] can be iterated. *)
Fixpoint insert_everywhere (x : str) (l : list str) : list (list str) :=
  match l with
  | [] => [[x]]
  | y :: l' => (x :: l) :: map (cons y) (insert_everywhere x l')
  end.

Fixpoint permutations (l : list str) : list (list str) :=
  match l with
  | [] => [[]]
  | x :: l' => flat_map (insert_everywhere x) (permutations l')
  end.

Definition set_orders : list (list str) :=
  permutations exclude_letters_before_cell.


(** ** Notions used to state the properties *)

(** The working text handed to [format_blanks]: the question after blank
    normalization, register conversion and cleanup. *)
Definition cleaned_text (set_order : list str) (question_text : str)
  : res str :=
  normalized <- normalize_blanks set_order question_text ;;
  Ok (clean_text (convert_desu_masu normalized)).

(** The canonical answer line for the values [vs]: the mark, then
    [A. v1], [B. v2], ... joined by the separator. *)
Fixpoint label_entries (ls : str) (vs : list str) : list str :=
  match ls, vs with
  | l :: ls', v :: vs' => entry [l] v :: label_entries ls' vs'
  | _, _ => []
  end.

Definition render_entries (vs : list str) : str :=
  ANSWER_MARK ++ Str.join SEPARATOR (label_entries labels vs).

(** ** Static facts about a pattern *)

Module ReFacts.

(** The least number of characters a match of the pattern takes. *)
Fixpoint min_len (r : regex) : nat :=
  match r with
  | Eps | Ahead _ | Bos | Eos => 0
  | Cls _ _ => 1
  | Seq a b => min_len a + min_len b
  | Alt a b => Nat.min (min_len a) (min_len b)
  | Rep _ lo _ _ _ => lo
  | Grp _ a => min_len a
  end.

(** The characters a match of the pattern can contain. *)
Fixpoint alphabet (r : regex) (c : char) : bool :=
  match r with
  | Eps | Ahead _ | Bos | Eos => false
  | Cls neg rs => in_cls neg rs c
  | Seq a b | Alt a b => alphabet a c || alphabet b c
  | Rep _ _ _ neg rs => in_cls neg rs c
  | Grp _ a => alphabet a c
  end.

(** Group [i] is set by every match of the pattern. *)
Fixpoint assigns (r : regex) (i : nat) : bool :=
  match r with
  | Eps | Ahead _ | Bos | Eos | Cls _ _ | Rep _ _ _ _ _ => false
  | Seq a b => assigns a i || assigns b i
  | Alt a b => assigns a i && assigns b i
  | Grp j a => Nat.eqb i j || assigns a i
  end.

(** [^] occurs in the pattern. *)
Fixpoint uses_bos (r : regex) : bool :=
  match r with
  | Bos => true
  | Eps | Eos | Cls _ _ | Rep _ _ _ _ _ => false
  | Seq a b | Alt a b => uses_bos a || uses_bos b
  | Grp _ a | Ahead a => uses_bos a
  end.

Definition is_nil (s : str) : bool :=
  match s with [] => true | _ => false end.

(** The groups set in [caps] stay set in [caps'], and so are those the
    pattern assigns. *)
Definition extends (r : regex) (caps caps' : captures) : Prop :=
  forall i, assigns r i = true \/ lookup i caps <> None ->
            lookup i caps' <> None.

End ReFacts.

(** ** One pass of the standalone-letter loop, written out

    [standalone_pass] is what [re.sub(pattern, replace_standalone, result)]
    computes (lemma [sub_res_standalone]); [pending] counts the uppercase
    letters that are followed by a character of [after_chars]. *)

Definition standalone_at (a b c : char) : bool :=
  in_cls false before_chars a && in_cls false upper_AZ b &&
  in_cls false after_chars c.

Fixpoint standalone_pass (s : str) : str :=
  match s with
  | [] => []
  | a :: t =>
      match t with
      | b :: c :: rest =>
          if standalone_at a b c
          then a :: MARKER ++ c :: standalone_pass rest
          else a :: standalone_pass t
      | _ => s
      end
  end.

Definition pending_at (b : char) (t : str) : nat :=
  match t with
  | c :: _ =>
      if in_cls false upper_AZ b && in_cls false after_chars c then 1 else 0
  | [] => 0
  end.

Fixpoint pending (s : str) : nat :=
  match s with
  | [] => 0
  | b :: t => pending_at b t + pending t
  end.

(** Two lists of ranges have no character in common. *)
Definition disjoint_ranges (A B : list (char * char)) : bool :=
  forallb (fun ra =>
             forallb (fun rb =>
                        (snd ra <? fst rb)%N || (snd rb <? fst ra)%N) B) A.

(** The callbacks of the two [re.sub] calls with groups that are set. *)
Definition tech_repl_pure (m : match_obj) : str :=
  group_or_empty m 1 ++ (u "__TECH_" ++ group_fmt m 2 ++ u "__") ++
  group_or_empty m 3.

Definition replace_standalone_pure (m : match_obj) : str :=
  group_or_empty m 1 ++ MARKER ++ group_or_empty m 3.




(** ** Texts cut at the markers *)

(** [old in s] *)
Fixpoint occurs (old s : str) : bool :=
  match Str.strip_prefix old s with
  | Some _ => true
  | None =>
      match s with
      | [] => false
      | _ :: s' => occurs old s'
      end
  end.

(** A piece of text without a marker. *)
Definition marker_free (s : str) : Prop := occurs MARKER s = false.

(** The pieces [segs] put together again with a labeled blank after each
    piece as long as [ls] has a label, and with the marker itself once the
    labels have run out. *)
Fixpoint fill (ls : str) (segs : list str) : str :=
  match segs with
  | [] => []
  | [s] => s
  | s :: rest =>
      match ls with
      | l :: ls' => s ++ labeled_blank l ++ fill ls' rest
      | [] => s ++ MARKER ++ fill [] rest
      end
  end.

(** Each piece followed by the labeled blank of its letter. *)
Fixpoint labeled (ls : str) (segs : list str) : str :=
  match ls, segs with
  | l :: ls', s :: rest => s ++ labeled_blank l ++ labeled ls' rest
  | _, _ => []
  end.

(** The text before the first occurrence of [old] and the text after it
    ([s.partition(old)]). *)
Fixpoint find (old s : str) : option (str * str) :=
  match Str.strip_prefix old s with
  | Some rest => Some ([], rest)
  | None =>
      match s with
      | [] => None
      | c :: s' =>
          match find old s' with
          | Some (b, a) => Some (c :: b, a)
          | None => None
          end
      end
  end.

(** The pieces of a text between its markers ([s.split(MARKER)]), cut
    with at most [fuel] markers. *)
Fixpoint pieces (fuel : nat) (s : str) : list str :=
  match fuel with
  | O => [s]
  | S f =>
      match find MARKER s with
      | Some (b, a) => b :: pieces f a
      | None => [s]
      end
  end.

(** No proper end of the marker begins the text [z]. *)
Definition no_straddle (z : str) : Prop :=
  forall j, 1 <= j <= 8 -> Str.strip_prefix (skipn j MARKER) z = None.

(** Text at the front that [replace] copies whatever follows. *)
Definition dead (pre : str) : Prop :=
  forall new t,
    Str.replace_n MARKER new 1 (pre ++ t)
    = pre ++ Str.replace_n MARKER new 1 t.

(** ** Texts with the same markers *)

(** A character of the marker. *)
Definition marker_char (c : char) : bool := existsb (N.eqb c) MARKER.

(** [sim s t]: [t] is [s] with some non-empty runs of characters foreign
    to the marker replaced by other such runs. *)
Inductive sim : str -> str -> Prop :=
| sim_nil : sim [] []
| sim_keep (c : char) (s t : str) : sim s t -> sim (c :: s) (c :: t)
| sim_swap (x y s t : str) :
    x <> [] -> y <> [] ->
    Forall (fun c => marker_char c = false) x ->
    Forall (fun c => marker_char c = false) y ->
    sim s t -> sim (x ++ s) (y ++ t).

(** A rule of a table whose matches and replacement are non-empty and
    foreign to the marker. *)
Definition rule_keeps_markers (rule : regex * str) : bool :=
  forallb (fun c => negb (ReFacts.alphabet (fst rule) c)) MARKER &&
  (1 <=? ReFacts.min_len (fst rule)) &&
  negb (ReFacts.is_nil (snd rule)) &&
  forallb (fun c => negb (marker_char c)) (snd rule).

(** ** Literal patterns before a fixed tail *)

Definition is_none (A : Type) (o : option A) : bool :=
  match o with None => true | Some _ => false end.

(** No match of the non-empty literal [p] begins before the tail [z] and
    ends in it. *)
Definition lit_stable (p z : str) : bool :=
  negb (ReFacts.is_nil p) &&
  forallb (fun j => is_none (Str.strip_prefix (skipn j p) z))
    (List.seq 1 (length p - 1)).

(** The optional class after a literal does not take the first
    character of [z]. *)
Definition opt_stable (cls : list (char * char)) (z : str) : bool :=
  match z with
  | c :: _ => negb (in_cls false cls c)
  | [] => true
  end.

(** ** Texts without surrounding space, and the answer prefix *)

(** The text is empty or its first character does not satisfy [p]. *)
Definition clean_head (p : char -> bool) (s : str) : Prop :=
  match s with
  | c :: _ => p c = false
  | [] => True
  end.

(** What [re.sub(r'^正解[：:]\s*', '', answer)] returns (lemma
    [sub_answer_prefix]). *)
Definition strip_answer_prefix (s : str) : str :=
  match Str.strip_prefix (u "正解") s with
  | Some (c :: rest) =>
      if in_cls false (chars (u "：:")) c
      then Str.lstrip_by Str.isspace rest
      else s
  | _ => s
  end.

(** ** Worked inputs *)

(** A one-blank question with its answer, and what [format_question]
    returns on it and on its own output. *)
Definition one_blank_question : str := u "これは（　）である。".
Definition one_blank_answer : str := u "赤血球".

Definition one_blank_output : output :=
  {| question := INSTRUCTION ++ u "これは（　　　　　）である。";
     answer := u "正解：赤血球";
     blank_count := 1 |}.

Definition one_blank_rerun : output :=
  {| question := INSTRUCTION ++ INSTRUCTION ++ u "これは（　　　　　）である。";
     answer := u "正解：赤血球";
     blank_count := 1 |}.

(** A question in which emphasis marks cut a marker in two. *)
Definition emphasis_question : str := u "{{BL*AN*K}}".

(** Two values labeled by digits on one line. *)
Definition digit_line_answer : str := u "1. 赤血球 2. 白血球".

(** ** Answers that carry labels already *)

Inductive notation := Letters | Digits | Circles.

Definition circled_labels : str := u "①②③④⑤⑥⑦⑧⑨⑩⑪⑫⑬⑭⑮⑯⑰⑱⑲⑳".

(** The label of the entry number [i], counted from 0. *)
Definition label_text (nt : notation) (i : nat) : str :=
  match nt with
  | Letters => [nth i labels 0%N]
  | Digits => Str.of_nat (S i)
  | Circles => [nth i circled_labels 0%N]
  end.

(** The number of labels a notation has. *)
Definition max_entries (nt : notation) : nat :=
  match nt with
  | Circles => 20
  | _ => 26
  end.

(** The entries [label, separator, value], numbered from [i]. *)
Fixpoint labeled_lines (nt : notation) (sepstr : str) (i : nat)
  (vs : list str) : list str :=
  match vs with
  | [] => []
  | v :: vs' =>
      (label_text nt i ++ sepstr ++ v) :: labeled_lines nt sepstr (S i) vs'
  end.

(** One entry a line. *)
Definition multi_line_answer (nt : notation) (sepstr : str) (vs : list str)
  : str :=
  Str.join [10%N] (labeled_lines nt sepstr 0 vs).

(** The characters between a label and its value on a line:
    [[.\s:：\t]], and with [)] and [）] after a number. *)
Definition sep_num_line : list (char * char) :=
  sep_circled_line ++ chars (u ")）").

(** A separator between label and value: characters of [[.\s:：\t]], no
    line break; not empty after a letter or a number. *)
Definition good_separator (nt : notation) (sepstr : str) : Prop :=
  Forall (fun c => in_cls false sep_circled_line c = true /\ c <> 10%N)
    sepstr /\
  (nt = Circles \/ sepstr <> []).

(** A value: not empty, on one line, not beginning with a separator
    character, not ending in white space. *)
Definition good_value (v : str) : Prop :=
  v <> [] /\
  Forall (fun c => c <> 10%N) v /\
  clean_head (in_cls false sep_num_line) v /\
  clean_head Str.isspace (rev v).

(** The three line patterns have one shape. *)
Definition line_pattern (label : regex) (seps : list (char * char))
  (lo : nat) : regex :=
  seq [Bos; Grp 1 label; Rep true lo None false seps; Grp 2 dot_plus; Eos].

(** The entries on one line, with [gap] between them. *)
Definition single_line_answer (nt : notation) (sepstr gap : str)
  (vs : list str) : str :=
  Str.join gap (labeled_lines nt sepstr 0 vs).

(** A gap between entries on a line: white space without a line break. *)
Definition good_gap (gap : str) : Prop :=
  Forall (fun c => Str.isspace c = true /\ c <> 10%N) gap.

(** A value after a circled number on a line: a value without a circled
    number in it and without a comma at its end. *)
Definition circled_value (v : str) : Prop :=
  good_value v /\
  Forall (fun c => in_cls false circled c = false) v /\
  clean_head (fun c => existsb (N.eqb c) (u ",、")) (rev v).

(** A value in a comma-separated line: a value without a circled number
    and without a comma. *)
Definition comma_value (v : str) : Prop :=
  good_value v /\
  Forall (fun c => in_cls false circled c = false /\
                   in_cls false (chars (u ",、")) c = false) v.

(** The separators of [pattern_circled]: [[.\s:：]]. *)
Definition sep_inline : list (char * char) :=
  chars (u ".") ++ space ++ chars (u ":：").

(** What may follow an entry on a line of circled numbers: nothing, or a
    gap of white space and the next circled number. *)
Definition after_circled_entry (rest : str) : Prop :=
  rest = [] \/
  exists gap c more,
    rest = gap ++ c :: more /\
    Forall (fun x => Str.isspace x = true) gap /\
    in_cls false circled c = true.


(** The bodies of the loops over the matches of a single line in
    [format_answer]. *)
Definition circled_entry (m : match_obj) : str :=
  let label := dict_get circled_to_alpha (group_or_empty m 1) (u "A") in
  entry label (Str.rstrip (u ",、") (Str.strip (group_or_empty m 2))).

Definition comma_entry (m : match_obj) : str :=
  entry (Str.upper (group_or_empty m 1))
    (Str.rstrip (u ",、") (Str.strip (group_or_empty m 2))).

(** What may follow an entry on a line of comma-separated letters:
    nothing, or [, ] and the next letter with its period. *)
Definition after_comma_entry (rest : str) : Prop :=
  rest = [] \/
  exists c more,
    rest = u ", " ++ c :: ch "." :: more /\
    in_cls false letters c = true.

(** ** Characters a match cannot do without *)

(** Every range of [rs] lies in a range of [P]. *)
Definition subset_ranges (rs P : list (char * char)) : bool :=
  forallb (fun r =>
             existsb (fun q => (fst q <=? fst r)%N && (snd r <=? snd q)%N) P)
    rs.

(** Every match of the pattern contains a character of [P]. *)
Fixpoint needs (P : list (char * char)) (r : regex) : bool :=
  match r with
  | Cls neg rs => negb neg && subset_ranges rs P
  | Seq a b => needs P a || needs P b
  | Alt a b => needs P a && needs P b
  | Rep _ lo _ neg rs => (0 <? lo) && negb neg && subset_ranges rs P
  | Grp _ a => needs P a
  | Eps | Ahead _ | Bos | Eos => false
  end.

(** The text has no character of [P]. *)
Definition lacks (P : list (char * char)) (s : str) : Prop :=
  Forall (fun c => Str.in_ranges P c = false) s.

(** The characters without which [normalize_blanks] finds nothing: an
    opening bracket of a blank, an underscore, an uppercase letter. *)
Definition blank_triggers : list (char * char) :=
  chars (u "（(【[_＿") ++ upper_AZ.

(** Hiragana, which every rule of [convert_desu_masu] begins with. *)
Definition hiragana : list (char * char) := [ (0x3040, 0x309F) ]%N.

(** ** Lines without a label *)



(** ** Answers nothing is read from *)

(** The characters without which [format_answer] reads no entries from an
    answer of two or more blanks: a line break, a circled number, an
    ASCII letter, an opening bracket. *)
Definition answer_triggers : list (char * char) :=
  dot_ranges ++ circled ++ letters ++ chars (u "(（").

(** ** Texts the cleanup keeps the markers of *)

(** The characters with which [clean_text] can cut or close a marker: the
    emphasis mark and the ASCII comma. *)
Definition cleanup_hazards : list (char * char) := chars (u "*,").



(** ** The question for the pieces of the cleaned text *)


(** * The matcher *)

Import ReFacts.

Lemma str_eqb_eq (a b : str) : str_eqb a b = true <-> a = b.
Proof.
  unfold str_eqb. destruct (list_eq_dec N.eq_dec a b); split; congruence.
Qed.

Lemma str_eqb_refl (a : str) : str_eqb a a = true.
Proof. now apply str_eqb_eq. Qed.

Lemma str_eqb_neq (a b : str) : str_eqb a b = false <-> a <> b.
Proof.
  unfold str_eqb. destruct (list_eq_dec N.eq_dec a b); split; congruence.
Qed.

Lemma firstn_consumed (m s' : str) :
  firstn (length (m ++ s') - length s') (m ++ s') = m.
Proof.
  rewrite length_app.
  replace (length m + length s' - length s') with (length m) by lia.
  rewrite firstn_app, firstn_all, Nat.sub_diag. simpl. now rewrite app_nil_r.
Qed.

Lemma consumed_length (m s' : str) :
  length (m ++ s') - length s' = length m.
Proof. rewrite length_app. lia. Qed.

(** A successful repetition took a run [m] of admissible characters, at
    least [lo] of them, and the continuation succeeded on the rest. *)
Lemma rep_sound (R : Type) (greedy : bool) (p : char -> bool) :
  forall s lo hi bos (k : bool -> str -> option R) x,
    rep greedy p lo hi bos s k = Some x ->
    exists m s', s = m ++ s' /\ k (bos && is_nil m) s' = Some x /\
                 Forall (fun c => p c = true) m /\ lo <= length m.
Proof.
  induction s as [|c s IH]; intros lo hi bos k x H.
  - destruct lo; simpl in H; [|discriminate].
    exists [], []. rewrite andb_true_r.
    destruct greedy; simpl in H.
    + repeat split; auto.
    + destruct (k bos []); [|discriminate]. repeat split; auto.
  - destruct lo as [|lo].
    + simpl in H.
      assert (Hmore :
        (if more_allowed hi && p c
         then rep greedy p 0 (option_map Nat.pred hi) false s k
         else None) = Some x ->
        exists m s', c :: s = m ++ s' /\ k (bos && is_nil m) s' = Some x /\
                     Forall (fun c => p c = true) m /\ 0 <= length m).
      { intros Hm. destruct (more_allowed hi); simpl in Hm; [|discriminate].
        destruct (p c) eqn:Hp; [|discriminate].
        apply IH in Hm. destruct Hm as (m & s' & -> & Hk & Hall & _).
        exists (c :: m), s'. rewrite andb_false_r. simpl in Hk.
        repeat split; auto; simpl; lia. }
      assert (Hstop :
        k bos (c :: s) = Some x ->
        exists m s', c :: s = m ++ s' /\ k (bos && is_nil m) s' = Some x /\
                     Forall (fun c => p c = true) m /\ 0 <= length m).
      { intros Hk. exists [], (c :: s). rewrite andb_true_r.
        repeat split; auto. }
      destruct greedy.
      * destruct (if more_allowed hi && p c
                  then rep true p 0 (option_map Nat.pred hi) false s k
                  else None) eqn:E.
        -- apply Hmore. congruence.
        -- apply Hstop. exact H.
      * destruct (k bos (c :: s)) eqn:E.
        -- apply Hstop. congruence.
        -- apply Hmore. exact H.
    + simpl in H. destruct (p c) eqn:Hp; [|discriminate].
      apply IH in H. destruct H as (m & s' & -> & Hk & Hall & Hlo).
      exists (c :: m), s'. rewrite andb_false_r. simpl in Hk.
      repeat split; auto. simpl. lia.
Qed.

Lemma lookup_cons_neq (i j : nat) (v : str) (caps : captures) :
  lookup i caps <> None -> lookup i ((j, v) :: caps) <> None.
Proof. simpl. destruct (Nat.eqb i j); congruence. Qed.

(** A successful match took a prefix [m] of the input whose characters
    lie in the alphabet of the pattern, not shorter than [min_len]; it set
    the groups the pattern assigns; and the continuation succeeded on what
    follows [m]. *)
Lemma rmatch_sound (R : Type) (r : regex) :
  forall bos s caps (k : bool -> str -> captures -> option R) x,
    rmatch r bos s caps k = Some x ->
    exists m s' caps',
      s = m ++ s' /\ k (bos && is_nil m) s' caps' = Some x /\
      Forall (fun c => alphabet r c = true) m /\
      min_len r <= length m /\ extends r caps caps'.
Proof.
  revert R.
  induction r as [ | neg rs | a IHa b IHb | a IHa b IHb
                 | g lo hi neg rs | i a IHa | a IHa | | ];
    intros R bos s caps k x H; simpl in H.
  - exists [], s, caps. rewrite andb_true_r.
    repeat split; auto. intros i [Hi|Hi]; [discriminate|auto].
  - destruct s as [|c s]; [discriminate|].
    destruct (in_cls neg rs c) eqn:Hc; [|discriminate].
    exists [c], s, caps. rewrite andb_false_r.
    repeat split; auto. intros i [Hi|Hi]; [discriminate|auto].
  - apply IHa in H. destruct H as (m1 & s1 & caps1 & -> & H & Ha & Hl1 & He1).
    apply IHb in H. destruct H as (m2 & s2 & caps2 & -> & H & Hb & Hl2 & He2).
    exists (m1 ++ m2), s2, caps2. rewrite app_assoc.
    repeat split; auto.
    + destruct m1; simpl in *.
      * now rewrite andb_true_r in H.
      * now rewrite andb_false_r in *.
    + apply Forall_app. split; eapply Forall_impl; try eassumption;
        simpl; intros c Hc; rewrite Hc; auto using orb_true_r.
    + simpl. rewrite length_app. lia.
    + intros i [Hi|Hi].
      * simpl in Hi. apply orb_true_iff in Hi. destruct Hi as [Hi|Hi].
        -- apply He2. right. apply He1. now left.
        -- apply He2. now left.
      * apply He2. right. apply He1. now right.
  - destruct (rmatch a bos s caps k) eqn:E.
    + injection H as <-. apply IHa in E.
      destruct E as (m & s' & caps' & -> & Hk & Ha & Hl & He).
      exists m, s', caps'. repeat split; auto.
      * eapply Forall_impl; try eassumption. simpl. intros c ->. auto.
      * simpl. lia.
      * intros i [Hi|Hi]; apply He; [left|now right].
        simpl in Hi. now apply andb_true_iff in Hi.
    + apply IHb in H.
      destruct H as (m & s' & caps' & -> & Hk & Hb & Hl & He).
      exists m, s', caps'. repeat split; auto.
      * eapply Forall_impl; try eassumption. simpl. intros c ->.
        auto using orb_true_r.
      * simpl. lia.
      * intros i [Hi|Hi]; apply He; [left|now right].
        simpl in Hi. now apply andb_true_iff in Hi.
  - apply rep_sound in H. destruct H as (m & s' & -> & Hk & Hall & Hlo).
    exists m, s', caps. repeat split; auto.
    intros i [Hi|Hi]; [discriminate|auto].
  - apply IHa in H. destruct H as (m & s' & caps' & -> & Hk & Ha & Hl & He).
    rewrite firstn_consumed in Hk.
    exists m, s', ((i, m) :: caps'). repeat split; auto.
    intros j [Hj|Hj].
    + simpl in *. destruct (Nat.eqb j i) eqn:E; [congruence|].
      apply He. now left.
    + apply lookup_cons_neq. apply He. now right.
  - destruct (rmatch a bos s caps (fun _ _ _ => Some tt)); [|discriminate].
    exists [], s, caps. rewrite andb_true_r.
    repeat split; auto. intros i [Hi|Hi]; [discriminate|auto].
  - destruct bos; [|discriminate].
    exists [], s, caps. repeat split; auto.
    intros i [Hi|Hi]; [discriminate|auto].
  - assert (k bos s caps = Some x) as Hk.
    { destruct s as [|c [|]]; auto; [|discriminate].
      destruct (c =? 10)%N; [auto|discriminate]. }
    exists [], s, caps. rewrite andb_true_r. repeat split; auto.
    intros i [Hi|Hi]; [discriminate|auto].
Qed.

(** What [match_here] returns: the length of a prefix of the input with
    the properties of [rmatch_sound]. *)
Lemma match_here_sound (r : regex) (bos : bool) (s : str) (n : nat)
  (caps : captures) :
  match_here r bos s = Some (n, caps) ->
  n <= length s /\ min_len r <= n /\
  Forall (fun c => alphabet r c = true) (firstn n s) /\
  (forall i, assigns r i = true -> lookup i caps <> None).
Proof.
  unfold match_here. intros H. apply rmatch_sound in H.
  destruct H as (m & s' & caps' & -> & Hk & Ha & Hl & He).
  injection Hk as <- <-. rewrite consumed_length.
  repeat split; auto.
  - rewrite length_app. lia.
  - rewrite firstn_app, firstn_all, Nat.sub_diag. simpl.
    now rewrite app_nil_r.
Qed.


(** * [re.sub] *)

(** Passing over the characters of a match. *)
Lemma sub_from_skip (r : regex) (repl : match_obj -> str) :
  forall n s bos,
    S n <= length s ->
    sub_from r repl bos s (S n) = sub_from r repl false (skipn (S n) s) 0.
Proof.
  induction n as [|n IH]; intros s bos Hn.
  - destruct s as [|c s]; simpl in *; [lia|]. reflexivity.
  - destruct s as [|c s]; simpl in Hn; [lia|].
    change (sub_from r repl bos (c :: s) (S (S n)))
      with (sub_from r repl false s (S n)).
    rewrite IH by lia. reflexivity.
Qed.

(** The scan at a position where the previous match has ended. *)
Lemma sub_from_step (r : regex) (repl : match_obj -> str) (bos : bool)
  (s : str) :
  sub_from r repl bos s 0 =
  match match_here r bos s with
  | Some (S n, caps) =>
      repl {| whole := firstn (S n) s; groups := caps |} ++
      sub_from r repl false (skipn (S n) s) 0
  | Some (O, caps) =>
      repl {| whole := []; groups := caps |} ++
      match s with
      | [] => []
      | c :: s' => c :: sub_from r repl false s' 0
      end
  | None =>
      match s with
      | [] => []
      | c :: s' => c :: sub_from r repl false s' 0
      end
  end.
Proof.
  destruct s as [|c s]; simpl.
  - destruct (match_here r bos []) as [[n caps]|] eqn:E; auto.
    apply match_here_sound in E. destruct E as (Hn & _).
    simpl in Hn. destruct n; [reflexivity|lia].
  - destruct (match_here r bos (c :: s)) as [[n caps]|] eqn:E; auto.
    destruct n as [|n]; auto.
    apply match_here_sound in E. destruct E as (Hn & _). simpl in Hn.
    destruct n as [|n]; [reflexivity|].
    rewrite sub_from_skip by lia. reflexivity.
Qed.

(** A callback that returns on every match whose assigned groups are set
    never raises inside [re.sub]. *)
Lemma sub_from_res_pure (r : regex) (repl : match_obj -> res str)
  (repl' : match_obj -> str) :
  (forall m, (forall i, assigns r i = true -> lookup i (groups m) <> None) ->
             repl m = Ok (repl' m)) ->
  forall s bos skip,
    sub_from_res r repl bos s skip = Ok (sub_from r repl' bos s skip).
Proof.
  intros Hrepl.
  induction s as [|c s IH]; intros bos skip.
  - destruct skip; simpl; auto.
    destruct (match_here r bos []) as [[n caps]|] eqn:E; auto.
    rewrite Hrepl.
    + simpl. reflexivity.
    + simpl. now apply match_here_sound in E.
  - destruct skip as [|skip]; simpl; [|apply IH].
    destruct (match_here r bos (c :: s)) as [[n caps]|] eqn:E.
    + rewrite Hrepl by (simpl; now apply match_here_sound in E).
      simpl. destruct n; rewrite IH; reflexivity.
    + rewrite IH. reflexivity.
Qed.

Lemma sub_res_pure (r : regex) (repl : match_obj -> res str)
  (repl' : match_obj -> str) (s : str) :
  (forall m, (forall i, assigns r i = true -> lookup i (groups m) <> None) ->
             repl m = Ok (repl' m)) ->
  sub_res r repl s = Ok (sub_with r repl' s).
Proof. intros H. apply sub_from_res_pure. exact H. Qed.

Lemma group_str_set (m : match_obj) (i : nat) :
  lookup i (groups m) <> None -> i <> 0 ->
  group_str m i = Ok (group_or_empty m i).
Proof.
  unfold group_str, group_or_empty, group. destruct i; [congruence|].
  destruct (lookup (S i) (groups m)); congruence.
Qed.

Lemma sub_res_tech (s : str) :
  sub_res tech_pattern tech_repl s = Ok (sub_with tech_pattern tech_repl_pure s).
Proof.
  apply sub_res_pure. intros m Hm.
  unfold tech_repl, tech_repl_pure.
  rewrite !group_str_set; auto.
Qed.

Lemma sub_res_standalone_pure (s : str) :
  sub_res standalone_pattern replace_standalone s
  = Ok (sub_with standalone_pattern replace_standalone_pure s).
Proof.
  apply sub_res_pure. intros m Hm.
  unfold replace_standalone, replace_standalone_pure.
  rewrite !group_str_set; auto.
Qed.


(** * The standalone-letter loop *)

Lemma firstn_one (a : char) (s : str) :
  firstn (length (a :: s) - length s) (a :: s) = [a].
Proof. exact (firstn_consumed [a] s). Qed.

(** A pattern of three grouped classes matches three characters. *)
Lemma match_here_three (A B C : list (char * char)) (bos : bool) (s : str) :
  match_here (seq [Grp 1 (set A); Grp 2 (set B); Grp 3 (set C)]) bos s =
  match s with
  | a :: b :: c :: _ =>
      if in_cls false A a && in_cls false B b && in_cls false C c
      then Some (3, [(3, [c]); (2, [b]); (1, [a])])
      else None
  | _ => None
  end.
Proof.
  unfold match_here.
  destruct s as [|a [|b [|c rest]]]; cbn [seq set rmatch]; auto.
  - destruct (in_cls false A a); auto.
  - destruct (in_cls false A a); auto. destruct (in_cls false B b); auto.
  - destruct (in_cls false A a), (in_cls false B b), (in_cls false C c);
      cbn [andb]; auto.
    rewrite !firstn_one.
    replace (length (a :: b :: c :: rest) - length rest) with 3
      by (cbn [length]; lia).
    reflexivity.
Qed.

Lemma standalone_pass_cons (a b c : char) (rest : str) :
  standalone_pass (a :: b :: c :: rest) =
  if standalone_at a b c
  then a :: MARKER ++ c :: standalone_pass rest
  else a :: standalone_pass (b :: c :: rest).
Proof. reflexivity. Qed.

Lemma sub_from_standalone (s : str) :
  forall bos,
    sub_from standalone_pattern replace_standalone_pure bos s 0
    = standalone_pass s.
Proof.
  remember (length s) as n eqn:Hn. revert s Hn.
  induction n as [n IH] using lt_wf_ind. intros s Hn bos.
  rewrite sub_from_step. unfold standalone_pattern.
  rewrite match_here_three.
  fold standalone_pattern.
  destruct s as [|a [|b [|c rest]]]; auto.
  - rewrite (IH 1) by (simpl in *; auto; lia). reflexivity.
  - rewrite standalone_pass_cons. unfold standalone_at.
    destruct (in_cls false before_chars a && in_cls false upper_AZ b &&
              in_cls false after_chars c).
    + cbn [skipn]. rewrite (IH (length rest)) by (simpl in *; auto; lia).
      reflexivity.
    + rewrite (IH (length (b :: c :: rest))) by (simpl in *; auto; lia).
      reflexivity.
Qed.

(** One pass of the loop is [standalone_pass]. *)
Lemma sub_res_standalone (s : str) :
  sub_res standalone_pattern replace_standalone s = Ok (standalone_pass s).
Proof.
  rewrite sub_res_standalone_pure. unfold sub_with.
  now rewrite sub_from_standalone.
Qed.

Lemma in_ranges_disjoint (A B : list (char * char)) (c : char) :
  disjoint_ranges A B = true ->
  Str.in_ranges A c = true -> Str.in_ranges B c = false.
Proof.
  unfold disjoint_ranges, Str.in_ranges. intros HD HA.
  apply existsb_exists in HA. destruct HA as (ra & Hra & Hc).
  rewrite forallb_forall in HD. specialize (HD ra Hra).
  rewrite forallb_forall in HD.
  match goal with |- ?e = false => destruct e eqn:E; auto end.
  apply existsb_exists in E. destruct E as (rb & Hrb & Hc').
  specialize (HD rb Hrb).
  apply andb_true_iff in Hc, Hc'. destruct Hc as [H1 H2], Hc' as [H3 H4].
  apply N.leb_le in H1, H2, H3, H4.
  apply orb_true_iff in HD. destruct HD as [HD|HD]; apply N.ltb_lt in HD; lia.
Qed.

Lemma in_cls_disjoint (A B : list (char * char)) (c : char) :
  disjoint_ranges A B = true ->
  in_cls false A c = true -> in_cls false B c = false.
Proof. apply in_ranges_disjoint. Qed.

Lemma before_not_upper (a : char) :
  in_cls false before_chars a = true -> in_cls false upper_AZ a = false.
Proof. apply in_cls_disjoint. vm_compute. reflexivity. Qed.

Lemma after_not_upper (a : char) :
  in_cls false after_chars a = true -> in_cls false upper_AZ a = false.
Proof. apply in_cls_disjoint. vm_compute. reflexivity. Qed.

(** A pass keeps the first character. *)
Lemma standalone_pass_hd (s : str) :
  hd_error (standalone_pass s) = hd_error s.
Proof.
  destruct s as [|a [|b [|c rest]]]; auto.
  rewrite standalone_pass_cons. destruct (standalone_at a b c); auto.
Qed.

Lemma pending_at_hd (b : char) (s t : str) :
  hd_error s = hd_error t -> pending_at b s = pending_at b t.
Proof.
  destruct s, t; simpl; intros H; try discriminate; auto.
  now injection H as ->.
Qed.

(** The inserted marker has no uppercase letter before a character of
    [after_chars]. *)
Lemma pending_marker (c : char) (t : str) :
  pending (MARKER ++ c :: t) = pending (c :: t).
Proof.
  change (MARKER ++ c :: t)
    with (ch "{" :: ch "{" :: ch "B" :: ch "L" :: ch "A" :: ch "N" ::
          ch "K" :: ch "}" :: ch "}" :: c :: t).
  cbn [pending].
  replace (pending_at (ch "}") (c :: t)) with 0.
  - reflexivity.
  - unfold pending_at.
    replace (in_cls false upper_AZ (ch "}")) with false by reflexivity.
    reflexivity.
Qed.

Lemma pending_not_upper (a : char) (t : str) :
  in_cls false upper_AZ a = false -> pending (a :: t) = pending t.
Proof.
  intros Ha. cbn [pending]. unfold pending_at. rewrite Ha.
  destruct t; reflexivity.
Qed.

(** A pass never adds a pending letter, and a pass that changes the text
    removes one. *)
Lemma standalone_pass_pending (s : str) :
  pending (standalone_pass s) <= pending s /\
  (standalone_pass s <> s -> pending (standalone_pass s) < pending s).
Proof.
  remember (length s) as n eqn:Hn. revert s Hn.
  induction n as [n IH] using lt_wf_ind. intros s Hn.
  destruct s as [|a [|b [|c rest]]];
    try (cbn [standalone_pass]; split; [lia|congruence]).
  rewrite standalone_pass_cons.
  destruct (standalone_at a b c) eqn:Hat.
  - unfold standalone_at in Hat.
    apply andb_true_iff in Hat. destruct Hat as [Hat Hc].
    apply andb_true_iff in Hat. destruct Hat as [Ha Hb].
    destruct (IH (length rest)) with (s := rest) as [Hle _];
      [simpl in *; lia|reflexivity|].
    assert (pending (a :: MARKER ++ c :: standalone_pass rest)
            = pending (standalone_pass rest)) as ->.
    { rewrite (pending_not_upper a _ (before_not_upper a Ha)).
      rewrite pending_marker.
      apply (pending_not_upper c _ (after_not_upper c Hc)). }
    assert (pending (a :: b :: c :: rest) = S (pending rest)) as ->.
    { rewrite (pending_not_upper a _ (before_not_upper a Ha)).
      change (pending (b :: c :: rest))
        with (pending_at b (c :: rest) + pending (c :: rest)).
      rewrite (pending_not_upper c _ (after_not_upper c Hc)).
      unfold pending_at. rewrite Hb, Hc. reflexivity. }
    split; intros; lia.
  - destruct (IH (length (b :: c :: rest))) with (s := b :: c :: rest)
      as [Hle Hlt]; [simpl in *; lia|reflexivity|].
    change (pending (a :: standalone_pass (b :: c :: rest)))
      with (pending_at a (standalone_pass (b :: c :: rest)) +
            pending (standalone_pass (b :: c :: rest))).
    change (pending (a :: b :: c :: rest))
      with (pending_at a (b :: c :: rest) + pending (b :: c :: rest)).
    rewrite (pending_at_hd a (standalone_pass (b :: c :: rest))
               (b :: c :: rest)) by apply standalone_pass_hd.
    split; [lia|].
    intros Hne.
    assert (standalone_pass (b :: c :: rest) <> b :: c :: rest) as H
      by congruence.
    apply Hlt in H. lia.
Qed.

Lemma pending_le_length (s : str) : pending s <= length s.
Proof.
  induction s as [|b t IH]; simpl; [lia|].
  unfold pending_at. destruct t; [lia|].
  destruct (_ && _); lia.
Qed.

(** With more passes allowed than there are pending letters the loop
    ends, at a text that a further pass leaves as it is. *)
Lemma standalone_loop_ends :
  forall fuel s,
    pending s < fuel ->
    exists r, standalone_loop fuel s = Ok r /\ standalone_pass r = r /\
              forall fuel', pending s < fuel' -> standalone_loop fuel' s = Ok r.
Proof.
  induction fuel as [|fuel IH]; intros s Hs; [lia|].
  cbn [standalone_loop]. rewrite sub_res_standalone. cbn [bind].
  destruct (str_eqb s (standalone_pass s)) eqn:E.
  - apply str_eqb_eq in E. exists (standalone_pass s).
    repeat split; auto; try congruence.
    intros [|fuel'] Hf; [lia|].
    cbn [standalone_loop]. rewrite sub_res_standalone. cbn [bind].
    rewrite <- E at 1. now rewrite str_eqb_refl.
  - apply str_eqb_neq in E.
    destruct (standalone_pass_pending s) as [_ Hlt].
    assert (pending (standalone_pass s) < pending s) as Hdec
      by (apply Hlt; congruence).
    destruct (IH (standalone_pass s)) as (r & Hr & Hfix & Hany); [lia|].
    exists r. repeat split; auto.
    intros [|fuel'] Hf; [lia|].
    cbn [standalone_loop]. rewrite sub_res_standalone. cbn [bind].
    apply str_eqb_neq in E. rewrite E. apply Hany. lia.
Qed.


(** * Totality of the pipeline *)

Lemma normalize_standalone_letters_total (set_order : list str) (text : str) :
  exists result, normalize_standalone_letters set_order text = Ok result.
Proof.
  unfold normalize_standalone_letters.
  rewrite sub_res_tech. cbn [bind].
  set (t := sub_with tech_pattern tech_repl_pure (protect_all set_order text)).
  destruct (@standalone_loop_ends (loop_fuel t) t)
    as (r & Hr & _).
  { unfold loop_fuel. pose proof (pending_le_length t). lia. }
  rewrite Hr. cbn [bind]. eauto.
Qed.

(** C9: the re-scanning loop of the standalone-letter detector ends for
    every text: run with the fuel of the model, or with any larger fuel, it
    stops at one and the same text, which a further pass leaves unchanged;
    and [normalize_standalone_letters] returns for every text. *)
Theorem standalone_loop_reaches_fixpoint :
  forall (set_order : list str) (text s : str),
    (exists r,
        (forall extra, standalone_loop (loop_fuel s + extra) s = Ok r) /\
        sub_res standalone_pattern replace_standalone r = Ok r) /\
    (exists result, normalize_standalone_letters set_order text = Ok result).
Proof.
  intros set_order text s. split.
  - destruct (@standalone_loop_ends (loop_fuel s) s)
      as (r & _ & Hfix & Hany).
    { unfold loop_fuel. pose proof (pending_le_length s). lia. }
    exists r. split.
    + intros extra. apply Hany. unfold loop_fuel.
      pose proof (pending_le_length s). lia.
    + rewrite sub_res_standalone. now rewrite Hfix.
  - apply normalize_standalone_letters_total.
Qed.

Lemma index_in_range (s : str) (i : nat) :
  i < length s -> exists c, index s i = Ok c.
Proof.
  intros H. unfold index.
  destruct (nth_error s i) eqn:E; eauto.
  apply nth_error_None in E. lia.
Qed.

Lemma format_blanks_step_total (acc : str) (i : nat) :
  exists r, format_blanks_step (Ok acc) i = Ok r.
Proof.
  unfold format_blanks_step. cbn [bind].
  destruct (i <? length labels) eqn:E; eauto.
  apply Nat.ltb_lt in E. destruct (@index_in_range labels _ E) as (c & ->).
  cbn [bind]. eauto.
Qed.

Lemma format_blanks_total (text : str) (n : Z) :
  exists r, format_blanks text n = Ok r.
Proof.
  unfold format_blanks.
  destruct (n =? 0)%Z; eauto. destruct (n =? 1)%Z; eauto.
  generalize (List.seq 0 (Z.to_nat n)). intros l. revert text.
  induction l as [|i l IH]; intros text; cbn [fold_left]; eauto.
  destruct (format_blanks_step_total text i) as (r & ->). apply IH.
Qed.

Lemma group_obj_set (r : regex) (s : str) (m : match_obj) (i : nat) :
  match_ r s = Some m -> assigns r i = true -> i <> 0 ->
  group_obj m i = Ok (group_or_empty m i).
Proof.
  unfold match_. intros H Ha Hi.
  destruct (match_here r true s) as [[n caps]|] eqn:E; [|discriminate].
  injection H as <-. apply match_here_sound in E.
  destruct E as (_ & _ & _ & Hset). specialize (Hset i Ha).
  unfold group_obj, group_or_empty, group. destruct i; [congruence|].
  cbn [groups]. destruct (lookup (S i) caps); congruence.
Qed.

Lemma parse_line_total (parts : list str) (line : str) :
  exists parts', parse_line parts line = Ok parts'.
Proof.
  unfold parse_line.
  destruct (Str.strip line) as [|c l] eqn:El; eauto.
  destruct (match_ line_circled (c :: l)) as [m|] eqn:E1.
  { rewrite (@group_obj_set _ _ _ 2 E1) by (first [reflexivity | discriminate]).
    cbn [bind]. eauto. }
  destruct (match_ line_num (c :: l)) as [m|] eqn:E2.
  { rewrite (@group_obj_set _ _ _ 2 E2) by (first [reflexivity | discriminate]).
    destruct (length parts <? length labels) eqn:E.
    - apply Nat.ltb_lt in E. destruct (@index_in_range labels _ E) as (x & ->).
      cbn [bind]. eauto.
    - cbn [bind]. eauto. }
  destruct (match_ line_letter (c :: l)) as [m|] eqn:E3.
  { rewrite (@group_obj_set _ _ _ 1 E3) by (first [reflexivity | discriminate]).
    rewrite (@group_obj_set _ _ _ 2 E3) by (first [reflexivity | discriminate]).
    cbn [bind]. eauto. }
  destruct (length parts <? length labels) eqn:E; eauto.
  apply Nat.ltb_lt in E. destruct (@index_in_range labels _ E) as (x & ->).
  cbn [bind]. eauto.
Qed.

Lemma parse_lines_total (lines : list str) :
  forall parts,
  exists parts',
    fold_left (fun parts line => parts <- parts ;; parse_line parts line)
      lines (Ok parts) = Ok parts'.
Proof.
  induction lines as [|line lines IH]; intros parts; cbn [fold_left]; eauto.
  cbn [bind]. destruct (parse_line_total parts line) as (p & ->). apply IH.
Qed.

Lemma format_answer_total (answer : str) (n : Z) :
  exists r, format_answer answer n = Ok r.
Proof.
  unfold format_answer.
  destruct (n =? 0)%Z; eauto. destruct (n =? 1)%Z; eauto.
  set (a := sub answer_prefix [] (Str.strip answer)).
  destruct (2 <=? length (Str.split 10%N (Str.strip a))).
  - destruct (parse_lines_total (Str.split 10%N (Str.strip a)) [])
      as (p & ->).
    cbn [bind]. destruct p; eauto.
  - destruct (findall pattern_circled a).
    + destruct (findall pattern_comma a).
      * destruct (protect_brackets _ [] a) as [p1 b1].
        destruct (protect_brackets _ b1 p1) as [p2 b2].
        cbn [bind].
        match goal with |- context [map ?f ?l] => destruct (map f l) end;
          eauto.
      * cbn [bind map]. eauto.
    + cbn [bind map]. eauto.
Qed.

(** C3: for every pair of input strings [format_question] returns: no
    stage raises, the loop ends, and the blank count of the result is not
    negative. *)
Theorem format_question_total :
  forall (set_order : list str) (question_text answer_text : str),
  exists out,
    format_question set_order question_text answer_text = Ok out /\
    (0 <= blank_count out)%Z.
Proof.
  intros set_order q a. unfold format_question, normalize_blanks.
  match goal with
  | |- context [normalize_standalone_letters set_order ?t] =>
      destruct (normalize_standalone_letters_total set_order t) as (nz & ->)
  end.
  cbn [bind].
  match goal with
  | |- context [format_blanks ?t ?n] =>
      destruct (format_blanks_total t n) as (f & ->)
  end.
  cbn [bind].
  match goal with
  | |- context [format_answer ?t ?n] =>
      destruct (format_answer_total t n) as (fa & ->)
  end.
  cbn [bind]. eexists. split; [reflexivity|].
  cbn [blank_count]. lia.
Qed.


(** * Worked inputs *)

(** A property of every iteration order of the set is checked order by
    order. *)
Ltac each_order :=
  apply Forall_forall; intros o Ho; vm_compute in Ho;
  repeat (destruct Ho as [<- | Ho]; [vm_compute | ]);
  try contradiction.

(** C7: [format_answer] on the answer [①赤血球 ②白血球] with two blanks
    returns the mark, entry [A. 赤血球], the double-wide separator and entry
    [B. 白血球]. *)
Theorem format_answer_circled_pair :
  format_answer (u "①赤血球 ②白血球") 2 = Ok (u "正解：A. 赤血球　　B. 白血球").
Proof. vm_compute. reflexivity. Qed.

(** C4, at the failing input: in [血液型は、A型である。] the letter of the
    protected term [A型] stands after a comma, is not protected by
    [tech_pattern] (which asks for a native-script character before the
    letter) and is turned into a marker by the standalone-letter loop. *)
Theorem protected_term_after_comma_is_converted :
  Forall (fun o =>
            normalize_blanks o (u "血液型は、A型である。")
            = Ok (u "血液型は、{{BLANK}}型である。"))
    set_orders.
Proof. each_order; reflexivity. Qed.

(** C1, at the failing input: two bracket blanks are detected in
    [答えは（）,（）である。], and the cleanup rule [,.] (a comma and any
    character) eats the first brace of the second marker, so the formatted
    question carries one labeled blank only. *)
Theorem comma_before_blank_loses_a_label :
  Forall (fun o =>
            format_question o (u "答えは（）,（）である。") (u "赤血球、白血球")
            = Ok {| question :=
                      INSTRUCTION ++ u "答えは（　　A　　）.{BLANK}}である。";
                    answer := u "正解：赤血球、白血球";
                    blank_count := 2 |})
    set_orders.
Proof. each_order; reflexivity. Qed.


(** * The stages of the orchestrator *)

(** The stages of [format_question] all return. *)
Lemma format_question_stages (set_order : list str)
  (question_text answer_text : str) :
  exists normalized formatted formatted_answer,
    let blank_count := Z.of_nat (Str.count MARKER normalized) in
    normalize_blanks set_order question_text = Ok normalized /\
    format_blanks (clean_text (convert_desu_masu normalized)) blank_count
    = Ok formatted /\
    format_answer answer_text blank_count = Ok formatted_answer /\
    format_question set_order question_text answer_text
    = Ok {| question :=
              if (0 <? blank_count)%Z then INSTRUCTION ++ formatted
              else formatted;
            answer := formatted_answer;
            blank_count := blank_count |}.
Proof.
  unfold format_question.
  destruct (normalize_standalone_letters_total set_order
              (fold_left (fun result pattern => sub pattern MARKER result)
                 BLANK_PATTERNS question_text)) as (nz & Hnz).
  assert (Hn : normalize_blanks set_order question_text = Ok nz) by exact Hnz.
  rewrite Hn. cbn [bind].
  destruct (format_blanks_total (clean_text (convert_desu_masu nz))
              (Z.of_nat (Str.count MARKER nz))) as (f & Hf).
  destruct (format_answer_total answer_text (Z.of_nat (Str.count MARKER nz)))
    as (fa & Hfa).
  exists nz, f, fa. cbv zeta. rewrite Hf, Hfa. cbn [bind]. auto.
Qed.

Lemma format_question_returns (set_order : list str)
  (question_text answer_text : str) :
  exists out,
    format_question set_order question_text answer_text = Ok out /\
    (0 <= blank_count out)%Z.
Proof.
  destruct (format_question_stages set_order question_text answer_text)
    as (nz & f & fa & _ & _ & _ & H).
  eexists. split; [exact H|]. cbn [blank_count]. lia.
Qed.



(** * [format_blanks] *)

Lemma strip_prefix_app (p s r : str) :
  Str.strip_prefix p s = Some r -> s = p ++ r.
Proof.
  revert s. induction p as [|a p IH]; intros s H; simpl in H.
  - now injection H as ->.
  - destruct s as [|b s]; [discriminate|].
    destruct (a =? b)%N eqn:E; [|discriminate].
    apply N.eqb_eq in E. subst b. simpl. f_equal. now apply IH.
Qed.

Lemma strip_prefix_refl (p r : str) : Str.strip_prefix p (p ++ r) = Some r.
Proof.
  induction p as [|a p IH]; simpl; auto. now rewrite N.eqb_refl.
Qed.

(** A prefix test on [b ++ z] is decided inside [b], or runs into [z]
    with what is left of the prefix. *)
Lemma strip_prefix_split (p b z r : str) :
  Str.strip_prefix p (b ++ z) = Some r ->
  (exists r', Str.strip_prefix p b = Some r') \/
  (length b < length p /\
   Str.strip_prefix (skipn (length b) p) z = Some r).
Proof.
  revert b. induction p as [|a p IH]; intros b H.
  - left. simpl. eauto.
  - destruct b as [|c b].
    + right. simpl in *. split; [lia|exact H].
    + simpl in H. destruct (a =? c)%N eqn:E; [|discriminate].
      apply IH in H. destruct H as [(r' & H)|(Hl & H)].
      * left. simpl. rewrite E. eauto.
      * right. simpl. split; [lia|exact H].
Qed.

Lemma marker_free_tail (c : char) (b : str) :
  marker_free (c :: b) -> marker_free b.
Proof.
  unfold marker_free. intros H. cbn [occurs] in H.
  destruct (Str.strip_prefix MARKER (c :: b)); [discriminate|exact H].
Qed.

Lemma marker_free_head (b : str) :
  marker_free b -> Str.strip_prefix MARKER b = None.
Proof.
  unfold marker_free. intros H. destruct b; cbn [occurs] in H.
  - reflexivity.
  - destruct (Str.strip_prefix MARKER (c :: b)); [discriminate|reflexivity].
Qed.

(** The marker does not begin inside a marker-free piece when what
    follows the piece cannot complete it. *)
Lemma no_marker_at (b z : str) :
  marker_free b -> b <> [] -> no_straddle z ->
  Str.strip_prefix MARKER (b ++ z) = None.
Proof.
  intros Hb Hne Hz.
  destruct (Str.strip_prefix MARKER (b ++ z)) as [r|] eqn:E; auto.
  apply strip_prefix_split in E. destruct E as [(r' & E)|(Hl & E)].
  - rewrite (marker_free_head Hb) in E. discriminate.
  - rewrite Hz in E; [discriminate|].
    change (length MARKER) with 9 in Hl.
    destruct b; [congruence|simpl in *; lia].
Qed.

Lemma replace_copy (new : str) (c : char) (s : str) :
  Str.strip_prefix MARKER (c :: s) = None ->
  Str.replace_n MARKER new 1 (c :: s) = c :: Str.replace_n MARKER new 1 s.
Proof.
  intros H. unfold Str.replace_n. cbn [Str.replace_from]. now rewrite H.
Qed.

Lemma replace_free_prefix (new : str) (b z : str) :
  marker_free b -> no_straddle z ->
  Str.replace_n MARKER new 1 (b ++ z) = b ++ Str.replace_n MARKER new 1 z.
Proof.
  intros Hb Hz. induction b as [|c b IH]; auto.
  change ((c :: b) ++ z) with (c :: (b ++ z)).
  rewrite replace_copy.
  - cbn [app]. f_equal. apply IH. eapply marker_free_tail; eauto.
  - change (c :: (b ++ z)) with ((c :: b) ++ z).
    apply no_marker_at; auto. discriminate.
Qed.

Lemma no_straddle_nil : no_straddle [].
Proof.
  intros j Hj.
  destruct j as [|[|[|[|[|[|[|[|[|j]]]]]]]]]; try lia; reflexivity.
Qed.

Lemma no_straddle_marker (a : str) : no_straddle (MARKER ++ a).
Proof.
  intros j Hj.
  destruct j as [|[|[|[|[|[|[|[|[|j]]]]]]]]]; try lia; reflexivity.
Qed.

Lemma no_straddle_label (l : char) (t : str) :
  no_straddle (labeled_blank l ++ t).
Proof.
  intros j Hj.
  destruct j as [|[|[|[|[|[|[|[|[|j]]]]]]]]]; try lia; reflexivity.
Qed.

Lemma replace_limit_reached (old new : str) :
  forall s k, k <= length s ->
    Str.replace_from old new (Some 0) s k = skipn k s.
Proof.
  induction s as [|c s IH]; intros k Hk.
  - destruct k; reflexivity.
  - destruct k as [|k]; [reflexivity|].
    simpl in *. apply IH. lia.
Qed.

(** The first marker of the text is the one after a marker-free piece. *)
Lemma replace_first (new b a : str) :
  marker_free b ->
  Str.replace_n MARKER new 1 (b ++ MARKER ++ a) = b ++ new ++ a.
Proof.
  intros Hb. rewrite replace_free_prefix by auto using no_straddle_marker.
  f_equal. unfold Str.replace_n.
  change (MARKER ++ a) with (ch "{" :: (skipn 1 MARKER ++ a)).
  cbn [Str.replace_from].
  change (ch "{" :: (skipn 1 MARKER ++ a)) with (MARKER ++ a).
  rewrite strip_prefix_refl. f_equal.
  change (Nat.pred (length MARKER)) with 8.
  change (option_map Nat.pred (Some 1)) with (Some 0).
  rewrite replace_limit_reached by (rewrite length_app; simpl; lia).
  reflexivity.
Qed.

Lemma replace_none (new b : str) :
  marker_free b -> Str.replace_n MARKER new 1 b = b.
Proof.
  intros Hb. rewrite <- (app_nil_r b) at 1.
  rewrite replace_free_prefix by auto using no_straddle_nil.
  now rewrite app_nil_r.
Qed.

Lemma marker_not_at (c : char) (s : str) :
  c <> ch "{" -> Str.strip_prefix MARKER (c :: s) = None.
Proof.
  intros H. change MARKER with (ch "{" :: skipn 1 MARKER).
  cbn [Str.strip_prefix].
  destruct (ch "{" =? c)%N eqn:E; auto. apply N.eqb_eq in E. congruence.
Qed.

Lemma replace_label (new : str) (l : char) (t : str) :
  Str.replace_n MARKER new 1 (labeled_blank l ++ t)
  = labeled_blank l ++ Str.replace_n MARKER new 1 t.
Proof.
  change (labeled_blank l ++ t)
    with (ch "（" :: ch "　" :: ch "　" :: l :: ch "　" :: ch "　" ::
          ch "）" :: t).
  rewrite !replace_copy; try (apply marker_not_at; discriminate).
  - reflexivity.
  - change MARKER with (ch "{" :: ch "{" :: skipn 2 MARKER).
    cbn [Str.strip_prefix].
    destruct (ch "{" =? l)%N; reflexivity.
Qed.

Lemma dead_nil : dead [].
Proof. intros new t. reflexivity. Qed.

Lemma dead_app (x y : str) : dead x -> dead y -> dead (x ++ y).
Proof.
  intros Hx Hy new t. rewrite <- !app_assoc. now rewrite Hx, Hy.
Qed.

Lemma dead_piece_label (s : str) (l : char) :
  marker_free s -> dead (s ++ labeled_blank l).
Proof.
  intros Hs new t. rewrite <- !app_assoc.
  rewrite replace_free_prefix by auto using no_straddle_label.
  now rewrite replace_label.
Qed.

Lemma fill_nil (segs : list str) : fill [] segs = Str.join MARKER segs.
Proof.
  induction segs as [|s [|s2 rest] IH]; auto.
  change (fill [] (s :: s2 :: rest)) with (s ++ MARKER ++ fill [] (s2 :: rest)).
  now rewrite IH.
Qed.

(** Replacing the first marker once for each label, from the left, fills
    the pieces. *)
Lemma replace_rounds (ls : str) :
  forall segs pre,
    Forall marker_free segs -> dead pre ->
    fold_left (fun acc l => Str.replace_n MARKER (labeled_blank l) 1 acc)
      ls (pre ++ Str.join MARKER segs)
    = pre ++ fill ls segs.
Proof.
  induction ls as [|l ls IH]; intros segs pre Hsegs Hpre.
  - cbn [fold_left]. now rewrite fill_nil.
  - cbn [fold_left]. rewrite Hpre.
    destruct segs as [|s [|s2 rest]].
    + cbn [Str.join fill]. change (Str.replace_n MARKER (labeled_blank l) 1 [])
        with (@nil char).
      apply (@IH [] pre); auto.
    + cbn [Str.join fill]. inversion Hsegs; subst.
      rewrite replace_none by auto.
      apply (@IH [s] pre); auto.
    + change (Str.join MARKER (s :: s2 :: rest))
        with (s ++ MARKER ++ Str.join MARKER (s2 :: rest)).
      inversion Hsegs; subst.
      rewrite replace_first by auto.
      change (fill (l :: ls) (s :: s2 :: rest))
        with (s ++ labeled_blank l ++ fill ls (s2 :: rest)).
      rewrite !app_assoc. rewrite <- (app_assoc pre).
      apply IH; auto.
      apply dead_app; auto. now apply dead_piece_label.
Qed.

Lemma skipn_nth_error (A : Type) (l : list A) (i : nat) (x : A) :
  nth_error l i = Some x -> skipn i l = x :: skipn (S i) l.
Proof.
  revert i. induction l as [|a l IH]; intros [|i] H; simpl in *;
    try discriminate.
  - now injection H as ->.
  - now apply IH.
Qed.

(** The loop over [range(blank_count)] uses the labels in order. *)
Lemma labels_loop (ls : str) (n : nat) :
  forall start acc,
    fold_left
      (fun result i =>
         result <- result ;;
         if i <? length ls then
           label <- index ls i ;;
           Ok (Str.replace_n MARKER (labeled_blank label) 1 result)
         else Ok result)
      (List.seq start n) (Ok acc)
    = Ok (fold_left
            (fun acc l => Str.replace_n MARKER (labeled_blank l) 1 acc)
            (firstn n (skipn start ls)) acc).
Proof.
  induction n as [|n IH]; intros start acc.
  - reflexivity.
  - cbn [List.seq fold_left bind].
    destruct (start <? length ls) eqn:E.
    + apply Nat.ltb_lt in E. unfold index.
      destruct (nth_error ls start) as [l|] eqn:El.
      * cbn [bind]. rewrite (skipn_nth_error _ _ El). cbn [firstn fold_left].
        apply IH.
      * apply nth_error_None in El. lia.
    + apply Nat.ltb_ge in E.
      rewrite IH. rewrite !skipn_all2 by lia.
      rewrite !firstn_nil. reflexivity.
Qed.

Lemma format_blanks_loop (n : nat) :
  forall start acc,
    fold_left format_blanks_step (List.seq start n) (Ok acc)
    = Ok (fold_left
            (fun acc l => Str.replace_n MARKER (labeled_blank l) 1 acc)
            (firstn n (skipn start labels)) acc).
Proof. exact (labels_loop labels n). Qed.

(** [format_blanks] with two or more blanks, on a text given by its
    pieces. *)
Lemma format_blanks_fill (segs : list str) (n : Z) :
  Forall marker_free segs -> (2 <= n)%Z ->
  format_blanks (Str.join MARKER segs) n
  = Ok (fill (firstn (Z.to_nat n) labels) segs).
Proof.
  intros Hsegs Hn. unfold format_blanks.
  destruct (n =? 0)%Z eqn:E0; [lia|]. destruct (n =? 1)%Z eqn:E1; [lia|].
  rewrite format_blanks_loop. cbn [skipn]. f_equal.
  apply (@replace_rounds _ segs []); auto using dead_nil.
Qed.

Lemma fill_labeled (ls : str) :
  forall front back,
    length front = length ls -> back <> [] ->
    fill ls (front ++ back) = labeled ls front ++ Str.join MARKER back.
Proof.
  induction ls as [|l ls IH]; intros front back Hlen Hback.
  - destruct front; [|discriminate]. cbn [app labeled]. apply fill_nil.
  - destruct front as [|s front]; [discriminate|].
    cbn [labeled]. rewrite <- !app_assoc.
    rewrite <- IH by (simpl in Hlen; auto; lia).
    cbn [app]. destruct (front ++ back) eqn:E.
    + apply app_eq_nil in E. destruct E. contradiction.
    + reflexivity.
Qed.

Lemma strip_prefix_app_l (p x y r : str) :
  Str.strip_prefix p x = Some r -> Str.strip_prefix p (x ++ y) = Some (r ++ y).
Proof.
  intros H. apply strip_prefix_app in H. subst x.
  rewrite <- app_assoc. apply strip_prefix_refl.
Qed.

Lemma marker_free_nil : marker_free [].
Proof. reflexivity. Qed.

(** [find] cuts the text at a marker and leaves no marker before it. *)
Lemma find_some (s : str) :
  forall b a, find MARKER s = Some (b, a) ->
              s = b ++ MARKER ++ a /\ marker_free b.
Proof.
  induction s as [|c s IH]; intros b a H.
  - discriminate.
  - cbn [find] in H.
    destruct (Str.strip_prefix MARKER (c :: s)) as [r|] eqn:E.
    + injection H as <- <-. apply strip_prefix_app in E.
      split; [exact E|apply marker_free_nil].
    + destruct (find MARKER s) as [[b' a']|] eqn:F; [|discriminate].
      injection H as <- <-. destruct (IH b' a' eq_refl) as [-> Hb'].
      split; [reflexivity|].
      unfold marker_free. cbn [occurs].
      destruct (Str.strip_prefix MARKER (c :: b')) as [r|] eqn:E'; auto.
      apply (strip_prefix_app_l _ _ (MARKER ++ a')) in E'.
      cbn [app] in E'. congruence.
Qed.

Lemma find_none (s : str) : find MARKER s = None -> marker_free s.
Proof.
  induction s as [|c s IH]; intros H.
  - reflexivity.
  - cbn [find] in H. unfold marker_free. cbn [occurs].
    destruct (Str.strip_prefix MARKER (c :: s)); [discriminate|].
    apply IH. destruct (find MARKER s) as [[? ?]|]; [discriminate|reflexivity].
Qed.

(** Every text is its marker-free pieces joined by the marker. *)
Lemma pieces_spec (fuel : nat) :
  forall s, length s <= fuel ->
            Str.join MARKER (pieces fuel s) = s /\
            Forall marker_free (pieces fuel s) /\ pieces fuel s <> [].
Proof.
  induction fuel as [|fuel IH]; intros s Hs.
  - destruct s; [|simpl in Hs; lia].
    cbn [pieces Str.join]. repeat split; auto using marker_free_nil.
    discriminate.
  - cbn [pieces]. destruct (find MARKER s) as [[b a]|] eqn:F.
    + destruct (find_some _ F) as [-> Hb].
      destruct (IH a) as (Hj & Hf & Hne).
      { rewrite !length_app in Hs. change (length MARKER) with 9 in Hs. lia. }
      repeat split; auto; [|discriminate].
      destruct (pieces fuel a) as [|p ps] eqn:E; [congruence|].
      change (Str.join MARKER (b :: p :: ps))
        with (b ++ MARKER ++ Str.join MARKER (p :: ps)).
      now rewrite Hj.
    + cbn [Str.join]. repeat split; auto; [|discriminate].
      constructor; auto. now apply find_none.
Qed.

(** X3: with a blank count above 26 [format_blanks] fills the pieces of
    the text with the labels A to Z in order: the markers up to the 26th are
    replaced by the labeled blanks, and the text after the 26th marker,
    with every later marker in it, is returned as it is. *)
Theorem format_blanks_beyond_Z :
  forall (text : str) (n : Z),
    (26 < n)%Z ->
    let segs := pieces (length text) text in
    Str.join MARKER segs = text /\
    Forall marker_free segs /\
    format_blanks text n = Ok (fill labels segs) /\
    forall front back,
      segs = front ++ back -> length front = 26 -> back <> [] ->
      fill labels segs = labeled labels front ++ Str.join MARKER back.
Proof.
  intros text n Hn segs.
  destruct (@pieces_spec (length text) text (le_n _)) as (Hj & Hf & Hne).
  fold segs in Hj, Hf, Hne.
  repeat split; auto.
  - rewrite <- Hj at 1. rewrite format_blanks_fill by (auto; lia).
    rewrite firstn_all2; [reflexivity|].
    change (length labels) with 26. lia.
  - intros front back -> Hlen Hback. now apply fill_labeled.
Qed.

Lemma format_blanks_beyond_Z_witness :
  let text := Str.join MARKER (repeat (u "x") 29) in
  (26 < 30)%Z /\
  format_blanks text 30
  = Ok (labeled labels (repeat (u "x") 26) ++
        u "x{{BLANK}}x{{BLANK}}x").
Proof.
  split; [lia|].
  destruct (@format_blanks_beyond_Z (Str.join MARKER (repeat (u "x") 29)) 30)
    as (_ & _ & H & _); [lia|].
  rewrite H. vm_compute. reflexivity.
Defined.


(** * Literal patterns *)

Lemma strip_prefix_length (p s r : str) :
  Str.strip_prefix p s = Some r -> length s = length p + length r.
Proof.
  intros H. apply strip_prefix_app in H. subst s. apply length_app.
Qed.

(** Matching a literal is a prefix test. *)
Lemma rmatch_lit (R : Type) (p : str) :
  forall bos s caps (k : bool -> str -> captures -> option R),
    rmatch (lit p) bos s caps k =
    match Str.strip_prefix p s with
    | Some rest => k (bos && is_nil p) rest caps
    | None => None
    end.
Proof.
  induction p as [|a p IH]; intros bos s caps k.
  - cbn [lit rmatch Str.strip_prefix is_nil]. now rewrite andb_true_r.
  - assert (Hstep :
      rmatch (Seq (chr a) (lit p)) bos s caps k =
      match Str.strip_prefix (a :: p) s with
      | Some rest => k false rest caps
      | None => None
      end).
    { cbn [rmatch chr]. destruct s as [|c s]; [reflexivity|].
      cbn [Str.strip_prefix]. unfold in_cls, Str.in_ranges.
      cbn [existsb fst snd xorb orb].
      rewrite orb_false_r.
      destruct (a =? c)%N eqn:E.
      - apply N.eqb_eq in E. subst c. rewrite N.leb_refl. cbn [andb].
        rewrite IH. destruct (Str.strip_prefix p s); auto.
      - replace ((a <=? c)%N && (c <=? a)%N) with false; auto.
        symmetry. apply andb_false_iff.
        apply N.eqb_neq in E.
        destruct (N.leb_spec a c), (N.leb_spec c a); auto. lia. }
    cbn [is_nil]. rewrite andb_false_r.
    destruct p as [|b p]; [|exact Hstep].
    rewrite <- Hstep. cbn [lit rmatch chr].
    destruct s as [|c s]; [reflexivity|].
    destruct (in_cls false [(a, a)] c); reflexivity.
Qed.

Lemma match_here_lit (p : str) (bos : bool) (s : str) :
  match_here (lit p) bos s =
  match Str.strip_prefix p s with
  | Some _ => Some (length p, [])
  | None => None
  end.
Proof.
  unfold match_here. rewrite rmatch_lit.
  destruct (Str.strip_prefix p s) as [r|] eqn:E; auto.
  rewrite (strip_prefix_length _ _ E). do 2 f_equal. lia.
Qed.

(** A literal followed by an optional class. *)
Lemma match_here_lit_opt (p : str) (cls : list (char * char)) (bos : bool)
  (s : str) :
  match_here (Seq (lit p) (opt cls)) bos s =
  match Str.strip_prefix p s with
  | Some (c :: _) =>
      if in_cls false cls c then Some (S (length p), [])
      else Some (length p, [])
  | Some [] => Some (length p, [])
  | None => None
  end.
Proof.
  unfold match_here. cbn [rmatch]. rewrite rmatch_lit.
  destruct (Str.strip_prefix p s) as [r|] eqn:E; auto.
  pose proof (strip_prefix_length _ _ E) as Hl.
  unfold opt. cbn [rmatch].
  destruct r as [|c r].
  - cbn [rep]. do 2 f_equal. rewrite Hl. cbn [length]. lia.
  - cbn [rep more_allowed andb option_map Nat.pred].
    destruct (in_cls false cls c).
    + destruct r; cbn [rep more_allowed andb]; do 2 f_equal;
        rewrite Hl; cbn [length]; lia.
    + do 2 f_equal. rewrite Hl. cbn [length]. lia.
Qed.

Lemma occurs_suffix (p x z : str) :
  occurs p (x ++ z) = false -> occurs p z = false.
Proof.
  induction x as [|c x IH]; auto. cbn [app occurs].
  destruct (Str.strip_prefix p (c :: x ++ z)); [discriminate|exact IH].
Qed.

Lemma occurs_head (p z : str) :
  occurs p z = false -> Str.strip_prefix p z = None.
Proof.
  destruct z; cbn [occurs];
    destruct (Str.strip_prefix p _); auto; discriminate.
Qed.

Lemma lit_stable_spec (p z : str) :
  lit_stable p z = true ->
  p <> [] /\
  forall j, 1 <= j < length p -> Str.strip_prefix (skipn j p) z = None.
Proof.
  unfold lit_stable. intros H.
  apply andb_true_iff in H. destruct H as [H1 H3].
  split.
  - destruct p; [discriminate|discriminate].
  - intros j Hj. rewrite forallb_forall in H3.
    specialize (H3 j). rewrite in_seq in H3.
    destruct (Str.strip_prefix (skipn j p) z); auto.
    assert (is_none (Some s) = true) by (apply H3; lia). discriminate.
Qed.

(** Before a stable tail a prefix test gives what it gives without the
    tail. *)
Lemma strip_prefix_stable (p z s : str) :
  lit_stable p z = true -> s <> [] ->
  Str.strip_prefix p (s ++ z)
  = option_map (fun r => r ++ z) (Str.strip_prefix p s).
Proof.
  intros H Hs. apply lit_stable_spec in H. destruct H as (Hp & Hcross).
  destruct (Str.strip_prefix p s) as [r|] eqn:E.
  - cbn [option_map]. now apply strip_prefix_app_l.
  - cbn [option_map].
    destruct (Str.strip_prefix p (s ++ z)) as [r|] eqn:E'; auto.
    apply strip_prefix_split in E'. destruct E' as [(r' & E')|(Hl & E')].
    + congruence.
    + rewrite Hcross in E'; [discriminate|].
      destruct s; [congruence|simpl in *; lia].
Qed.

Lemma match_here_lit_stable (p z s : str) (bos : bool) :
  lit_stable p z = true -> s <> [] ->
  match_here (lit p) bos (s ++ z) = match_here (lit p) bos s.
Proof.
  intros H Hs. rewrite !match_here_lit, strip_prefix_stable by auto.
  destruct (Str.strip_prefix p s); reflexivity.
Qed.

Lemma match_here_lit_opt_stable (p : str) (cls : list (char * char))
  (z s : str) (bos : bool) :
  lit_stable p z = true -> opt_stable cls z = true -> s <> [] ->
  match_here (Seq (lit p) (opt cls)) bos (s ++ z)
  = match_here (Seq (lit p) (opt cls)) bos s.
Proof.
  intros H Ho Hs. rewrite !match_here_lit_opt, strip_prefix_stable by auto.
  destruct (Str.strip_prefix p s) as [[|c r]|]; cbn [option_map app]; auto.
  destruct z as [|c z]; auto.
  cbn [opt_stable] in Ho. apply negb_true_iff in Ho. now rewrite Ho.
Qed.

(** A scan that finds no match copies the text. *)
Lemma sub_from_no_match (r : regex) (repl : match_obj -> str) (z : str) :
  (forall x y bos, z = x ++ y -> match_here r bos y = None) ->
  forall bos, sub_from r repl bos z 0 = z.
Proof.
  induction z as [|c z IH]; intros H bos.
  - cbn [sub_from]. now rewrite (H [] [] bos eq_refl).
  - cbn [sub_from]. rewrite (H [] (c :: z) bos eq_refl). f_equal.
    apply IH. intros x y b ->. apply (H (c :: x) y b). reflexivity.
Qed.

(** Appending a tail [z] that no match reaches: the text before it is
    rewritten as without the tail, and the tail as on its own. *)
Lemma sub_from_app (r : regex) (repl : match_obj -> str) (z z' : str) :
  (forall bos s, s <> [] -> match_here r bos (s ++ z) = match_here r bos s) ->
  (forall bos, sub_from r repl bos z 0 = z') ->
  1 <= min_len r ->
  forall s bos,
    sub_from r repl bos (s ++ z) 0 = sub_from r repl bos s 0 ++ z'.
Proof.
  intros Hstable Hz Hmin s.
  remember (length s) as n eqn:Hn. revert s Hn.
  induction n as [n IH] using lt_wf_ind. intros s Hn bos.
  destruct s as [|c s].
  - cbn [app]. rewrite Hz. cbn [sub_from].
    destruct (match_here r bos []) as [[k caps]|] eqn:E; auto.
    apply match_here_sound in E. simpl in E. lia.
  - rewrite (sub_from_step r repl bos ((c :: s) ++ z)).
    rewrite (sub_from_step r repl bos (c :: s)).
    rewrite Hstable by discriminate.
    destruct (match_here r bos (c :: s)) as [[k caps]|] eqn:E.
    + pose proof (match_here_sound _ _ _ E) as (Hk & Hk' & _).
      destruct k as [|k]; [lia|].
      rewrite firstn_app.
      replace (S k - length (c :: s)) with 0 by lia.
      rewrite firstn_O, app_nil_r.
      rewrite skipn_app.
      replace (S k - length (c :: s)) with 0 by lia.
      cbn [skipn]. change (skipn k s ++ z) with (skipn (S k) (c :: s) ++ z).
      rewrite (IH (length (skipn (S k) (c :: s)))); auto.
      * now rewrite <- app_assoc.
      * rewrite length_skipn. simpl in *. lia.
    + cbn [app]. f_equal. apply (IH (length s)); auto. simpl in Hn. lia.
Qed.


(** * [convert_desu_masu] *)

Lemma min_len_lit (p : str) : min_len (lit p) = length p.
Proof.
  induction p as [|a [|b p] IH]; auto.
  change (lit (a :: b :: p)) with (Seq (chr a) (lit (b :: p))).
  cbn [min_len chr]. rewrite IH. reflexivity.
Qed.

Lemma no_match_in_tail (p z : str) :
  occurs p z = false ->
  forall x y, z = x ++ y -> Str.strip_prefix p y = None.
Proof.
  intros H x y ->. apply occurs_head. eapply occurs_suffix; eauto.
Qed.

(** A literal rule leaves alone a tail that none of its matches reaches. *)
Lemma sub_lit_tail (p repl z : str) :
  lit_stable p z = true -> occurs p z = false ->
  forall s, sub (lit p) repl (s ++ z) = sub (lit p) repl s ++ z.
Proof.
  intros Hst Hocc s. unfold sub, sub_with. apply sub_from_app.
  - intros bos t Ht. now apply match_here_lit_stable.
  - intros bos. apply sub_from_no_match. intros x y b Hxy.
    rewrite match_here_lit, (@no_match_in_tail _ _ Hocc x y Hxy). reflexivity.
  - rewrite min_len_lit. apply lit_stable_spec in Hst.
    destruct Hst as [Hp _]. destruct p; [congruence|simpl; lia].
Qed.

Lemma sub_lit_opt_tail (p : str) (cls : list (char * char)) (repl z : str) :
  lit_stable p z = true -> opt_stable cls z = true -> occurs p z = false ->
  forall s,
    sub (Seq (lit p) (opt cls)) repl (s ++ z)
    = sub (Seq (lit p) (opt cls)) repl s ++ z.
Proof.
  intros Hst Ho Hocc s. unfold sub, sub_with. apply sub_from_app.
  - intros bos t Ht. now apply match_here_lit_opt_stable.
  - intros bos. apply sub_from_no_match. intros x y b Hxy.
    rewrite match_here_lit_opt, (@no_match_in_tail _ _ Hocc x y Hxy).
    reflexivity.
  - cbn [min_len]. rewrite min_len_lit. apply lit_stable_spec in Hst.
    destruct Hst as [Hp _]. destruct p; [congruence|simpl; lia].
Qed.

Lemma apply_table_tail (table : list (regex * str)) (z : str) :
  Forall (fun rule =>
            forall s, sub (fst rule) (snd rule) (s ++ z)
                      = sub (fst rule) (snd rule) s ++ z) table ->
  forall s, apply_table table (s ++ z) = apply_table table s ++ z.
Proof.
  unfold apply_table. induction 1 as [|rule table Hr _ IH]; intros s.
  - reflexivity.
  - cbn [fold_left]. rewrite Hr. apply IH.
Qed.

Lemma question_end_rules_tail :
  Forall (fun rule =>
            forall s, sub (fst rule) (snd rule) (s ++ u "はなにか。")
                      = sub (fst rule) (snd rule) s ++ u "はなにか。")
    QUESTION_END_PATTERNS.
Proof.
  unfold QUESTION_END_PATTERNS. cbn [map].
  repeat constructor; cbn [fst snd]; unfold question_end;
    apply sub_lit_opt_tail; vm_compute; reflexivity.
Qed.

Lemma desu_masu_rules_tail :
  Forall (fun rule =>
            forall s, sub (fst rule) (snd rule) (s ++ u "はなにか。")
                      = sub (fst rule) (snd rule) s ++ u "はなにか。")
    DESU_MASU_PATTERNS.
Proof.
  unfold DESU_MASU_PATTERNS. cbn [map].
  repeat constructor; cbn [fst snd];
    apply sub_lit_tail; vm_compute; reflexivity.
Qed.

(** The first rule of the ending table rewrites the ending. *)
Lemma first_rule_rewrites_ending (s : str) :
  sub (question_end "は何でしょうか") (u "はなにか。")
    (s ++ u "は何でしょうか。")
  = sub (question_end "は何でしょうか") (u "はなにか。") s ++ u "はなにか。".
Proof.
  unfold sub, sub_with, question_end. apply sub_from_app.
  - intros bos t Ht.
    apply match_here_lit_opt_stable; auto; vm_compute; reflexivity.
  - intros [|]; vm_compute; reflexivity.
  - vm_compute. lia.
Qed.

(** X4: for every text that ends in [は何でしょうか。] the register
    converter returns the conversion of the text before the ending followed
    by exactly [はなにか。]: the ending is rewritten by the first rule of
    the question-ending table, and no later rule, the politeness rule for
    [でしょうか] among them, touches it. *)
Theorem question_ending_unified :
  forall s : str,
    convert_desu_masu (s ++ u "は何でしょうか。")
    = convert_desu_masu s ++ u "はなにか。".
Proof.
  intros s. unfold convert_desu_masu.
  assert (Hq : apply_table QUESTION_END_PATTERNS (s ++ u "は何でしょうか。")
               = apply_table QUESTION_END_PATTERNS s ++ u "はなにか。").
  { pose proof question_end_rules_tail as H.
    unfold QUESTION_END_PATTERNS in *. cbn [map] in *.
    inversion H as [|rule table _ Hrest]; subst.
    unfold apply_table at 1 2. cbn [fold_left fst snd].
    rewrite first_rule_rewrites_ending.
    apply (@apply_table_tail _ _ Hrest). }
  rewrite Hq. apply (@apply_table_tail _ _ desu_masu_rules_tail).
Qed.


(** * The marker count through the register converter *)

Lemma count_from_skip (old x rest : str) :
  Str.count_from old (x ++ rest) (length x) = Str.count_from old rest 0.
Proof.
  induction x as [|a x IH]; auto.
Qed.

(** [count] at a position where the previous occurrence has ended. *)
Lemma count_cons (c : char) (s : str) :
  Str.count MARKER (c :: s) =
  match Str.strip_prefix MARKER (c :: s) with
  | Some rest => S (Str.count MARKER rest)
  | None => Str.count MARKER s
  end.
Proof.
  unfold Str.count. cbn [Str.count_from].
  destruct (Str.strip_prefix MARKER (c :: s)) as [rest|] eqn:E; auto.
  f_equal. apply strip_prefix_app in E.
  change MARKER with (ch "{" :: skipn 1 MARKER) in E.
  injection E as _ ->.
  apply (count_from_skip MARKER (skipn 1 MARKER) rest).
Qed.

Lemma marker_head_is_marker_char (c : char) (s r : str) :
  Str.strip_prefix MARKER (c :: s) = Some r -> marker_char c = true.
Proof.
  intros H. apply strip_prefix_app in H.
  change MARKER with (ch "{" :: skipn 1 MARKER) in H.
  injection H as -> _. reflexivity.
Qed.

Lemma count_skip_foreign (x s : str) :
  Forall (fun c => marker_char c = false) x ->
  Str.count MARKER (x ++ s) = Str.count MARKER s.
Proof.
  induction 1 as [|c x Hc _ IH]; auto.
  cbn [app]. rewrite count_cons.
  destruct (Str.strip_prefix MARKER (c :: x ++ s)) eqn:E; auto.
  apply marker_head_is_marker_char in E. congruence.
Qed.

Lemma sim_sym (s t : str) : sim s t -> sim t s.
Proof. induction 1; constructor; auto. Qed.

Lemma sim_refl (s : str) : sim s s.
Proof. induction s; constructor; auto. Qed.

(** Texts with the same markers have the same prefixes made of marker
    characters. *)
Lemma sim_strip_prefix (p : str) :
  Forall (fun c => marker_char c = true) p ->
  forall s t s1,
    sim s t -> Str.strip_prefix p s = Some s1 ->
    exists t1, Str.strip_prefix p t = Some t1 /\ sim s1 t1.
Proof.
  induction 1 as [|a p Ha _ IH]; intros s t s1 Hsim H.
  - cbn [Str.strip_prefix] in *. injection H as <-. eauto.
  - destruct s as [|c s]; [discriminate|].
    cbn [Str.strip_prefix] in H.
    destruct (a =? c)%N eqn:E; [|discriminate].
    apply N.eqb_eq in E. subst c.
    inversion Hsim as [|c s' t' Hs'|x y s' t' Hx Hy Fx Fy Hs' Hxs]; subst.
    + cbn [Str.strip_prefix]. rewrite N.eqb_refl. eapply IH; eauto.
    + destruct x as [|c x]; [congruence|].
      injection Hxs as -> _. inversion Fx; subst. congruence.
Qed.

Lemma marker_chars_marker :
  Forall (fun c => marker_char c = true) MARKER.
Proof. repeat constructor. Qed.

Lemma sim_nil_l (t : str) : sim [] t -> t = [].
Proof.
  intros H. remember (@nil char) as s eqn:Hs.
  destruct H as [|c s t H|x y s t Hx Hy Fx Fy H]; auto; try discriminate.
  destruct x; [congruence|discriminate].
Qed.

Lemma sim_count (n : nat) :
  forall s t, length s <= n -> sim s t ->
              Str.count MARKER s = Str.count MARKER t.
Proof.
  induction n as [|n IH]; intros s t Hn Hsim.
  - destruct s; [|simpl in Hn; lia].
    now rewrite (sim_nil_l Hsim).
  - inversion Hsim as [|c s' t' Hs'|x y s' t' Hx Hy Fx Fy Hs' Hxs]; subst.
    + reflexivity.
    + rewrite !count_cons.
      destruct (Str.strip_prefix MARKER (c :: s')) as [r|] eqn:E.
      * destruct (sim_strip_prefix marker_chars_marker Hsim E)
          as (t1 & -> & Hr).
        f_equal. apply IH; auto.
        apply strip_prefix_length in E.
        change (length MARKER) with 9 in E. simpl in *. lia.
      * destruct (Str.strip_prefix MARKER (c :: t')) as [r|] eqn:E'.
        -- destruct (sim_strip_prefix marker_chars_marker (sim_sym Hsim) E')
             as (t1 & E1 & _). congruence.
        -- apply IH; auto. simpl in Hn. lia.
    + rewrite !count_skip_foreign by auto. apply IH; auto.
      rewrite length_app in Hn. destruct x; [congruence|simpl in *; lia].
Qed.

Lemma foreign_of_alphabet (r : regex) (m : str) :
  forallb (fun c => negb (alphabet r c)) MARKER = true ->
  Forall (fun c => alphabet r c = true) m ->
  Forall (fun c => marker_char c = false) m.
Proof.
  intros Hav Hm. eapply Forall_impl; [|exact Hm].
  intros c Hc. cbv beta in Hc. unfold marker_char.
  destruct (existsb (N.eqb c) MARKER) eqn:E; auto.
  apply existsb_exists in E. destruct E as (d & Hd & Hcd).
  apply N.eqb_eq in Hcd. subst d.
  rewrite forallb_forall in Hav. specialize (Hav c Hd).
  rewrite Hc in Hav. discriminate.
Qed.

(** A rule whose matches and replacement are foreign to the marker
    returns a text with the same markers. *)
Lemma sub_sim (rule : regex * str) :
  rule_keeps_markers rule = true ->
  forall s bos, sim (sub_from (fst rule) (fun _ => snd rule) bos s 0) s.
Proof.
  unfold rule_keeps_markers. destruct rule as [r repl]. cbn [fst snd].
  intros H.
  apply andb_true_iff in H. destruct H as [H Hrepl].
  apply andb_true_iff in H. destruct H as [H Hne].
  apply andb_true_iff in H. destruct H as [Hav Hmin].
  apply Nat.leb_le in Hmin.
  assert (Hrepl' : Forall (fun c => marker_char c = false) repl).
  { apply Forall_forall. intros c Hc. rewrite forallb_forall in Hrepl.
    apply negb_true_iff. now apply Hrepl. }
  assert (Hne' : repl <> []) by (destruct repl; [discriminate|discriminate]).
  intros s. remember (length s) as n eqn:Hn. revert s Hn.
  induction n as [n IH] using lt_wf_ind. intros s Hn bos.
  rewrite sub_from_step.
  destruct (match_here r bos s) as [[k caps]|] eqn:E.
  - pose proof (match_here_sound _ _ _ E) as (Hk & Hk' & Hal & _).
    destruct k as [|k]; [lia|].
    cbv beta.
    assert (Hgoal :
      sim (repl ++ sub_from r (fun _ => repl) false (skipn (S k) s) 0)
          (firstn (S k) s ++ skipn (S k) s)).
    { apply sim_swap; auto.
      - destruct s; [simpl in Hk; lia|discriminate].
      - eapply foreign_of_alphabet; eauto.
      - apply (IH (length (skipn (S k) s))); auto.
        rewrite length_skipn. lia. }
    now rewrite firstn_skipn in Hgoal.
  - destruct s as [|c s]; constructor.
    apply (IH (length s)); auto. simpl in Hn. lia.
Qed.

Lemma sub_keeps_count (rule : regex * str) (s : str) :
  rule_keeps_markers rule = true ->
  Str.count MARKER (sub (fst rule) (snd rule) s) = Str.count MARKER s.
Proof.
  intros H. unfold sub, sub_with.
  apply (@sim_count (length (sub_from (fst rule) (fun _ => snd rule) true s 0)));
    auto.
  now apply sub_sim.
Qed.

Lemma apply_table_keeps_count (table : list (regex * str)) :
  forallb rule_keeps_markers table = true ->
  forall s, Str.count MARKER (apply_table table s) = Str.count MARKER s.
Proof.
  unfold apply_table. induction table as [|rule table IH]; intros H s.
  - reflexivity.
  - cbn [forallb] in H. apply andb_true_iff in H. destruct H as [Hr Ht].
    cbn [fold_left]. rewrite IH by auto. now apply sub_keeps_count.
Qed.

(** The register converter neither makes nor removes a marker. *)
Lemma convert_desu_masu_keeps_count (s : str) :
  Str.count MARKER (convert_desu_masu s) = Str.count MARKER s.
Proof.
  unfold convert_desu_masu.
  rewrite !apply_table_keeps_count; auto; vm_compute; reflexivity.
Qed.

(** X5: the register converter neither makes nor removes a marker: the
    number of markers in its result is the number in its argument, for
    every text. *)
Theorem register_conversion_keeps_marker_count :
  forall s : str,
    Str.count MARKER (convert_desu_masu s) = Str.count MARKER s.
Proof. exact convert_desu_masu_keeps_count. Qed.

(** The cleanup can make a marker: the question [{{BL*AN*K}}] holds no
    marker after blank normalization, so [blank_count] is 0; the cleanup
    removes the two emphasis marks and the text handed to [format_blanks]
    is one marker. *)
Lemma cleanup_can_make_a_marker :
  Forall (fun o =>
            format_question o emphasis_question []
            = Ok {| question := MARKER; answer := ANSWER_MARK;
                    blank_count := 0 |} /\
            cleaned_text o emphasis_question = Ok MARKER /\
            Str.count MARKER MARKER = 1)
    set_orders.
Proof. each_order; repeat split; reflexivity. Qed.


(** * [strip] and the answer prefix *)

Lemma lstrip_clean (p : char -> bool) (s : str) :
  clean_head p s -> Str.lstrip_by p s = s.
Proof.
  destruct s as [|c s]; cbn [clean_head Str.lstrip_by]; auto.
  now intros ->.
Qed.

Lemma lstrip_is_clean (p : char -> bool) (s : str) :
  clean_head p (Str.lstrip_by p s).
Proof.
  induction s as [|c s IH]; cbn [Str.lstrip_by]; [exact I|].
  destruct (p c) eqn:E; auto.
Qed.

Lemma lstrip_suffix (p : char -> bool) (s : str) :
  exists y, s = y ++ Str.lstrip_by p s.
Proof.
  induction s as [|c s (y & IH)]; cbn [Str.lstrip_by].
  - now exists [].
  - destruct (p c).
    + exists (c :: y). cbn [app]. now f_equal.
    + now exists [].
Qed.

Lemma rstrip_clean (p : char -> bool) (s : str) :
  clean_head p (rev s) -> Str.rstrip_by p s = s.
Proof.
  intros H. unfold Str.rstrip_by. rewrite lstrip_clean by auto.
  apply rev_involutive.
Qed.

Lemma rstrip_is_clean (p : char -> bool) (s : str) :
  clean_head p (rev (Str.rstrip_by p s)).
Proof.
  unfold Str.rstrip_by. rewrite rev_involutive. apply lstrip_is_clean.
Qed.

Lemma clean_head_app (p : char -> bool) (x y : str) :
  clean_head p x -> x <> [] -> clean_head p (x ++ y).
Proof. destruct x; [congruence|auto]. Qed.

Lemma clean_head_of_app (p : char -> bool) (x y : str) :
  clean_head p (x ++ y) -> x <> [] -> clean_head p x.
Proof. destruct x; [congruence|auto]. Qed.

(** A prefix of a text that does not begin with space does not either. *)
Lemma rstrip_keeps_head (p : char -> bool) (s : str) :
  clean_head p s -> clean_head p (Str.rstrip_by p s).
Proof.
  intros H. unfold Str.rstrip_by.
  destruct (lstrip_suffix p (rev s)) as (y & Hy).
  apply (f_equal (@rev char)) in Hy. rewrite rev_involutive, rev_app_distr in Hy.
  destruct (rev (Str.lstrip_by p (rev s))) as [|c t] eqn:E; [exact I|].
  rewrite Hy in H. exact H.
Qed.

Lemma strip_clean (s : str) :
  clean_head Str.isspace s -> clean_head Str.isspace (rev s) ->
  Str.strip s = s.
Proof.
  intros H1 H2. unfold Str.strip. rewrite lstrip_clean by auto.
  now apply rstrip_clean.
Qed.

Lemma strip_head (s : str) : clean_head Str.isspace (Str.strip s).
Proof. apply rstrip_keeps_head, lstrip_is_clean. Qed.

Lemma strip_last (s : str) : clean_head Str.isspace (rev (Str.strip s)).
Proof. apply rstrip_is_clean. Qed.

(** A greedy star before a continuation that cannot fail takes the whole
    run. *)
Lemma rep_star_all (R : Type) (p : char -> bool)
  (k : bool -> str -> option R) :
  (forall b t, k b t <> None) ->
  forall s bos,
    rep true p 0 None bos s k
    = k (bos && is_nil (firstn (length s - length (Str.lstrip_by p s)) s))
        (Str.lstrip_by p s).
Proof.
  intros Hk. induction s as [|c s IH]; intros bos.
  - cbn [rep Str.lstrip_by length Nat.sub firstn is_nil].
    now rewrite andb_true_r.
  - cbn [rep more_allowed andb option_map Str.lstrip_by].
    destruct (p c) eqn:E.
    + rewrite IH. destruct (lstrip_suffix p s) as (y & Hy).
      assert (length (Str.lstrip_by p s) <= length s) as Hle.
      { rewrite Hy at 2. rewrite length_app. lia. }
      cbn [length].
      replace (S (length s) - length (Str.lstrip_by p s))
        with (S (length s - length (Str.lstrip_by p s))) by lia.
      cbn [firstn is_nil]. rewrite andb_false_r. cbn [andb].
      destruct (k false (Str.lstrip_by p s)) eqn:Ek; auto.
      now apply Hk in Ek.
    + replace (length (c :: s) - length (c :: s)) with 0 by lia.
      cbn [firstn is_nil]. now rewrite andb_true_r.
Qed.

Lemma match_here_answer_prefix_later (s : str) :
  match_here answer_prefix false s = None.
Proof. reflexivity. Qed.

Lemma match_here_answer_prefix (s : str) :
  match_here answer_prefix true s =
  match Str.strip_prefix (u "正解") s with
  | Some (c :: rest) =>
      if in_cls false (chars (u "：:")) c
      then Some (length s - length (Str.lstrip_by Str.isspace rest), [])
      else None
  | _ => None
  end.
Proof.
  unfold match_here, answer_prefix. cbn [seq rmatch].
  rewrite rmatch_lit.
  destruct (Str.strip_prefix (u "正解") s) as [[|c rest]|]; auto.
  cbn [set rmatch]. destruct (in_cls false (chars (u "：:")) c); auto.
  unfold star. cbn [rmatch]. rewrite rep_star_all by discriminate.
  reflexivity.
Qed.

(** A pattern that asks for the start of the text matches nowhere else. *)
Lemma sub_from_later (r : regex) (repl : match_obj -> str) :
  (forall y, match_here r false y = None) ->
  forall t, sub_from r repl false t 0 = t.
Proof.
  intros H. induction t as [|c t IH]; cbn [sub_from]; rewrite H; auto.
  now f_equal.
Qed.

(** The prefix is removed at the front of the text only. *)
Lemma sub_answer_prefix (s : str) :
  sub answer_prefix [] s = strip_answer_prefix s.
Proof.
  unfold sub, sub_with, strip_answer_prefix.
  rewrite sub_from_step, match_here_answer_prefix.
  assert (Hcopy : match s with
                  | [] => []
                  | c :: s' =>
                      c :: sub_from answer_prefix (fun _ => []) false s' 0
                  end = s).
  { destruct s; auto. f_equal.
    apply sub_from_later, match_here_answer_prefix_later. }
  destruct (Str.strip_prefix (u "正解") s) as [[|c rest]|] eqn:E; auto.
  destruct (in_cls false (chars (u "：:")) c); auto.
  apply strip_prefix_app in E.
  destruct (lstrip_suffix Str.isspace rest) as (y & Hy).
  set (t := Str.lstrip_by Str.isspace rest) in *.
  assert (Hs : s = (u "正解" ++ c :: y) ++ t).
  { rewrite E, Hy at 1. now rewrite <- app_assoc. }
  assert (Hlen : length s - length t = S (S (S (length y)))).
  { rewrite Hs, consumed_length, length_app. simpl. lia. }
  assert (Hskip : skipn (S (S (S (length y)))) s = t).
  { rewrite Hs.
    replace (S (S (S (length y)))) with (length (u "正解" ++ c :: y))
      by (rewrite length_app; simpl; lia).
    rewrite skipn_app, skipn_all, Nat.sub_diag. reflexivity. }
  rewrite Hlen, Hskip. cbn [app].
  apply sub_from_later, match_here_answer_prefix_later.
Qed.

(** With one blank the answer is the mark and the stripped answer without
    a prefix of its own. *)
Lemma format_answer_one (a : str) :
  format_answer a 1 = Ok (ANSWER_MARK ++ strip_answer_prefix (Str.strip a)).
Proof.
  unfold format_answer. cbn [Z.eqb Pos.eqb]. now rewrite sub_answer_prefix.
Qed.

Lemma strip_answer_prefix_head (s : str) :
  clean_head Str.isspace s ->
  clean_head Str.isspace (strip_answer_prefix s).
Proof.
  intros H. unfold strip_answer_prefix.
  destruct (Str.strip_prefix (u "正解") s) as [[|c rest]|]; auto.
  destruct (in_cls false (chars (u "：:")) c); auto.
  apply lstrip_is_clean.
Qed.

Lemma strip_answer_prefix_suffix (s : str) :
  exists y, s = y ++ strip_answer_prefix s.
Proof.
  unfold strip_answer_prefix.
  destruct (Str.strip_prefix (u "正解") s) as [[|c rest]|] eqn:E;
    try (now exists []).
  destruct (in_cls false (chars (u "：:")) c); try (now exists []).
  apply strip_prefix_app in E.
  destruct (lstrip_suffix Str.isspace rest) as (y & Hy).
  exists (u "正解" ++ c :: y). rewrite E, Hy at 1.
  now rewrite <- app_assoc.
Qed.

Lemma clean_last_suffix (p : char -> bool) (y x : str) :
  clean_head p (rev (y ++ x)) -> clean_head p (rev x).
Proof.
  rewrite rev_app_distr. destruct (rev x) eqn:E; [intros _; exact I|].
  intros H. exact H.
Qed.

(** Formatting a one-blank answer twice is formatting it once. *)
Lemma format_answer_one_twice (a r : str) :
  format_answer a 1 = Ok r -> format_answer r 1 = Ok r.
Proof.
  rewrite format_answer_one. intros H.
  assert (Hr : r = ANSWER_MARK ++ strip_answer_prefix (Str.strip a))
    by congruence.
  subst r. clear H. rewrite format_answer_one.
  set (x := strip_answer_prefix (Str.strip a)).
  assert (Hhead : clean_head Str.isspace x)
    by apply strip_answer_prefix_head, strip_head.
  assert (Hlast : clean_head Str.isspace (rev x)).
  { destruct (strip_answer_prefix_suffix (Str.strip a)) as (y & Hy).
    apply (@clean_last_suffix _ y). fold x in Hy. rewrite <- Hy.
    apply strip_last. }
  assert (Hstrip : Str.strip (ANSWER_MARK ++ x) = ANSWER_MARK ++ x).
  { apply strip_clean; [reflexivity|].
    rewrite rev_app_distr. destruct (rev x) eqn:E; [reflexivity|exact Hlast]. }
  rewrite Hstrip. do 2 f_equal.
  unfold strip_answer_prefix.
  change (ANSWER_MARK ++ x) with (u "正解" ++ ch "：" :: x).
  rewrite strip_prefix_refl.
  replace (in_cls false (chars (u "：:")) (ch "：")) with true by reflexivity.
  now apply lstrip_clean.
Qed.

(** X11: formatting the answer of one blank is idempotent: for every
    answer text the call returns, and formatting what it returned gives
    the same text again. *)
Theorem format_answer_one_idempotent :
  forall a : str,
    exists r, format_answer a 1 = Ok r /\ format_answer r 1 = Ok r.
Proof.
  intros a. exists (ANSWER_MARK ++ strip_answer_prefix (Str.strip a)).
  pose proof (format_answer_one a) as H.
  split; [exact H|]. exact (format_answer_one_twice H).
Qed.


(** * Running the pipeline on its own output *)

Lemma format_question_answer (set_order : list str) (q a : str) (out : output) :
  format_question set_order q a = Ok out ->
  format_answer a (blank_count out) = Ok (answer out).
Proof.
  intros H.
  destruct (format_question_stages set_order q a)
    as (nz & f & fa & _ & _ & Hfa & Hq).
  cbv zeta in Hfa, Hq. rewrite Hq in H. injection H as <-.
  exact Hfa.
Qed.

(** The question is not kept: on the output of a first run the second
    run finds the blank again and prepends the instruction line a second
    time, so the formatted question is not the one of the first run. *)
Lemma rerun_repeats_instruction :
  Forall (fun o =>
            format_question o one_blank_question one_blank_answer
            = Ok one_blank_output /\
            format_question o (question one_blank_output)
              (answer one_blank_output)
            = Ok one_blank_rerun /\
            question one_blank_rerun <> question one_blank_output)
    set_orders.
Proof.
  each_order; (split; [reflexivity|split; [reflexivity|discriminate]]).
Qed.

(** X12: when the first run and the run on its output both find exactly
    one blank, the second run returns the formatted answer of the
    first. *)
Theorem rerun_keeps_one_blank_answer :
  forall (set_order : list str) (q a : str) (out1 out2 : output),
    format_question set_order q a = Ok out1 ->
    blank_count out1 = 1%Z ->
    format_question set_order (question out1) (answer out1) = Ok out2 ->
    blank_count out2 = 1%Z ->
    answer out2 = answer out1.
Proof.
  intros set_order q a out1 out2 H1 Hc1 H2 Hc2.
  apply format_question_answer in H1, H2.
  rewrite Hc1 in H1. rewrite Hc2 in H2.
  apply format_answer_one_twice in H1. congruence.
Qed.

Lemma rerun_keeps_one_blank_answer_witness :
  format_question exclude_letters_before_cell one_blank_question
    one_blank_answer = Ok one_blank_output /\
  blank_count one_blank_output = 1%Z /\
  format_question exclude_letters_before_cell (question one_blank_output)
    (answer one_blank_output) = Ok one_blank_rerun /\
  blank_count one_blank_rerun = 1%Z /\
  answer one_blank_rerun = answer one_blank_output.
Proof.
  assert (H1 : format_question exclude_letters_before_cell one_blank_question
                 one_blank_answer = Ok one_blank_output)
    by (vm_compute; reflexivity).
  assert (H2 : format_question exclude_letters_before_cell
                 (question one_blank_output) (answer one_blank_output)
               = Ok one_blank_rerun)
    by (vm_compute; reflexivity).
  split; [exact H1|]. split; [reflexivity|].
  split; [exact H2|]. split; [reflexivity|].
  exact (@rerun_keeps_one_blank_answer exclude_letters_before_cell
           one_blank_question one_blank_answer
           one_blank_output one_blank_rerun H1 eq_refl H2 eq_refl).
Defined.


(** * Answers one entry a line *)

(** A greedy repetition takes a whole run when the continuation accepts
    what follows the run. *)
Lemma rep_greedy_run (R : Type) (p : char -> bool)
  (k : bool -> str -> option R) (r : R) (y : str) :
  clean_head p y ->
  forall x lo bos,
    Forall (fun c => p c = true) x -> lo <= length x ->
    k (bos && is_nil x) y = Some r ->
    rep true p lo None bos (x ++ y) k = Some r.
Proof.
  intros Hy. induction x as [|c x IH]; intros lo bos Hx Hlo Hk.
  - destruct lo; [|simpl in Hlo; lia].
    cbn [is_nil] in Hk. rewrite andb_true_r in Hk. cbn [app].
    destruct y as [|c y]; cbn [rep].
    + exact Hk.
    + cbn [clean_head] in Hy. cbn [more_allowed andb]. rewrite Hy. exact Hk.
  - inversion Hx as [|c' x' Hc Hx']; subst.
    cbn [is_nil] in Hk. rewrite andb_false_r in Hk.
    cbn [app]. destruct lo as [|lo]; cbn [rep].
    + cbn [more_allowed andb option_map]. rewrite Hc.
      assert (Hmore : rep true p 0 None false (x ++ y) k = Some r)
        by (apply IH; auto; lia).
      now rewrite Hmore.
    + rewrite Hc. cbn [option_map]. apply IH; auto.
      simpl in Hlo. lia.
Qed.

Lemma firstn_whole (v : str) : firstn (length v - length (@nil char)) v = v.
Proof. cbn [length]. rewrite Nat.sub_0_r. apply firstn_all. Qed.

Lemma dot_plus_run (v : str) :
  Forall (fun c => c <> 10%N) v ->
  Forall (fun c => in_cls true dot_ranges c = true) v.
Proof.
  intros H. eapply Forall_impl; [|exact H]. intros c Hc. cbv beta in Hc.
  unfold in_cls, dot_ranges, Str.in_ranges. cbn [existsb fst snd].
  destruct (N.leb_spec 10 c), (N.leb_spec c 10); cbn; auto. lia.
Qed.

(** A line made of a label, separators and a value matches its pattern,
    with the label in group 1 and the value in group 2. *)
Lemma match_line (label : regex) (seps : list (char * char)) (lo : nat)
  (lab sepstr v : str) :
  (forall caps (k : bool -> str -> captures -> option (nat * captures)) r,
      k false (sepstr ++ v) caps = Some r ->
      rmatch label true (lab ++ sepstr ++ v) caps k = Some r) ->
  Forall (fun c => in_cls false seps c = true) sepstr ->
  lo <= length sepstr ->
  clean_head (in_cls false seps) v ->
  v <> [] -> Forall (fun c => c <> 10%N) v ->
  match_ (line_pattern label seps lo) (lab ++ sepstr ++ v)
  = Some {| whole := lab ++ sepstr ++ v; groups := [(2, v); (1, lab)] |}.
Proof.
  intros Hlabel Hsep Hlo Hclean Hne Hnl.
  unfold match_.
  assert (H : match_here (line_pattern label seps lo) true (lab ++ sepstr ++ v)
              = Some (length (lab ++ sepstr ++ v), [(2, v); (1, lab)])).
  { unfold match_here, line_pattern. cbn [seq rmatch].
    apply Hlabel.
    apply rep_greedy_run; auto.
    cbn [andb].
    unfold dot_plus. cbn [rmatch].
    rewrite <- (app_nil_r v) at 1.
    apply rep_greedy_run; auto using dot_plus_run.
    - exact I.
    - destruct v; [congruence|simpl; lia].
    - cbn [andb]. rewrite firstn_whole, firstn_consumed.
      cbn [length]. rewrite Nat.sub_0_r. reflexivity. }
  rewrite H. now rewrite firstn_all.
Qed.

(** A line that does not begin with a character of the class of its
    label matches no pattern of that label. *)
Lemma match_line_not_cls (cls seps : list (char * char)) (lo : nat)
  (c : char) (s : str) :
  in_cls false cls c = false ->
  match_ (line_pattern (set cls) seps lo) (c :: s) = None.
Proof.
  intros H. unfold match_, match_here, line_pattern.
  cbn [seq rmatch set]. now rewrite H.
Qed.

Lemma match_line_not_plus (cls seps : list (char * char)) (lo : nat)
  (c : char) (s : str) :
  in_cls false cls c = false ->
  match_ (line_pattern (plus cls) seps lo) (c :: s) = None.
Proof.
  intros H. unfold match_, match_here, line_pattern.
  cbn [seq rmatch plus rep]. now rewrite H.
Qed.

Lemma line_circled_shape : line_circled = line_pattern (set circled) sep_circled_line 0.
Proof. reflexivity. Qed.

Lemma line_num_shape :
  line_num = line_pattern (plus [(ch "0", ch "9")]) sep_num_line 0.
Proof. reflexivity. Qed.

Lemma line_letter_shape :
  line_letter = line_pattern (set letters) sep_circled_line 1.
Proof. reflexivity. Qed.

Lemma in_ranges_app (A B : list (char * char)) (c : char) :
  Str.in_ranges (A ++ B) c = Str.in_ranges A c || Str.in_ranges B c.
Proof. unfold Str.in_ranges. apply existsb_app. Qed.

Lemma space_is_sep (c : char) :
  Str.isspace c = true -> in_cls false sep_num_line c = true.
Proof.
  intros H. unfold in_cls, sep_num_line, sep_circled_line. cbn [xorb].
  rewrite !in_ranges_app. unfold space. unfold Str.isspace in H.
  rewrite H. now rewrite orb_true_r.
Qed.

Lemma sep_is_sep_num (c : char) :
  in_cls false sep_circled_line c = true ->
  in_cls false sep_num_line c = true.
Proof.
  unfold in_cls, sep_num_line. cbn [xorb]. rewrite in_ranges_app.
  now intros ->.
Qed.

Lemma clean_head_weaken (p q : char -> bool) (s : str) :
  (forall c, q c = true -> p c = true) ->
  clean_head p s -> clean_head q s.
Proof.
  intros H. destruct s as [|c s]; cbn [clean_head]; auto.
  intros Hp. destruct (q c) eqn:E; auto. apply H in E. congruence.
Qed.

Lemma good_value_strip (v : str) : good_value v -> Str.strip v = v.
Proof.
  intros (_ & _ & Hhead & Hlast). apply strip_clean; auto.
  eapply clean_head_weaken; [|exact Hhead]. apply space_is_sep.
Qed.

Lemma sep_not_digit (c : char) :
  in_cls false sep_circled_line c = true ->
  in_cls false [(ch "0", ch "9")] c = false.
Proof. apply in_cls_disjoint. vm_compute. reflexivity. Qed.

(** A labeled line has no space around it. *)
Lemma labeled_line_strip (lab sepstr v : str) :
  lab <> [] -> clean_head Str.isspace lab -> good_value v ->
  Str.strip (lab ++ sepstr ++ v) = lab ++ sepstr ++ v.
Proof.
  intros Hlab Hhead (Hne & _ & _ & Hlast). apply strip_clean.
  - now apply clean_head_app.
  - rewrite !rev_app_distr. rewrite <- app_assoc.
    apply clean_head_app; auto.
    intros E. apply (f_equal (@rev char)) in E.
    rewrite rev_involutive in E. now apply Hne.
Qed.

Ltac bounded_cases i :=
  repeat (destruct i as [|i]; [vm_compute; intuition congruence|]);
  try (exfalso; simpl in *; lia).

(** The letters. *)
Lemma letter_label (i : nat) :
  i < 26 ->
  in_cls false letters (nth i labels 0%N) = true /\
  in_cls false circled (nth i labels 0%N) = false /\
  in_cls false [(ch "0", ch "9")] (nth i labels 0%N) = false /\
  Str.isspace (nth i labels 0%N) = false /\
  Str.upper [nth i labels 0%N] = [nth i labels 0%N].
Proof. intros H. bounded_cases i. Qed.

(** The circled numbers. *)
Lemma circled_label (i : nat) :
  i < 20 ->
  in_cls false circled (nth i circled_labels 0%N) = true /\
  Str.isspace (nth i circled_labels 0%N) = false /\
  dict_get circled_to_alpha [nth i circled_labels 0%N] (u "A")
  = [nth i labels 0%N].
Proof. intros H. bounded_cases i. Qed.

(** The numbers. *)
Lemma digit_label (i : nat) :
  i < 26 ->
  exists d ds,
    Str.of_nat (S i) = d :: ds /\
    Forall (fun c => in_cls false [(ch "0", ch "9")] c = true) (d :: ds) /\
    in_cls false circled d = false /\
    Str.isspace d = false /\
    forall default,
      dict_get num_to_alpha (Str.of_nat (S i)) default = [nth i labels 0%N].
Proof.
  intros H.
  repeat (destruct i as [|i];
          [eexists; eexists; split; [vm_compute; reflexivity|];
           split; [repeat constructor|];
           split; [reflexivity|]; split; [reflexivity|];
           intros default; vm_compute; reflexivity|]).
  exfalso. lia.
Qed.

Lemma cons_app (c : char) (s t : str) : (c :: s) ++ t = c :: (s ++ t).
Proof. reflexivity. Qed.

(** [parse_line] on a labeled line adds the entry with the letter of the
    label. *)
Lemma parse_labeled_line (nt : notation) (sepstr v : str)
  (parts : list str) (i : nat) :
  i < max_entries nt -> good_separator nt sepstr -> good_value v ->
  parse_line parts (label_text nt i ++ sepstr ++ v)
  = Ok (parts ++ [entry [nth i labels 0%N] v]).
Proof.
  intros Hi (Hsep & Hsepne) Hv.
  pose proof Hv as (Hvne & Hnl & Hhead & Hlast).
  assert (Hsep1 : Forall (fun c => in_cls false sep_circled_line c = true)
                    sepstr).
  { eapply Forall_impl; [|exact Hsep]. now intros c [H _]. }
  assert (Hsep2 : Forall (fun c => in_cls false sep_num_line c = true) sepstr).
  { eapply Forall_impl; [|exact Hsep1]. apply sep_is_sep_num. }
  assert (Hhead1 : clean_head (in_cls false sep_circled_line) v).
  { eapply clean_head_weaken; [|exact Hhead]. apply sep_is_sep_num. }
  pose proof (good_value_strip Hv) as Hstrip.
  unfold parse_line.
  destruct nt; cbn [max_entries label_text] in *.
  - (* letters *)
    destruct (letter_label Hi) as (HL & HC & HD & HS & HU).
    set (L := nth i labels 0%N) in *.
    rewrite labeled_line_strip by (auto; discriminate).
    cbn [app]. change (L :: sepstr ++ v) with ([L] ++ sepstr ++ v).
    rewrite line_circled_shape, line_num_shape, line_letter_shape.
    cbn [app].
    rewrite match_line_not_cls by exact HC.
    rewrite match_line_not_plus by exact HD.
    change (L :: sepstr ++ v) with ([L] ++ sepstr ++ v).
    rewrite match_line; auto.
    + unfold group_obj, group. cbn [groups lookup Nat.eqb bind].
      rewrite HU, Hstrip. reflexivity.
    + intros caps k r Hk. cbn [app set rmatch]. now rewrite HL.
    + destruct Hsepne as [E|E]; [discriminate|].
      destruct sepstr; [congruence|simpl; lia].
  - (* numbers *)
    destruct (digit_label Hi) as (d & ds & HD & Hdig & HC & HS & Hdict).
    specialize (Hdict
      (match (if length parts <? length labels
              then c <- index labels (length parts) ;; Ok [c]
              else Ok (u "A")) with
       | Ok x => x | _ => [] end)).
    rewrite HD in *.
    rewrite labeled_line_strip by (auto; discriminate).
    rewrite line_circled_shape, line_num_shape.
    rewrite cons_app.
    rewrite match_line_not_cls by exact HC.
    rewrite <- cons_app.
    rewrite match_line; auto.
    + cbn [group_or_empty group groups lookup Nat.eqb].
      destruct (length parts <? length labels) eqn:E.
      * apply Nat.ltb_lt in E.
        destruct (@index_in_range labels _ E) as (x & Hx).
        rewrite Hx in *. cbn [bind] in *. rewrite Hdict.
        unfold group_obj, group. cbn [groups lookup Nat.eqb bind].
        rewrite Hstrip. reflexivity.
      * cbn [bind]. rewrite Hdict.
        unfold group_obj, group. cbn [groups lookup Nat.eqb bind].
        rewrite Hstrip. reflexivity.
    + intros caps k r Hk. unfold plus. cbn [rmatch].
      apply rep_greedy_run; auto.
      * destruct Hsepne as [E|E]; [discriminate|].
        destruct sepstr as [|c sepstr]; [congruence|].
        cbn [app clean_head]. inversion Hsep1; subst.
        now apply sep_not_digit.
      * simpl. lia.
    + lia.
  - (* circled numbers *)
    destruct (circled_label Hi) as (HC & HS & Hdict).
    set (C := nth i circled_labels 0%N) in *.
    rewrite labeled_line_strip by (auto; discriminate).
    rewrite line_circled_shape.
    rewrite match_line; auto.
    + cbn [group_or_empty group groups lookup Nat.eqb].
      rewrite Hdict.
      unfold group_obj, group. cbn [groups lookup Nat.eqb bind].
      rewrite Hstrip. reflexivity.
    + intros caps k r Hk. cbn [app set rmatch]. now rewrite HC.
    + lia.
Qed.

Lemma label_entries_cons (ls : str) (i : nat) (v : str) (vs : list str) :
  i < length ls ->
  label_entries (skipn i ls) (v :: vs)
  = entry [nth i ls 0%N] v :: label_entries (skipn (S i) ls) vs.
Proof.
  intros H. destruct (nth_error ls i) as [l|] eqn:E.
  - rewrite (skipn_nth_error _ _ E). cbn [label_entries].
    now rewrite (nth_error_nth _ _ _ E).
  - apply nth_error_None in E. lia.
Qed.

Lemma label_entries_step (i : nat) (v : str) (vs : list str) :
  i < length labels ->
  label_entries (skipn i labels) (v :: vs)
  = entry [nth i labels 0%N] v :: label_entries (skipn (S i) labels) vs.
Proof. apply label_entries_cons. Qed.

Lemma max_entries_le (nt : notation) : max_entries nt <= length labels.
Proof. destruct nt; vm_compute; repeat constructor. Qed.

(** The loop over the lines adds one entry a line, lettered in order. *)
Lemma parse_labeled_lines (nt : notation) (sepstr : str) :
  good_separator nt sepstr ->
  forall vs i parts,
    i + length vs <= max_entries nt -> Forall good_value vs ->
    fold_left (fun parts line => parts <- parts ;; parse_line parts line)
      (labeled_lines nt sepstr i vs) (Ok parts)
    = Ok (parts ++ label_entries (skipn i labels) vs).
Proof.
  intros Hsep. induction vs as [|v vs IH]; intros i parts Hi Hvs.
  - cbn [labeled_lines fold_left].
    destruct (skipn i labels); cbn [label_entries]; now rewrite app_nil_r.
  - inversion Hvs as [|v' vs' Hv Hvs']; subst.
    cbn [labeled_lines fold_left bind]. cbn [length] in Hi.
    rewrite parse_labeled_line by (auto; lia).
    rewrite IH by (auto; lia).
    pose proof (max_entries_le nt).
    rewrite label_entries_step by lia.
    now rewrite <- app_assoc.
Qed.

Lemma label_text_facts (nt : notation) (i : nat) :
  i < max_entries nt ->
  exists c l,
    label_text nt i = c :: l /\ Str.isspace c = false /\ c <> ch "正" /\
    Forall (fun x => x <> 10%N) (c :: l).
Proof.
  intros H.
  assert (Hcase : i < 26) by (destruct nt; cbn [max_entries] in H; lia).
  clear H.
  destruct nt;
    do 26 (destruct i as [|i];
           [eexists; eexists; split; [vm_compute; reflexivity|];
            split; [reflexivity|]; split; [discriminate|];
            repeat constructor; discriminate|]);
    exfalso; lia.
Qed.

Lemma line_no_break (nt : notation) (sepstr v : str) (i : nat) :
  i < max_entries nt -> good_separator nt sepstr -> good_value v ->
  Forall (fun x => x <> 10%N) (label_text nt i ++ sepstr ++ v).
Proof.
  intros Hi (Hsep & _) (_ & Hnl & _).
  destruct (label_text_facts nt Hi) as (c & l & -> & _ & _ & Hl).
  apply Forall_app. split; auto. apply Forall_app. split; auto.
  eapply Forall_impl; [|exact Hsep]. now intros x [_ Hx].
Qed.

(** [split] undoes [join] on lines without a line break. *)
Lemma split_line (l : str) :
  Forall (fun x => x <> 10%N) l ->
  forall rest, Str.split 10%N (l ++ 10%N :: rest) = l :: Str.split 10%N rest.
Proof.
  induction 1 as [|c l Hc _ IH]; intros rest.
  - cbn [app Str.split]. now rewrite N.eqb_refl.
  - cbn [app Str.split]. apply N.eqb_neq in Hc. rewrite Hc, IH. reflexivity.
Qed.

Lemma split_one (l : str) :
  Forall (fun x => x <> 10%N) l -> Str.split 10%N l = [l].
Proof.
  induction 1 as [|c l Hc _ IH]; auto.
  cbn [Str.split]. apply N.eqb_neq in Hc. now rewrite Hc, IH.
Qed.

Lemma split_join (lines : list str) :
  lines <> [] ->
  Forall (Forall (fun x => x <> 10%N)) lines ->
  Str.split 10%N (Str.join [10%N] lines) = lines.
Proof.
  intros Hne H. revert Hne.
  induction H as [|l lines Hl Hls IH]; intros Hne; [now elim Hne|].
  destruct lines as [|l2 lines].
  - cbn [Str.join]. now apply split_one.
  - change (Str.join [10%N] (l :: l2 :: lines))
      with (l ++ 10%N :: Str.join [10%N] (l2 :: lines)).
    rewrite split_line by auto. f_equal. apply IH. discriminate.
Qed.

Lemma labeled_lines_no_break (nt : notation) (sepstr : str) :
  good_separator nt sepstr ->
  forall vs i,
    i + length vs <= max_entries nt -> Forall good_value vs ->
    Forall (Forall (fun x => x <> 10%N)) (labeled_lines nt sepstr i vs).
Proof.
  intros Hsep. induction vs as [|v vs IH]; intros i Hi Hvs.
  - constructor.
  - inversion Hvs; subst. cbn [labeled_lines]. cbn [length] in Hi.
    constructor.
    + apply line_no_break; auto. lia.
    + apply IH; auto. lia.
Qed.

Lemma labeled_lines_length (nt : notation) (sepstr : str) (vs : list str) :
  forall i, length (labeled_lines nt sepstr i vs) = length vs.
Proof. induction vs; intros i; cbn [labeled_lines length]; auto. Qed.

(** The joined entries end with the end of the last value. *)
Lemma labeled_join_last (nt : notation) (sepstr gap : str) :
  forall vs i,
    vs <> [] -> Forall good_value vs ->
    clean_head Str.isspace (rev (Str.join gap (labeled_lines nt sepstr i vs)))
    /\ Str.join gap (labeled_lines nt sepstr i vs) <> [].
Proof.
  induction vs as [|v vs IH]; intros i Hne Hvs; [congruence|].
  inversion Hvs as [|v' vs' Hv Hvs']; subst.
  destruct vs as [|v2 vs].
  - cbn [labeled_lines Str.join]. destruct Hv as (Hvne & _ & _ & Hlast).
    split.
    + rewrite !rev_app_distr, <- app_assoc. apply clean_head_app; auto.
      intros E. apply (f_equal (@rev char)) in E.
      rewrite rev_involutive in E. now apply Hvne.
    + intros E. apply app_eq_nil in E. destruct E as [_ E].
      apply app_eq_nil in E. destruct E. now apply Hvne.
  - destruct (IH (S i)) as [Hl Hn]; auto; [discriminate|].
    change (Str.join gap (labeled_lines nt sepstr i (v :: v2 :: vs)))
      with ((label_text nt i ++ sepstr ++ v) ++ gap ++
            Str.join gap (labeled_lines nt sepstr (S i) (v2 :: vs))).
    split.
    + rewrite !rev_app_distr, <- !app_assoc. apply clean_head_app; auto.
      intros E. apply (f_equal (@rev char)) in E.
      rewrite rev_involutive in E. now apply Hn.
    + intros E. apply app_eq_nil in E. destruct E as [_ E].
      apply app_eq_nil in E. destruct E as [_ E]. now apply Hn.
Qed.

(** The joined entries begin with the first label. *)
Lemma labeled_join_head (nt : notation) (sepstr gap : str) (v : str)
  (vs : list str) (i : nat) :
  exists t,
    Str.join gap (labeled_lines nt sepstr i (v :: vs))
    = label_text nt i ++ sepstr ++ v ++ t /\
    (vs = [] -> t = []) /\
    (vs <> [] ->
     t = gap ++ Str.join gap (labeled_lines nt sepstr (S i) vs)).
Proof.
  destruct vs as [|v2 vs].
  - exists []. cbn [labeled_lines Str.join]. rewrite app_nil_r.
    repeat split; auto. congruence.
  - exists (gap ++ Str.join gap (labeled_lines nt sepstr (S i) (v2 :: vs))).
    split; [|split; [discriminate|reflexivity]].
    change (Str.join gap (labeled_lines nt sepstr i (v :: v2 :: vs)))
      with ((label_text nt i ++ sepstr ++ v) ++ gap ++
            Str.join gap (labeled_lines nt sepstr (S i) (v2 :: vs))).
    now rewrite <- !app_assoc.
Qed.

Lemma strip_answer_prefix_other (c : char) (s : str) :
  c <> ch "正" -> strip_answer_prefix (c :: s) = c :: s.
Proof.
  intros H. unfold strip_answer_prefix.
  change (u "正解") with (ch "正" :: u "解"). cbn [Str.strip_prefix].
  destruct (ch "正" =? c)%N eqn:E; auto.
  apply N.eqb_eq in E. congruence.
Qed.

(** X13: entries one a line, labeled in order by letters, by numbers or
    by circled numbers, come back lettered A, B, ... in that order, each
    with its value. *)
Lemma format_answer_lines (nt : notation) (sepstr : str) (vs : list str) :
  2 <= length vs <= max_entries nt ->
  good_separator nt sepstr -> Forall good_value vs ->
  format_answer (multi_line_answer nt sepstr vs) (Z.of_nat (length vs))
  = Ok (render_entries vs).
Proof.
  intros [Hlo Hhi] Hsep Hvs. unfold format_answer, multi_line_answer.
  destruct (Z.of_nat (length vs) =? 0)%Z eqn:E0; [lia|].
  destruct (Z.of_nat (length vs) =? 1)%Z eqn:E1; [lia|].
  destruct vs as [|v vs]; [simpl in Hlo; lia|].
  set (a := Str.join [10%N] (labeled_lines nt sepstr 0 (v :: vs))).
  destruct (@labeled_join_last nt sepstr [10%N] (v :: vs) 0) as [Hlast Hane];
    auto; [discriminate|]. fold a in Hlast, Hane.
  assert (H0 : 0 < max_entries nt) by lia.
  destruct (label_text_facts nt H0) as (c & l & Hlab & Hsp & Hc & _).
  assert (Ha : exists t, a = c :: t).
  { unfold a. cbn [labeled_lines]. rewrite Hlab.
    destruct (labeled_lines nt sepstr 1 vs); cbn [Str.join app]; eauto. }
  destruct Ha as (t & Ha).
  assert (Hstrip : Str.strip a = a).
  { apply strip_clean; auto. rewrite Ha. exact Hsp. }
  rewrite Hstrip, sub_answer_prefix.
  assert (Hpre : strip_answer_prefix a = a).
  { rewrite Ha. now apply strip_answer_prefix_other. }
  rewrite Hpre, Hstrip.
  unfold a at 1 2.
  rewrite split_join.
  - rewrite labeled_lines_length.
    destruct (2 <=? length (v :: vs)) eqn:E2;
      [|apply Nat.leb_gt in E2; lia].
    rewrite parse_labeled_lines by auto.
    cbn [bind app skipn].
    unfold render_entries.
    destruct (label_entries labels (v :: vs)) eqn:El; [discriminate|].
    reflexivity.
  - cbn [labeled_lines]. discriminate.
  - apply labeled_lines_no_break; auto.
Qed.

Lemma format_answer_lines_witness :
  2 <= length [u "赤血球"; u "白血球"] <= max_entries Digits /\
  good_separator Digits (u ". ") /\
  Forall good_value [u "赤血球"; u "白血球"] /\
  format_answer (multi_line_answer Digits (u ". ") [u "赤血球"; u "白血球"]) 2
  = Ok (u "正解：A. 赤血球　　B. 白血球").
Proof.
  assert (Hlen : 2 <= length [u "赤血球"; u "白血球"] <= max_entries Digits)
    by (cbn [length max_entries]; lia).
  assert (Hsep : good_separator Digits (u ". ")).
  { split; [|right; discriminate].
    repeat constructor; try discriminate; vm_compute; reflexivity. }
  assert (Hvs : Forall good_value [u "赤血球"; u "白血球"]).
  { repeat constructor; try discriminate; vm_compute; reflexivity. }
  split; [exact Hlen|]. split; [exact Hsep|]. split; [exact Hvs|].
  exact (format_answer_lines Hlen Hsep Hvs).
Defined.


(** * Answers on one line *)

Lemma findall_from_skip (r : regex) :
  forall n s bos,
    S n <= length s ->
    findall_from r bos s (S n) = findall_from r false (skipn (S n) s) 0.
Proof.
  induction n as [|n IH]; intros s bos Hn.
  - destruct s as [|c s]; simpl in *; [lia|]. reflexivity.
  - destruct s as [|c s]; simpl in Hn; [lia|].
    change (findall_from r bos (c :: s) (S (S n)))
      with (findall_from r false s (S n)).
    rewrite IH by lia. reflexivity.
Qed.

(** [findall] after a match of [n] characters, one at least. *)
Lemma findall_from_match (r : regex) (bos : bool) (s : str) (n : nat)
  (caps : captures) :
  match_here r bos s = Some (S n, caps) ->
  findall_from r bos s 0
  = {| whole := firstn (S n) s; groups := caps |}
    :: findall_from r false (skipn (S n) s) 0.
Proof.
  intros H. pose proof (match_here_sound _ _ _ H) as (Hn & _).
  destruct s as [|c s]; [simpl in Hn; lia|].
  cbn [findall_from]. rewrite H. f_equal. cbn [Nat.pred].
  destruct n as [|n]; [reflexivity|].
  rewrite findall_from_skip by (simpl in Hn; lia). reflexivity.
Qed.

(** [findall] passes over characters at which no match begins. *)
Lemma findall_from_gap (r : regex) (gap rest : str) :
  Forall (fun c => forall t, match_here r false (c :: t) = None) gap ->
  findall_from r false (gap ++ rest) 0 = findall_from r false rest 0.
Proof.
  induction 1 as [|c gap Hc _ IH]; auto.
  cbn [app findall_from]. now rewrite Hc.
Qed.

(** A lazy repetition stops at the first place where the continuation
    accepts. *)
Lemma rep_lazy_loop (R : Type) (p : char -> bool)
  (k : bool -> str -> option R) (r : R) (y : str) :
  k false y = Some r ->
  forall x,
    Forall (fun c => p c = true) x ->
    (forall x1 x2, x = x1 ++ x2 -> x2 <> [] -> k false (x2 ++ y) = None) ->
    rep false p 0 None false (x ++ y) k = Some r.
Proof.
  intros Hk. induction x as [|c x IH]; intros Hx Hnone.
  - cbn [app]. destruct y; cbn [rep]; now rewrite Hk.
  - inversion Hx as [|c' x' Hc Hx']; subst.
    cbn [app rep more_allowed andb option_map].
    assert (H0 : k false ((c :: x) ++ y) = None)
      by (apply (Hnone [] (c :: x)); [reflexivity|discriminate]).
    cbn [app] in H0. rewrite H0, Hc. apply IH; auto.
    intros x1 x2 -> Hx2. apply (Hnone (c :: x1) x2); auto.
Qed.

Lemma rep_lazy_run (R : Type) (p : char -> bool)
  (k : bool -> str -> option R) (r : R) (x y : str) (bos : bool) :
  x <> [] ->
  Forall (fun c => p c = true) x ->
  (forall x1 x2, x = x1 ++ x2 -> x1 <> [] -> x2 <> [] ->
                 k false (x2 ++ y) = None) ->
  k false y = Some r ->
  rep false p 1 None bos (x ++ y) k = Some r.
Proof.
  intros Hne Hx Hnone Hk. destruct x as [|c x]; [congruence|].
  inversion Hx as [|c' x' Hc Hx']; subst.
  cbn [app rep option_map]. rewrite Hc.
  apply rep_lazy_loop; auto.
  intros x1 x2 -> Hx2. apply (Hnone (c :: x1) x2); auto. discriminate.
Qed.

(** White space and then a character of [cls] do not begin a text whose
    first part [x] ends in a character that is not white space and has no
    character of [cls]. *)
Lemma no_space_then_cls (R : Type) (cls : list (char * char)) (x y : str)
  (bos : bool) (caps : captures)
  (k : bool -> str -> captures -> option R) :
  x <> [] ->
  clean_head Str.isspace (rev x) ->
  Forall (fun c => in_cls false cls c = false) x ->
  rmatch (Seq (star space) (set cls)) bos (x ++ y) caps k = None.
Proof.
  intros Hne Hlast Hx.
  destruct (rmatch (Seq (star space) (set cls)) bos (x ++ y) caps k)
    as [res|] eqn:E; auto.
  exfalso. cbn [rmatch star set] in E.
  apply rep_sound in E. destruct E as (m & s' & Hs & E & Hm & _).
  destruct s' as [|c s']; [discriminate|].
  destruct (in_cls false cls c) eqn:Hc; [|discriminate].
  clear E.
  destruct (Nat.lt_ge_cases (length m) (length x)) as [Hlt|Hge].
  - (* [c] lies in [x] *)
    assert (Hin : In c x).
    { assert (nth_error (x ++ y) (length m) = Some c) as Hn.
      { rewrite Hs. rewrite nth_error_app2 by lia.
        now rewrite Nat.sub_diag. }
      rewrite nth_error_app1 in Hn by lia. eapply nth_error_In; eauto. }
    rewrite Forall_forall in Hx. specialize (Hx c Hin). congruence.
  - (* [x] lies in the white space *)
    assert (Hpre : exists m2, m = x ++ m2).
    { exists (skipn (length x) m).
      assert (firstn (length x) (x ++ y) = firstn (length x) (m ++ c :: s'))
        as Hf by now rewrite Hs.
      rewrite firstn_app, firstn_all, Nat.sub_diag, firstn_O, app_nil_r in Hf.
      rewrite firstn_app in Hf.
      replace (length x - length m) with 0 in Hf by lia.
      rewrite firstn_O, app_nil_r in Hf.
      rewrite Hf at 1. now rewrite firstn_skipn. }
    destruct Hpre as (m2 & ->).
    apply Forall_app in Hm. destruct Hm as [Hxs _].
    destruct (rev x) as [|d rx] eqn:Er.
    + apply (f_equal (@rev char)) in Er. rewrite rev_involutive in Er.
      now apply Hne.
    + cbn [clean_head] in Hlast.
      assert (In d x) as Hd.
      { apply in_rev. rewrite Er. now left. }
      rewrite Forall_forall in Hxs. specialize (Hxs d Hd).
      unfold in_cls, space in Hxs. cbn [xorb] in Hxs.
      unfold Str.isspace in Hlast. congruence.
Qed.

(** The equations of the matcher. *)
Lemma rmatch_seq (R : Type) (a b : regex) (bos : bool) (s : str)
  (caps : captures) (k : bool -> str -> captures -> option R) :
  rmatch (Seq a b) bos s caps k
  = rmatch a bos s caps (fun bos' s' caps' => rmatch b bos' s' caps' k).
Proof. reflexivity. Qed.

Lemma rmatch_alt (R : Type) (a b : regex) (bos : bool) (s : str)
  (caps : captures) (k : bool -> str -> captures -> option R) :
  rmatch (Alt a b) bos s caps k
  = match rmatch a bos s caps k with
    | Some x => Some x
    | None => rmatch b bos s caps k
    end.
Proof. reflexivity. Qed.

Lemma rmatch_grp (R : Type) (i : nat) (a : regex) (bos : bool) (s : str)
  (caps : captures) (k : bool -> str -> captures -> option R) :
  rmatch (Grp i a) bos s caps k
  = rmatch a bos s caps
      (fun bos' s' caps' =>
         k bos' s' ((i, firstn (length s - length s') s) :: caps')).
Proof. reflexivity. Qed.

Lemma rmatch_rep (R : Type) (g : bool) (lo : nat) (hi : option nat)
  (neg : bool) (rs : list (char * char)) (bos : bool) (s : str)
  (caps : captures) (k : bool -> str -> captures -> option R) :
  rmatch (Rep g lo hi neg rs) bos s caps k
  = rep g (in_cls neg rs) lo hi bos s (fun bos' s' => k bos' s' caps).
Proof. reflexivity. Qed.

Lemma rmatch_ahead (R : Type) (a : regex) (bos : bool) (s : str)
  (caps : captures) (k : bool -> str -> captures -> option R) :
  rmatch (Ahead a) bos s caps k
  = match rmatch a bos s caps (fun _ _ _ => Some tt) with
    | Some _ => k bos s caps
    | None => None
    end.
Proof. reflexivity. Qed.

Lemma rmatch_cls (R : Type) (neg : bool) (rs : list (char * char))
  (bos : bool) (c : char) (s : str) (caps : captures)
  (k : bool -> str -> captures -> option R) :
  in_cls neg rs c = true ->
  rmatch (Cls neg rs) bos (c :: s) caps k = k false s caps.
Proof. intros H. cbn [rmatch]. now rewrite H. Qed.

Lemma eos_none (R : Type) (x y : str) (bos : bool) (caps : captures)
  (k : bool -> str -> captures -> option R) :
  x <> [] -> Forall (fun c => c <> 10%N) x ->
  rmatch Eos bos (x ++ y) caps k = None.
Proof.
  intros Hne Hx. destruct x as [|c x]; [congruence|].
  inversion Hx as [|c' x' Hc _]; subst. apply N.eqb_neq in Hc.
  cbn [app rmatch]. destruct (x ++ y); [now rewrite Hc|reflexivity].
Qed.

Lemma not_in_cls_neg (cls : list (char * char)) (v : str) :
  Forall (fun c => in_cls false cls c = false) v ->
  Forall (fun c => in_cls true cls c = true) v.
Proof.
  intros H. eapply Forall_impl; [|exact H]. intros c Hc. cbv beta in Hc.
  unfold in_cls in *. cbn [xorb] in *. now rewrite Hc.
Qed.

Lemma suffix_clean_last (p : char -> bool) (x1 x2 : str) :
  clean_head p (rev (x1 ++ x2)) -> x2 <> [] -> clean_head p (rev x2).
Proof.
  rewrite rev_app_distr. intros H Hne. apply clean_head_of_app in H; auto.
  intros E. apply (f_equal (@rev char)) in E. rewrite rev_involutive in E.
  now apply Hne.
Qed.

Lemma circled_not_space (c : char) :
  in_cls false circled c = true -> Str.isspace c = false.
Proof.
  intros H.
  apply (@in_cls_disjoint circled Str.whitespace c);
    [vm_compute; reflexivity|exact H].
Qed.

Lemma ahead_circled (rest : str) (caps : captures) :
  after_circled_entry rest ->
  rmatch (Alt (Seq (star space) (set circled)) Eos) false rest caps
    (fun _ _ _ => Some tt) = Some tt.
Proof.
  intros [->|(gap & c & more & -> & Hgap & Hc)].
  - reflexivity.
  - cbn [rmatch star set].
    rewrite (@rep_greedy_run _ (in_cls false space) _ tt (c :: more));
      auto.
    + cbn [clean_head]. now apply circled_not_space.
    + lia.
    + now rewrite Hc.
Qed.

(** An entry of a line of circled numbers is one match of
    [pattern_circled]. *)
Lemma match_circled_entry (circ : char) (sepstr v rest : str) (bos : bool) :
  in_cls false circled circ = true ->
  Forall (fun c => in_cls false sep_inline c = true) sepstr ->
  clean_head (in_cls false sep_inline) v ->
  circled_value v ->
  after_circled_entry rest ->
  match_here pattern_circled bos (circ :: sepstr ++ v ++ rest)
  = Some (S (length (sepstr ++ v)), [(2, v); (1, [circ])]).
Proof.
  intros Hcirc Hsep Hhead ((Hvne & Hnl & _ & Hlast) & Hnc & _) Hrest.
  unfold match_here, pattern_circled. cbn [seq].
  rewrite rmatch_seq, rmatch_grp. unfold set at 1.
  rewrite rmatch_cls by exact Hcirc.
  rewrite rmatch_seq. unfold star at 1. rewrite rmatch_rep.
  apply rep_greedy_run; auto.
  - now apply clean_head_app.
  - lia.
  - cbn [andb]. rewrite rmatch_seq, rmatch_grp.
    unfold lazy_plus. rewrite rmatch_rep.
    apply rep_lazy_run; auto using not_in_cls_neg.
    + intros x1 x2 -> Hx1 Hx2.
      apply Forall_app in Hnc, Hnl.
      destruct Hnc as [_ Hnc2]. destruct Hnl as [_ Hnl2].
      rewrite rmatch_ahead, rmatch_alt.
      rewrite no_space_then_cls; eauto using suffix_clean_last.
      rewrite eos_none; auto.
    + rewrite rmatch_ahead, ahead_circled by auto.
      rewrite firstn_consumed, firstn_one.
      do 2 f_equal. rewrite (app_assoc sepstr v rest).
      change (circ :: (sepstr ++ v) ++ rest)
        with ((circ :: sepstr ++ v) ++ rest).
      rewrite consumed_length. reflexivity.
Qed.

Lemma pattern_circled_not_here (c : char) (t : str) (bos : bool) :
  in_cls false circled c = false ->
  match_here pattern_circled bos (c :: t) = None.
Proof.
  intros H. unfold match_here, pattern_circled. cbn [seq rmatch set].
  now rewrite H.
Qed.

Lemma pattern_circled_not_at_end (bos : bool) :
  match_here pattern_circled bos [] = None.
Proof. reflexivity. Qed.

Lemma sep_line_is_inline (c : char) :
  in_cls false sep_circled_line c = true -> in_cls false sep_inline c = true.
Proof.
  unfold in_cls, sep_circled_line, sep_inline. cbn [xorb].
  rewrite !in_ranges_app. intros H.
  apply orb_true_iff in H. destruct H as [H|H]; [now rewrite H|].
  apply orb_true_iff in H. destruct H as [H|H];
    [rewrite H; now rewrite orb_true_r|].
  apply orb_true_iff in H. destruct H as [H|H];
    [rewrite H; now rewrite !orb_true_r|].
  unfold Str.in_ranges in H. cbn [existsb fst snd] in H.
  rewrite orb_false_r in H. apply andb_true_iff in H. destruct H as [H1 H2].
  apply N.leb_le in H1, H2. assert (c = 9%N) as -> by lia. reflexivity.
Qed.

Lemma sep_inline_is_sep_num (c : char) :
  in_cls false sep_inline c = true -> in_cls false sep_num_line c = true.
Proof.
  unfold in_cls, sep_num_line, sep_circled_line, sep_inline. cbn [xorb].
  rewrite !in_ranges_app. intros H.
  apply orb_true_iff in H. destruct H as [H|H]; [now rewrite H|].
  apply orb_true_iff in H. destruct H as [H|H];
    rewrite H; now rewrite ?orb_true_r.
Qed.

Lemma rstrip_no_comma (v : str) :
  clean_head (fun c => existsb (N.eqb c) (u ",、")) (rev v) ->
  Str.rstrip (u ",、") v = v.
Proof. intros H. unfold Str.rstrip. now apply rstrip_clean. Qed.

Lemma space_not_circled (c : char) :
  Str.isspace c = true -> in_cls false circled c = false.
Proof.
  intros H.
  apply (@in_cls_disjoint Str.whitespace circled c);
    [vm_compute; reflexivity|exact H].
Qed.

(** [findall] on a line of circled numbers yields the entries in order. *)
Lemma findall_circled_line (sepstr gap : str) :
  good_separator Circles sepstr -> good_gap gap ->
  forall vs i bos,
    vs <> [] -> i + length vs <= 20 -> Forall circled_value vs ->
    exists m ms,
      findall_from pattern_circled bos
        (Str.join gap (labeled_lines Circles sepstr i vs)) 0 = m :: ms /\
      map circled_entry (m :: ms) = label_entries (skipn i labels) vs.
Proof.
  intros (Hsep & _) Hgap.
  assert (Hsep' : Forall (fun c => in_cls false sep_inline c = true) sepstr).
  { eapply Forall_impl; [|exact Hsep]. intros c [H _].
    now apply sep_line_is_inline. }
  induction vs as [|v vs IH]; intros i bos Hne Hi Hvs; [congruence|].
  inversion Hvs as [|v' vs' Hv Hvs']; subst. cbn [length] in Hi.
  assert (Hi' : i < 20) by lia.
  destruct (circled_label Hi') as (HC & HS & Hdict).
  destruct (labeled_join_head Circles sepstr gap v vs i)
    as (t & Ht & Hnil & Hcons).
  cbn [label_text] in Ht. set (C := nth i circled_labels 0%N) in *.
  cbn [app] in Ht.
  pose proof Hv as (Hgv & _ & Hcomma).
  assert (Hhead : clean_head (in_cls false sep_inline) v).
  { destruct Hgv as (_ & _ & Hh & _).
    eapply clean_head_weaken; [|exact Hh]. apply sep_inline_is_sep_num. }
  assert (Hentry : circled_entry {| whole := firstn (S (length (sepstr ++ v)))
                                              (C :: sepstr ++ v ++ t);
                                    groups := [(2, v); (1, [C])] |}
                   = entry [nth i labels 0%N] v).
  { unfold circled_entry, group_or_empty, group.
    cbn [groups lookup Nat.eqb].
    fold C. rewrite Hdict, (good_value_strip Hgv), rstrip_no_comma by auto.
    reflexivity. }
  assert (Hskip : skipn (S (length (sepstr ++ v))) (C :: sepstr ++ v ++ t) = t).
  { cbn [skipn]. rewrite app_assoc.
    rewrite skipn_app, skipn_all, Nat.sub_diag. reflexivity. }
  assert (H26 : i < length labels) by (change (length labels) with 26; lia).
  destruct vs as [|v2 vs].
  - rewrite (Hnil eq_refl) in *. rewrite Ht.
    eexists. eexists. split.
    + rewrite (@findall_from_match _ _ _ (length (sepstr ++ v))
                 [(2, v); (1, [C])]).
      * rewrite Hskip. reflexivity.
      * apply match_circled_entry; auto. now left.
    + cbn [map findall_from]. rewrite Hentry.
      rewrite label_entries_step by auto.
      destruct (skipn (S i) labels); reflexivity.
  - assert (Hvs2 : v2 :: vs <> []) by discriminate.
    rewrite (Hcons Hvs2) in *.
    destruct (IH (S i) false Hvs2) as (m & ms & Hfind & Hmap); auto.
    { cbn [length] in *. lia. }
    rewrite Ht. eexists. eexists. split.
    + rewrite (@findall_from_match _ _ _ (length (sepstr ++ v))
                 [(2, v); (1, [C])]).
      * rewrite Hskip. rewrite findall_from_gap.
        -- rewrite Hfind. reflexivity.
        -- eapply Forall_impl; [|exact Hgap]. intros c [Hc _] t0.
           apply pattern_circled_not_here. now apply space_not_circled.
      * apply match_circled_entry; auto. right.
        destruct (labeled_join_head Circles sepstr gap v2 vs (S i))
          as (t2 & Ht2 & _).
        cbn [label_text app] in Ht2.
        exists gap. eexists. eexists. split; [now rewrite Ht2|].
        split.
        -- eapply Forall_impl; [|exact Hgap]. now intros c [Hc _].
        -- assert (S i < 20) as Hi2 by (cbn [length] in *; lia).
           now destruct (circled_label Hi2).
    + cbn [map]. rewrite Hentry.
      rewrite label_entries_step by auto. f_equal. exact Hmap.
Qed.

(** ** The single-line branch of [format_answer] *)

Lemma no_break_split (a : str) :
  Forall (fun x => x <> 10%N) a -> Str.split 10%N a = [a].
Proof. apply split_one. Qed.

(** A single line on which [pattern_circled] matches is answered by the
    entries of its matches. *)
Lemma format_answer_inline_circled (a : str) (n : Z) (m : match_obj)
  (ms : list match_obj) :
  (2 <= n)%Z -> Str.strip a = a -> strip_answer_prefix a = a ->
  Forall (fun x => x <> 10%N) a ->
  findall pattern_circled a = m :: ms ->
  format_answer a n
  = Ok (ANSWER_MARK ++ Str.join SEPARATOR (map circled_entry (m :: ms))).
Proof.
  intros Hn Hstrip Hpre Hnl Hfind. unfold format_answer.
  destruct (n =? 0)%Z eqn:E0; [lia|]. destruct (n =? 1)%Z eqn:E1; [lia|].
  rewrite Hstrip, sub_answer_prefix, Hpre, Hstrip, split_one by auto.
  cbn [length Nat.leb]. rewrite Hfind. reflexivity.
Qed.

(** A single line without a match of [pattern_circled] on which
    [pattern_comma] matches is answered by the entries of those matches. *)
Lemma format_answer_inline_comma (a : str) (n : Z) (m : match_obj)
  (ms : list match_obj) :
  (2 <= n)%Z -> Str.strip a = a -> strip_answer_prefix a = a ->
  Forall (fun x => x <> 10%N) a ->
  findall pattern_circled a = [] ->
  findall pattern_comma a = m :: ms ->
  format_answer a n
  = Ok (ANSWER_MARK ++ Str.join SEPARATOR (map comma_entry (m :: ms))).
Proof.
  intros Hn Hstrip Hpre Hnl Hnone Hfind. unfold format_answer.
  destruct (n =? 0)%Z eqn:E0; [lia|]. destruct (n =? 1)%Z eqn:E1; [lia|].
  rewrite Hstrip, sub_answer_prefix, Hpre, Hstrip, split_one by auto.
  cbn [length Nat.leb]. rewrite Hnone, Hfind. reflexivity.
Qed.

Lemma joined_no_break (nt : notation) (sepstr gap : str) :
  good_separator nt sepstr -> Forall (fun x => x <> 10%N) gap ->
  forall vs i,
    i + length vs <= max_entries nt -> Forall good_value vs ->
    Forall (fun x => x <> 10%N) (Str.join gap (labeled_lines nt sepstr i vs)).
Proof.
  intros Hsep Hgap. induction vs as [|v vs IH]; intros i Hi Hvs.
  - constructor.
  - inversion Hvs as [|v' vs' Hv Hvs']; subst. cbn [length] in Hi.
    destruct (labeled_join_head nt sepstr gap v vs i) as (t & -> & Hnil & Hcons).
    rewrite !app_assoc. apply Forall_app. split.
    + rewrite <- app_assoc. apply line_no_break; auto. lia.
    + destruct vs as [|v2 vs].
      * rewrite Hnil by reflexivity. constructor.
      * rewrite Hcons by discriminate. apply Forall_app. split; auto.
        apply IH; auto. cbn [length] in *. lia.
Qed.

(** The answer text of labeled entries has no space around it and does
    not begin with the mark. *)
Lemma joined_is_stripped (nt : notation) (sepstr gap : str) (vs : list str) :
  vs <> [] -> length vs <= max_entries nt -> Forall good_value vs ->
  let a := Str.join gap (labeled_lines nt sepstr 0 vs) in
  Str.strip a = a /\ strip_answer_prefix a = a.
Proof.
  intros Hne Hlen Hvs a.
  destruct vs as [|v vs]; [congruence|].
  destruct (@labeled_join_last nt sepstr gap (v :: vs) 0) as [Hlast _]; auto.
  fold a in Hlast.
  assert (H0 : 0 < max_entries nt) by (cbn [length] in Hlen; lia).
  destruct (label_text_facts nt H0) as (c & l & Hlab & Hsp & Hc & _).
  destruct (labeled_join_head nt sepstr gap v vs 0) as (t & Ht & _).
  fold a in Ht. rewrite Hlab in Ht. cbn [app] in Ht.
  split.
  - apply strip_clean; auto. rewrite Ht. exact Hsp.
  - rewrite Ht. now apply strip_answer_prefix_other.
Qed.

(** X15: circled numbers in order on one line, each with its value, come
    back lettered A, B, ... in that order, each with its value. *)
Lemma format_answer_circled_line (sepstr gap : str) (vs : list str) :
  2 <= length vs <= 20 ->
  good_separator Circles sepstr -> good_gap gap ->
  Forall circled_value vs ->
  format_answer (single_line_answer Circles sepstr gap vs)
    (Z.of_nat (length vs))
  = Ok (render_entries vs).
Proof.
  intros [Hlo Hhi] Hsep Hgap Hvs. unfold single_line_answer.
  assert (Hne : vs <> []) by (destruct vs; [simpl in Hlo; lia|discriminate]).
  assert (Hgv : Forall good_value vs).
  { eapply Forall_impl; [|exact Hvs]. now intros v [H _]. }
  destruct (@joined_is_stripped Circles sepstr gap vs) as [Hstrip Hpre]; auto.
  destruct (@findall_circled_line sepstr gap Hsep Hgap vs 0 true)
    as (m & ms & Hfind & Hmap); auto.
  rewrite (@format_answer_inline_circled _ _ m ms); auto; [|lia|].
  - rewrite Hmap. reflexivity.
  - apply joined_no_break; auto.
    eapply Forall_impl; [|exact Hgap]. now intros c [_ H].
Qed.

Lemma format_answer_circled_line_witness :
  2 <= length [u "赤血球"; u "白血球"; u "血小板"] <= 20 /\
  good_separator Circles [] /\ good_gap (u " ") /\
  Forall circled_value [u "赤血球"; u "白血球"; u "血小板"] /\
  format_answer
    (single_line_answer Circles [] (u " ")
       [u "赤血球"; u "白血球"; u "血小板"]) 3
  = Ok (u "正解：A. 赤血球　　B. 白血球　　C. 血小板").
Proof.
  assert (Hlen : 2 <= length [u "赤血球"; u "白血球"; u "血小板"] <= 20)
    by (cbn [length]; lia).
  assert (Hsep : good_separator Circles [])
    by (split; [constructor|now left]).
  assert (Hgap : good_gap (u " ")).
  { repeat constructor; try discriminate; vm_compute; reflexivity. }
  assert (Hvs : Forall circled_value [u "赤血球"; u "白血球"; u "血小板"]).
  { repeat constructor; try discriminate; vm_compute; reflexivity. }
  split; [exact Hlen|]. split; [exact Hsep|]. split; [exact Hgap|].
  split; [exact Hvs|].
  exact (format_answer_circled_line Hlen Hsep Hgap Hvs).
Defined.


(** ** Letters on one line, separated by commas *)

Lemma rmatch_seq_assoc (R : Type) (a b c : regex) (bos : bool) (s : str)
  (caps : captures) (k : bool -> str -> captures -> option R) :
  rmatch (Seq a (Seq b c)) bos s caps k
  = rmatch (Seq a b) bos s caps
      (fun bos' s' caps' => rmatch c bos' s' caps' k).
Proof. reflexivity. Qed.

Lemma letter_not_space (c : char) :
  in_cls false letters c = true -> Str.isspace c = false.
Proof.
  intros H.
  apply (@in_cls_disjoint letters Str.whitespace c);
    [vm_compute; reflexivity|exact H].
Qed.

Lemma letter_not_circled (c : char) :
  in_cls false letters c = true -> in_cls false circled c = false.
Proof.
  intros H.
  apply (@in_cls_disjoint letters circled c);
    [vm_compute; reflexivity|exact H].
Qed.

Lemma comma_then_letter (c : char) (more : str) (caps : captures) :
  in_cls false letters c = true ->
  rmatch (seq [star space; set (chars (u ",、")); star space;
               set letters; set label_sep])
    false (ch "," :: ch " " :: c :: ch "." :: more) caps
    (fun _ _ _ => Some tt) = Some tt.
Proof.
  intros Hc. cbn [seq]. rewrite rmatch_seq.
  unfold star at 1. rewrite rmatch_rep.
  change (ch "," :: ch " " :: c :: ch "." :: more)
    with ([] ++ ch "," :: ch " " :: c :: ch "." :: more).
  apply rep_greedy_run.
  - reflexivity.
  - constructor.
  - cbn [length]. lia.
  - cbn [andb is_nil].
    rewrite rmatch_seq. unfold set at 1.
    rewrite rmatch_cls by reflexivity.
    rewrite rmatch_seq. unfold star at 1. rewrite rmatch_rep.
    change (ch " " :: c :: ch "." :: more)
      with ([ch " "] ++ c :: ch "." :: more).
    apply rep_greedy_run.
    + cbn [clean_head]. now apply letter_not_space.
    + repeat constructor.
    + cbn [length]. lia.
    + cbn [andb is_nil].
      rewrite rmatch_seq. unfold set at 1.
      rewrite rmatch_cls by exact Hc.
      unfold set. now rewrite rmatch_cls by reflexivity.
Qed.

Lemma ahead_comma (rest : str) (caps : captures) :
  after_comma_entry rest ->
  rmatch (Alt (seq [star space; set (chars (u ",、")); star space;
                    set letters; set label_sep]) Eos)
    false rest caps (fun _ _ _ => Some tt) = Some tt.
Proof.
  intros [->|(c & more & -> & Hc)].
  - reflexivity.
  - change (u ", " ++ c :: ch "." :: more)
      with (ch "," :: ch " " :: c :: ch "." :: more).
    rewrite rmatch_alt. now rewrite comma_then_letter.
Qed.

(** An entry of a comma-separated line is one match of [pattern_comma]. *)
Lemma match_comma_entry (L : char) (v rest : str) (bos : bool) :
  in_cls false letters L = true ->
  comma_value v ->
  after_comma_entry rest ->
  match_here pattern_comma bos (L :: u ". " ++ v ++ rest)
  = Some (S (S (S (length v))), [(2, v); (1, [L])]).
Proof.
  intros HL ((Hvne & Hnl & Hhead & Hlast) & Hnc) Hrest.
  assert (Hnocomma : Forall (fun c => in_cls false (chars (u ",、")) c = false) v).
  { eapply Forall_impl; [|exact Hnc]. now intros c [_ H]. }
  unfold match_here, pattern_comma. cbn [seq].
  change (L :: u ". " ++ v ++ rest) with (L :: ch "." :: [ch " "] ++ v ++ rest).
  rewrite rmatch_seq, rmatch_grp. unfold set at 1.
  rewrite rmatch_cls by exact HL.
  rewrite rmatch_seq. unfold set at 1. rewrite rmatch_cls by reflexivity.
  rewrite rmatch_seq. unfold star at 1. rewrite rmatch_rep.
  apply rep_greedy_run.
  - apply clean_head_app; auto.
    eapply clean_head_weaken; [|exact Hhead]. intros c Hc.
    apply space_is_sep. exact Hc.
  - repeat constructor.
  - cbn [length]. lia.
  - cbn [andb]. rewrite rmatch_seq, rmatch_grp.
    unfold lazy_plus. rewrite rmatch_rep.
    apply rep_lazy_run; auto using dot_plus_run.
    + intros x1 x2 -> Hx1 Hx2.
      apply Forall_app in Hnocomma, Hnl.
      destruct Hnocomma as [_ Hc2]. destruct Hnl as [_ Hnl2].
      rewrite rmatch_ahead, rmatch_alt. cbn [seq].
      rewrite rmatch_seq_assoc.
      rewrite no_space_then_cls; eauto using suffix_clean_last.
      rewrite eos_none; auto.
    + rewrite rmatch_ahead, ahead_comma by auto.
      rewrite firstn_consumed, firstn_one.
      do 2 f_equal.
      change (L :: ch "." :: [ch " "] ++ v ++ rest)
        with ((L :: ch "." :: ch " " :: v) ++ rest).
      rewrite consumed_length. reflexivity.
Qed.

Lemma pattern_comma_not_here (c : char) (t : str) (bos : bool) :
  in_cls false letters c = false ->
  match_here pattern_comma bos (c :: t) = None.
Proof.
  intros H. unfold match_here, pattern_comma. cbn [seq].
  rewrite rmatch_seq, rmatch_grp. unfold set at 1. cbn [rmatch].
  now rewrite H.
Qed.

Lemma upper_letter_label (i : nat) :
  i < 26 -> Str.upper [nth i labels 0%N] = [nth i labels 0%N].
Proof. intros H. now destruct (letter_label H) as (_ & _ & _ & _ & HU). Qed.

Lemma no_comma_last (v : str) :
  Forall (fun c => in_cls false circled c = false /\
                   in_cls false (chars (u ",、")) c = false) v ->
  clean_head (fun c => existsb (N.eqb c) (u ",、")) (rev v).
Proof.
  intros H. apply Forall_rev in H.
  destruct (rev v) as [|c t]; [exact I|].
  inversion H as [|c' t' [_ Hc] _]; subst. cbn [clean_head].
  unfold in_cls, Str.in_ranges in Hc. cbn [xorb chars map existsb fst snd] in Hc.
  change (u ",、") with [ch ","; ch "、"]. cbn [existsb].
  rewrite !orb_false_r in *.
  apply orb_false_iff in Hc. destruct Hc as [H1 H2].
  apply orb_false_iff. split.
  - destruct (N.eqb_spec c (ch ",")) as [->|]; auto.
  - destruct (N.eqb_spec c (ch "、")) as [->|]; auto.
Qed.

(** [findall] on a comma-separated line yields the entries in order. *)
Lemma findall_comma_line :
  forall vs i bos,
    vs <> [] -> i + length vs <= 26 -> Forall comma_value vs ->
    exists m ms,
      findall_from pattern_comma bos
        (Str.join (u ", ") (labeled_lines Letters (u ". ") i vs)) 0 = m :: ms /\
      map comma_entry (m :: ms) = label_entries (skipn i labels) vs.
Proof.
  induction vs as [|v vs IH]; intros i bos Hne Hi Hvs; [congruence|].
  inversion Hvs as [|v' vs' Hv Hvs']; subst. cbn [length] in Hi.
  assert (Hi' : i < 26) by lia.
  destruct (letter_label Hi') as (HL & _ & _ & _ & HU).
  destruct (labeled_join_head Letters (u ". ") (u ", ") v vs i)
    as (t & Ht & Hnil & Hcons).
  cbn [label_text] in Ht. set (L := nth i labels 0%N) in *.
  cbn [app] in Ht.
  pose proof Hv as (Hgv & Hnc).
  assert (Hentry : comma_entry {| whole := firstn (S (S (S (length v))))
                                             (L :: u ". " ++ v ++ t);
                                  groups := [(2, v); (1, [L])] |}
                   = entry [nth i labels 0%N] v).
  { unfold comma_entry, group_or_empty, group.
    cbn [groups lookup Nat.eqb].
    fold L. rewrite HU, (good_value_strip Hgv), rstrip_no_comma
      by now apply no_comma_last.
    reflexivity. }
  assert (Hskip : skipn (S (S (S (length v)))) (L :: u ". " ++ v ++ t) = t).
  { change (L :: u ". " ++ v ++ t) with (L :: ch "." :: ch " " :: v ++ t).
    cbn [skipn]. rewrite skipn_app, skipn_all, Nat.sub_diag. reflexivity. }
  assert (H26 : i < length labels) by (change (length labels) with 26; lia).
  destruct vs as [|v2 vs].
  - rewrite (Hnil eq_refl) in *. rewrite Ht.
    eexists. eexists. split.
    + rewrite (@findall_from_match _ _ _ (S (S (length v)))
                 [(2, v); (1, [L])]).
      * rewrite Hskip. reflexivity.
      * apply match_comma_entry; auto. now left.
    + cbn [map findall_from]. rewrite Hentry.
      rewrite label_entries_step by auto.
      destruct (skipn (S i) labels); reflexivity.
  - assert (Hvs2 : v2 :: vs <> []) by discriminate.
    rewrite (Hcons Hvs2) in *.
    destruct (IH (S i) false Hvs2) as (m & ms & Hfind & Hmap); auto.
    { cbn [length] in *. lia. }
    rewrite Ht. eexists. eexists. split.
    + rewrite (@findall_from_match _ _ _ (S (S (length v)))
                 [(2, v); (1, [L])]).
      * rewrite Hskip. rewrite findall_from_gap.
        -- rewrite Hfind. reflexivity.
        -- repeat constructor; intros t0;
             apply pattern_comma_not_here; reflexivity.
      * apply match_comma_entry; auto. right.
        destruct (labeled_join_head Letters (u ". ") (u ", ") v2 vs (S i))
          as (t2 & Ht2 & _).
        cbn [label_text app] in Ht2.
        eexists. eexists. split.
        -- rewrite Ht2. reflexivity.
        -- assert (S i < 26) as Hi2 by (cbn [length] in *; lia).
           now destruct (letter_label Hi2).
    + cbn [map]. rewrite Hentry.
      rewrite label_entries_step by auto. f_equal. exact Hmap.
Qed.

(** No match begins in a text without a character that begins one. *)
Lemma findall_none (r : regex) (s : str) :
  Forall (fun c => forall t b, match_here r b (c :: t) = None) s ->
  (forall b, match_here r b [] = None) ->
  forall bos, findall_from r bos s 0 = [].
Proof.
  intros H Hnil. induction H as [|c s Hc _ IH]; intros bos.
  - cbn [findall_from]. now rewrite Hnil.
  - cbn [findall_from]. rewrite Hc. apply IH.
Qed.

Lemma comma_line_not_circled :
  forall vs i,
    i + length vs <= 26 -> Forall comma_value vs ->
    Forall (fun c => in_cls false circled c = false)
      (Str.join (u ", ") (labeled_lines Letters (u ". ") i vs)).
Proof.
  induction vs as [|v vs IH]; intros i Hi Hvs.
  - constructor.
  - inversion Hvs as [|v' vs' [_ Hv] Hvs']; subst. cbn [length] in Hi.
    destruct (labeled_join_head Letters (u ". ") (u ", ") v vs i)
      as (t & -> & Hnil & Hcons).
    assert (Hi' : i < 26) by lia.
    destruct (letter_label Hi') as (_ & HC & _).
    cbn [label_text app]. constructor; [exact HC|].
    apply Forall_app. split; [repeat constructor|].
    apply Forall_app. split.
    + eapply Forall_impl; [|exact Hv]. now intros c [H _].
    + destruct vs as [|v2 vs].
      * rewrite Hnil by reflexivity. constructor.
      * rewrite Hcons by discriminate. apply Forall_app.
        split; [repeat constructor|].
        apply IH; auto. cbn [length] in *. lia.
Qed.

(** X16: letters in order on one line, written [A. v1, B. v2, ...], come
    back as the entries A, B, ... in that order, each with its value. *)
Lemma format_answer_comma_line (vs : list str) :
  2 <= length vs <= 26 ->
  Forall comma_value vs ->
  format_answer (single_line_answer Letters (u ". ") (u ", ") vs)
    (Z.of_nat (length vs))
  = Ok (render_entries vs).
Proof.
  intros [Hlo Hhi] Hvs. unfold single_line_answer.
  assert (Hne : vs <> []) by (destruct vs; [simpl in Hlo; lia|discriminate]).
  assert (Hgv : Forall good_value vs).
  { eapply Forall_impl; [|exact Hvs]. now intros v [H _]. }
  destruct (@joined_is_stripped Letters (u ". ") (u ", ") vs)
    as [Hstrip Hpre]; auto.
  destruct (@findall_comma_line vs 0 true) as (m & ms & Hfind & Hmap); auto.
  rewrite (@format_answer_inline_comma _ _ m ms); auto; try lia.
  - rewrite Hmap. reflexivity.
  - apply joined_no_break; auto.
    + split; [repeat constructor; try reflexivity; discriminate|].
      right. discriminate.
    + repeat constructor; discriminate.
  - apply findall_none; [|reflexivity].
    eapply Forall_impl; [|apply comma_line_not_circled; eauto].
    intros c Hc t b. now apply pattern_circled_not_here.
Qed.

Lemma format_answer_comma_line_witness :
  2 <= length [u "赤血球"; u "白血球"] <= 26 /\
  Forall comma_value [u "赤血球"; u "白血球"] /\
  format_answer
    (single_line_answer Letters (u ". ") (u ", ") [u "赤血球"; u "白血球"]) 2
  = Ok (u "正解：A. 赤血球　　B. 白血球").
Proof.
  assert (Hlen : 2 <= length [u "赤血球"; u "白血球"] <= 26)
    by (cbn [length]; lia).
  assert (Hvs : Forall comma_value [u "赤血球"; u "白血球"]).
  { repeat constructor; try discriminate; vm_compute; reflexivity. }
  split; [exact Hlen|]. split; [exact Hvs|].
  exact (format_answer_comma_line Hlen Hvs).
Defined.


(** * Texts in which a pattern cannot match *)

Lemma subset_ranges_in (rs P : list (char * char)) (c : char) :
  subset_ranges rs P = true ->
  Str.in_ranges rs c = true -> Str.in_ranges P c = true.
Proof.
  unfold subset_ranges, Str.in_ranges. intros Hsub Hin.
  apply existsb_exists in Hin. destruct Hin as (r & Hr & Hc).
  rewrite forallb_forall in Hsub. specialize (Hsub r Hr).
  apply existsb_exists in Hsub. destruct Hsub as (q & Hq & Hrq).
  apply existsb_exists. exists q. split; auto.
  apply andb_true_iff in Hc, Hrq. destruct Hc as [H1 H2], Hrq as [H3 H4].
  apply N.leb_le in H1, H2, H3, H4.
  apply andb_true_iff. split; apply N.leb_le; lia.
Qed.

Lemma rep_needs (R : Type) (greedy : bool) (p : char -> bool) :
  forall s lo hi bos (k : bool -> str -> option R) x,
    rep greedy p lo hi bos s k = Some x ->
    exists m s' b', s = m ++ s' /\ k b' s' = Some x /\
                    Forall (fun c => p c = true) m /\ lo <= length m.
Proof.
  intros s lo hi bos k x H. apply rep_sound in H.
  destruct H as (m & s' & Hs & Hk & Hm & Hlo). eauto 8.
Qed.

(** A match of a pattern that needs [P] took a character of [P]. *)
Lemma rmatch_needs (P : list (char * char)) (R : Type) (r : regex) :
  forall bos s caps (k : bool -> str -> captures -> option R) x,
    rmatch r bos s caps k = Some x ->
    exists m s' b' caps',
      s = m ++ s' /\ k b' s' caps' = Some x /\
      (needs P r = true -> Exists (fun c => Str.in_ranges P c = true) m).
Proof.
  revert R.
  induction r as [ | neg rs | a IHa b IHb | a IHa b IHb
                 | g lo hi neg rs | i a IHa | a IHa | | ];
    intros R bos s caps k x H; cbn [rmatch] in H.
  - exists [], s, bos, caps. repeat split; auto. discriminate.
  - destruct s as [|c s]; [discriminate|].
    destruct (in_cls neg rs c) eqn:Hc; [|discriminate].
    exists [c], s, false, caps. repeat split; auto.
    cbn [needs]. intros Hn. apply andb_true_iff in Hn. destruct Hn as [Hneg Hsub].
    apply negb_true_iff in Hneg. subst neg.
    constructor. eapply subset_ranges_in; eauto.
  - apply IHa in H. destruct H as (m1 & s1 & b1 & caps1 & -> & H & Ha).
    apply IHb in H. destruct H as (m2 & s2 & b2 & caps2 & -> & H & Hb).
    exists (m1 ++ m2), s2, b2, caps2. rewrite app_assoc.
    repeat split; auto.
    cbn [needs]. intros Hn. apply orb_true_iff in Hn.
    apply Exists_app. destruct Hn as [Hn|Hn]; auto.
  - destruct (rmatch a bos s caps k) eqn:E.
    + injection H as <-. apply IHa in E.
      destruct E as (m & s' & b' & caps' & -> & Hk & Ha).
      exists m, s', b', caps'. repeat split; auto.
      cbn [needs]. intros Hn. apply andb_true_iff in Hn. now apply Ha.
    + apply IHb in H.
      destruct H as (m & s' & b' & caps' & -> & Hk & Hb).
      exists m, s', b', caps'. repeat split; auto.
      cbn [needs]. intros Hn. apply andb_true_iff in Hn. now apply Hb.
  - apply rep_needs in H. destruct H as (m & s' & b' & -> & Hk & Hm & Hlo).
    exists m, s', b', caps. repeat split; auto.
    cbn [needs]. intros Hn.
    apply andb_true_iff in Hn. destruct Hn as [Hn Hsub].
    apply andb_true_iff in Hn. destruct Hn as [Hpos Hneg].
    apply Nat.ltb_lt in Hpos. apply negb_true_iff in Hneg. subst neg.
    destruct m as [|c m]; [simpl in Hlo; lia|].
    inversion Hm; subst. constructor. eapply subset_ranges_in; eauto.
  - apply IHa in H. destruct H as (m & s' & b' & caps' & -> & Hk & Ha).
    eexists m, s', b', _. repeat split; eauto.
  - destruct (rmatch a bos s caps (fun _ _ _ => Some tt)); [|discriminate].
    exists [], s, bos, caps. repeat split; auto. discriminate.
  - destruct bos; [|discriminate].
    exists [], s, true, caps. repeat split; auto. discriminate.
  - assert (k bos s caps = Some x) as Hk.
    { destruct s as [|c [|]]; auto; [|discriminate].
      destruct (c =? 10)%N; [auto|discriminate]. }
    exists [], s, bos, caps. repeat split; auto. discriminate.
Qed.

(** A pattern that needs [P] matches nowhere in a text that lacks [P]. *)
Lemma match_here_lacks (P : list (char * char)) (r : regex) (bos : bool)
  (s : str) :
  needs P r = true -> lacks P s -> match_here r bos s = None.
Proof.
  intros Hn Hs. unfold match_here.
  destruct (rmatch r bos s [] _) as [x|] eqn:E; auto.
  apply (rmatch_needs P) in E.
  destruct E as (m & s' & b' & caps' & -> & _ & Hex).
  apply Hex in Hn. apply Forall_app in Hs. destruct Hs as [Hm _].
  apply Exists_exists in Hn. destruct Hn as (c & Hc & Hp).
  rewrite Forall_forall in Hm. specialize (Hm c Hc). congruence.
Qed.

(** The check by evaluation that a text has no character of [P]. *)
Lemma lacks_forallb (P : list (char * char)) (s : str) :
  forallb (fun c => negb (Str.in_ranges P c)) s = true -> lacks P s.
Proof.
  intros H. apply Forall_forall. intros c Hc.
  rewrite forallb_forall in H. apply H in Hc.
  now apply negb_true_iff in Hc.
Qed.

Lemma lacks_suffix (P : list (char * char)) (x y : str) :
  lacks P (x ++ y) -> lacks P y.
Proof. intros H. apply Forall_app in H. tauto. Qed.

(** [re.sub] returns such a text as it is. *)
Lemma sub_with_lacks (P : list (char * char)) (r : regex)
  (repl : match_obj -> str) (s : str) :
  needs P r = true -> lacks P s -> sub_with r repl s = s.
Proof.
  intros Hn Hs. unfold sub_with. apply sub_from_no_match.
  intros x y bos ->. apply (match_here_lacks (P := P)); auto.
  eapply lacks_suffix; eauto.
Qed.

Lemma sub_lacks (P : list (char * char)) (r : regex) (repl s : str) :
  needs P r = true -> lacks P s -> sub r repl s = s.
Proof. apply sub_with_lacks. Qed.

(** And [re.findall] finds nothing in it. *)
Lemma findall_lacks (P : list (char * char)) (r : regex) (s : str) :
  needs P r = true -> lacks P s -> findall r s = [].
Proof.
  intros Hn Hs. unfold findall. generalize true.
  induction s as [|c s IH]; intros bos; cbn [findall_from];
    rewrite (match_here_lacks (P := P)) by auto; auto.
  apply IH. inversion Hs; auto.
Qed.

(** A table of rules that all need [P] returns such a text as it is. *)
Lemma apply_table_lacks (P : list (char * char))
  (table : list (regex * str)) (s : str) :
  forallb (fun rule => needs P (fst rule)) table = true ->
  lacks P s -> apply_table table s = s.
Proof.
  unfold apply_table. intros Ht Hs.
  induction table as [|rule table IH]; auto.
  cbn [forallb] in Ht. apply andb_true_iff in Ht. destruct Ht as [Hr Ht].
  cbn [fold_left]. rewrite (sub_lacks (P := P)) by auto. now apply IH.
Qed.

(** X6: the register converter returns a text without hiragana as it
    is. *)
Lemma convert_desu_masu_lacks_hiragana (s : str) :
  lacks hiragana s -> convert_desu_masu s = s.
Proof.
  intros H. unfold convert_desu_masu.
  rewrite (@apply_table_lacks hiragana QUESTION_END_PATTERNS s);
    [|vm_compute; reflexivity|exact H].
  apply (@apply_table_lacks hiragana); [vm_compute; reflexivity|exact H].
Qed.

Lemma convert_desu_masu_lacks_hiragana_witness :
  lacks hiragana (u "ＡＴＰ合成酵素（）。") /\
  convert_desu_masu (u "ＡＴＰ合成酵素（）。") = u "ＡＴＰ合成酵素（）。".
Proof.
  assert (H : lacks hiragana (u "ＡＴＰ合成酵素（）。"))
    by (apply lacks_forallb; vm_compute; reflexivity).
  split; [exact H|].
  exact (convert_desu_masu_lacks_hiragana H).
Defined.


(** * Questions without a blank *)

Lemma blank_patterns_lacks (s : str) :
  lacks blank_triggers s ->
  fold_left (fun result pattern => sub pattern MARKER result)
    BLANK_PATTERNS s = s.
Proof.
  intros Hs.
  assert (H : forallb (needs blank_triggers) BLANK_PATTERNS = true)
    by (vm_compute; reflexivity).
  induction BLANK_PATTERNS as [|r rs IH]; auto.
  cbn [forallb] in H. apply andb_true_iff in H. destruct H as [Hr Hrs].
  cbn [fold_left]. rewrite (sub_lacks (P := blank_triggers)) by auto.
  now apply IH.
Qed.

Lemma protect_all_lacks (set_order : list str) (s : str) :
  Forall (fun l => In l exclude_letters_before_cell) set_order ->
  lacks blank_triggers s -> protect_all set_order s = s.
Proof.
  intros Ho Hs. unfold protect_all.
  induction Ho as [|l ls Hl _ IH]; auto.
  cbn [fold_left].
  assert (Hn : needs blank_triggers (protect_pattern l) = true).
  { cbn [exclude_letters_before_cell In] in Hl.
    destruct Hl as [<-|[<-|[<-|[<-|[]]]]]; vm_compute; reflexivity. }
  rewrite (@sub_with_lacks blank_triggers _ _ s Hn Hs). exact IH.
Qed.

Lemma restore_all_lacks (set_order : list str) (s : str) :
  Forall (fun l => In l exclude_letters_before_cell) set_order ->
  lacks blank_triggers s -> restore_all set_order s = s.
Proof.
  intros Ho Hs. unfold restore_all.
  induction Ho as [|l ls Hl _ IH]; auto.
  cbn [fold_left].
  assert (Hn : needs blank_triggers (protect_restore_pattern l) = true).
  { cbn [exclude_letters_before_cell In] in Hl.
    destruct Hl as [<-|[<-|[<-|[<-|[]]]]]; vm_compute; reflexivity. }
  rewrite (@sub_with_lacks blank_triggers _ _ s Hn Hs). exact IH.
Qed.

Lemma standalone_loop_lacks (fuel : nat) (s : str) :
  lacks blank_triggers s -> standalone_loop (S fuel) s = Ok s.
Proof.
  intros Hs. cbn [standalone_loop].
  rewrite sub_res_standalone_pure.
  assert (Hn : needs blank_triggers standalone_pattern = true)
    by (vm_compute; reflexivity).
  rewrite (@sub_with_lacks blank_triggers _ _ s Hn Hs).
  cbn [bind]. now rewrite str_eqb_refl.
Qed.

(** Blank normalization returns a text without an opening bracket, an
    underscore or an uppercase letter as it is. *)
Lemma normalize_blanks_lacks (set_order : list str) (s : str) :
  Forall (fun l => In l exclude_letters_before_cell) set_order ->
  lacks blank_triggers s -> normalize_blanks set_order s = Ok s.
Proof.
  intros Ho Hs. unfold normalize_blanks.
  rewrite blank_patterns_lacks by auto.
  unfold normalize_standalone_letters.
  rewrite protect_all_lacks by auto.
  rewrite sub_res_tech.
  assert (Hn1 : needs blank_triggers tech_pattern = true)
    by (vm_compute; reflexivity).
  assert (Hn2 : needs blank_triggers tech_restore_pattern = true)
    by (vm_compute; reflexivity).
  rewrite (@sub_with_lacks blank_triggers _ _ s Hn1 Hs).
  cbn [bind]. unfold loop_fuel. rewrite standalone_loop_lacks by auto.
  cbn [bind].
  rewrite (@sub_with_lacks blank_triggers _ _ s Hn2 Hs).
  rewrite (@restore_all_lacks set_order s Ho Hs).
  now rewrite (@restore_all_lacks set_order s Ho Hs).
Qed.

Lemma lacks_no_marker (s : str) : lacks blank_triggers s -> marker_free s.
Proof.
  unfold marker_free. induction 1 as [|c s Hc Hs IH]; auto.
  cbn [occurs].
  destruct (Str.strip_prefix MARKER (c :: s)) as [r|] eqn:E; auto.
  exfalso. apply strip_prefix_app in E.
  change MARKER with (ch "{" :: ch "{" :: ch "B" :: skipn 3 MARKER) in E.
  injection E as _ E. destruct s as [|d [|e s]]; try discriminate.
  injection E as _ -> _.
  inversion Hs as [|? ? _ Hs']; subst. inversion Hs' as [|? ? He _]; subst.
  discriminate He.
Qed.

Lemma count_marker_free (s : str) :
  marker_free s -> Str.count MARKER s = 0.
Proof.
  induction s as [|c s IH]; intros H; auto.
  rewrite count_cons, (marker_free_head H).
  apply IH. eapply marker_free_tail; eauto.
Qed.

Lemma format_answer_zero (a : str) :
  format_answer a 0 = Ok (ANSWER_MARK ++ Str.strip a).
Proof.
  unfold format_answer. cbn [Z.eqb].
  destruct (Str.strip a); [now rewrite app_nil_r|reflexivity].
Qed.

(** X8: a question without an opening bracket, an underscore or an
    uppercase letter has no blank: the count is 0, the question is the question
    after register conversion and cleanup, without the instruction line,
    and the answer is the stripped answer behind the mark. *)
Theorem question_without_blank :
  forall (set_order : list str) (question_text answer_text : str),
    Forall (fun l => In l exclude_letters_before_cell) set_order ->
    lacks blank_triggers question_text ->
    format_question set_order question_text answer_text
    = Ok {| question := clean_text (convert_desu_masu question_text);
            answer := ANSWER_MARK ++ Str.strip answer_text;
            blank_count := 0 |}.
Proof.
  intros set_order q a Ho Hq. unfold format_question.
  rewrite normalize_blanks_lacks by auto. cbn [bind].
  rewrite (count_marker_free (lacks_no_marker Hq)).
  cbn [Z.of_nat]. unfold format_blanks. cbn [Z.eqb Z.ltb Z.compare bind].
  now rewrite format_answer_zero.
Qed.

Lemma question_without_blank_witness :
  Forall (fun l => In l exclude_letters_before_cell)
    exclude_letters_before_cell /\
  lacks blank_triggers (u "赤血球の寿命は何日ですか。") /\
  format_question exclude_letters_before_cell
    (u "赤血球の寿命は何日ですか。") (u " 約120日 ")
  = Ok {| question := u "赤血球の寿命は何日であるか。";
          answer := u "正解：約120日";
          blank_count := 0 |}.
Proof.
  assert (Ho : Forall (fun l => In l exclude_letters_before_cell)
                 exclude_letters_before_cell)
    by (apply Forall_forall; intros l Hl; exact Hl).
  assert (Hq : lacks blank_triggers (u "赤血球の寿命は何日ですか。"))
    by (apply lacks_forallb; vm_compute; reflexivity).
  split; [exact Ho|]. split; [exact Hq|].
  rewrite (question_without_blank (u " 約120日 ") Ho Hq).
  vm_compute. reflexivity.
Defined.


(** * [format_blanks] with one blank *)

Lemma replace_all_copy (new : str) (c : char) (s : str) :
  Str.strip_prefix MARKER (c :: s) = None ->
  Str.replace MARKER new (c :: s) = c :: Str.replace MARKER new s.
Proof.
  intros H. unfold Str.replace. cbn [Str.replace_from]. now rewrite H.
Qed.

Lemma replace_all_free_prefix (new b z : str) :
  marker_free b -> no_straddle z ->
  Str.replace MARKER new (b ++ z) = b ++ Str.replace MARKER new z.
Proof.
  intros Hb Hz. induction b as [|c b IH]; auto.
  change ((c :: b) ++ z) with (c :: (b ++ z)).
  rewrite replace_all_copy.
  - cbn [app]. f_equal. apply IH. eapply marker_free_tail; eauto.
  - change (c :: (b ++ z)) with ((c :: b) ++ z).
    apply no_marker_at; auto. discriminate.
Qed.

Lemma replace_all_marker (new a : str) :
  Str.replace MARKER new (MARKER ++ a) = new ++ Str.replace MARKER new a.
Proof.
  unfold Str.replace.
  change (MARKER ++ a) with (ch "{" :: (skipn 1 MARKER ++ a)).
  cbn [Str.replace_from].
  change (ch "{" :: (skipn 1 MARKER ++ a)) with (MARKER ++ a).
  rewrite strip_prefix_refl. reflexivity.
Qed.

(** Replacing every marker puts the replacement between the pieces. *)
Lemma replace_all_join (new : str) (segs : list str) :
  Forall marker_free segs ->
  Str.replace MARKER new (Str.join MARKER segs) = Str.join new segs.
Proof.
  induction 1 as [|s segs Hs Hsegs IH]; auto.
  destruct segs as [|s2 segs].
  - cbn [Str.join]. rewrite <- (app_nil_r s) at 1.
    rewrite replace_all_free_prefix by auto using no_straddle_nil.
    apply app_nil_r.
  - change (Str.join MARKER (s :: s2 :: segs))
      with (s ++ MARKER ++ Str.join MARKER (s2 :: segs)).
    rewrite replace_all_free_prefix by auto using no_straddle_marker.
    rewrite replace_all_marker, IH. reflexivity.
Qed.

(** X1: with a blank count of 1 every marker of the text, not the first
    one only, becomes the unlabeled blank. *)
Theorem format_blanks_one :
  forall segs : list str,
    Forall marker_free segs ->
    format_blanks (Str.join MARKER segs) 1
    = Ok (Str.join unlabeled_blank segs).
Proof.
  intros segs H. unfold format_blanks. cbn [Z.eqb Pos.eqb].
  now rewrite replace_all_join.
Qed.

Lemma format_blanks_one_witness :
  Forall marker_free [u "これは"; u "と"; u "である。"] /\
  format_blanks (u "これは{{BLANK}}と{{BLANK}}である。") 1
  = Ok (u "これは（　　　　　）と（　　　　　）である。").
Proof.
  assert (H : Forall marker_free [u "これは"; u "と"; u "である。"])
    by (repeat constructor).
  split; [exact H|].
  exact (format_blanks_one H).
Defined.

(** X2: with two or more blanks counted the markers are replaced from
    the left by the labeled blanks of A, B, ..., one for each count up to 26;
    markers beyond the count stay. *)
Theorem format_blanks_labels_in_order :
  forall (segs : list str) (n : Z),
    Forall marker_free segs -> (2 <= n)%Z ->
    format_blanks (Str.join MARKER segs) n
    = Ok (fill (firstn (Z.to_nat n) labels) segs).
Proof. exact format_blanks_fill. Qed.

Lemma format_blanks_labels_in_order_witness :
  Forall marker_free [u "彼は"; u "、"; u "、"; u "を試した。"] /\
  (2 <= 3)%Z /\
  format_blanks (u "彼は{{BLANK}}、{{BLANK}}、{{BLANK}}を試した。") 3
  = Ok (u "彼は（　　A　　）、（　　B　　）、（　　C　　）を試した。").
Proof.
  assert (H : Forall marker_free [u "彼は"; u "、"; u "、"; u "を試した。"])
    by (repeat constructor).
  assert (Hn : (2 <= 3)%Z) by lia.
  split; [exact H|]. split; [exact Hn|].
  exact (format_blanks_labels_in_order H Hn).
Defined.


(** * Answers of several lines without labels *)









(** * Answers that are returned as they are *)

Lemma lacks_lstrip (P : list (char * char)) (p : char -> bool) (s : str) :
  lacks P s -> lacks P (Str.lstrip_by p s).
Proof.
  intros H. destruct (lstrip_suffix p s) as (y & Hy).
  rewrite Hy in H. eapply lacks_suffix; exact H.
Qed.

Lemma lacks_rstrip (P : list (char * char)) (p : char -> bool) (s : str) :
  lacks P s -> lacks P (Str.rstrip_by p s).
Proof.
  intros H. unfold Str.rstrip_by. apply Forall_rev, lacks_lstrip.
  now apply Forall_rev.
Qed.

Lemma lacks_strip (P : list (char * char)) (s : str) :
  lacks P s -> lacks P (Str.strip s).
Proof. intros H. now apply lacks_rstrip, lacks_lstrip. Qed.

Lemma lacks_strip_answer_prefix (P : list (char * char)) (s : str) :
  lacks P s -> lacks P (strip_answer_prefix s).
Proof.
  intros H. destruct (strip_answer_prefix_suffix s) as (y & Hy).
  rewrite Hy in H. eapply lacks_suffix; exact H.
Qed.

(** The callback of [protect_brackets] is not called on a text in which
    the pattern cannot match. *)
Lemma protect_brackets_lacks (P : list (char * char)) (r : regex)
  (bracket_contents : list str) (s : str) :
  needs P r = true -> lacks P s ->
  protect_brackets r bracket_contents s = (s, bracket_contents).
Proof.
  intros Hn Hs. unfold protect_brackets. generalize true.
  induction s as [|c s IH]; intros bos; cbn [protect_from];
    rewrite (match_here_lacks (P := P)) by auto; auto.
  rewrite IH by (inversion Hs; auto). reflexivity.
Qed.

(** X17: an answer on one line without a circled number, an ASCII letter
    or an opening bracket has no entries to read: for a blank count of 2
    or more it comes back behind the mark, stripped and without a mark of
    its own, and is not split into entries. *)
Theorem format_answer_unparsed :
  forall (a : str) (n : Z),
    (2 <= n)%Z -> lacks answer_triggers a ->
    format_answer a n
    = Ok (ANSWER_MARK ++ strip_answer_prefix (Str.strip a)).
Proof.
  intros a n Hn Ha. unfold format_answer.
  destruct (n =? 0)%Z eqn:E0; [lia|].
  destruct (n =? 1)%Z eqn:E1; [lia|].
  rewrite sub_answer_prefix.
  set (b := strip_answer_prefix (Str.strip a)).
  assert (Hb : lacks answer_triggers b)
    by now apply lacks_strip_answer_prefix, lacks_strip.
  assert (Hline : Forall (fun x => x <> 10%N) (Str.strip b)).
  { eapply Forall_impl; [|apply lacks_strip; exact Hb].
    intros c Hc E. subst c. discriminate. }
  rewrite (split_one Hline). cbn [length Nat.leb].
  rewrite (@findall_lacks answer_triggers pattern_circled b)
    by (auto; reflexivity).
  rewrite (@findall_lacks answer_triggers pattern_comma b)
    by (auto; reflexivity).
  rewrite (@protect_brackets_lacks answer_triggers _ [] b)
    by (auto; reflexivity).
  rewrite (@protect_brackets_lacks answer_triggers _ [] b)
    by (auto; reflexivity).
  rewrite (@findall_lacks answer_triggers pattern_space b)
    by (auto; reflexivity).
  reflexivity.
Qed.

Lemma format_answer_unparsed_witness :
  (2 <= 2)%Z /\ lacks answer_triggers (u " 正解: 赤血球、白血球 ") /\
  format_answer (u " 正解: 赤血球、白血球 ") 2 = Ok (u "正解：赤血球、白血球").
Proof.
  assert (Hn : (2 <= 2)%Z) by lia.
  assert (Ha : lacks answer_triggers (u " 正解: 赤血球、白血球 "))
    by (apply lacks_forallb; vm_compute; reflexivity).
  split; [exact Hn|]. split; [exact Ha|].
  exact (format_answer_unparsed Hn Ha).
Defined.

(** X10: whatever the answer and the blank count are, the formatted answer
    begins with the mark [正解：]. *)
Theorem format_answer_begins_with_mark :
  forall (a : str) (n : Z),
    exists t, format_answer a n = Ok (ANSWER_MARK ++ t).
Proof.
  intros a n. unfold format_answer.
  destruct (n =? 0)%Z.
  { destruct (Str.strip a) as [|c s].
    - exists []. reflexivity.
    - eexists. reflexivity. }
  destruct (n =? 1)%Z; [eexists; reflexivity|].
  set (b := sub answer_prefix [] (Str.strip a)).
  destruct (2 <=? length (Str.split 10%N (Str.strip b))).
  - destruct (parse_lines_total (Str.split 10%N (Str.strip b)) [])
      as (p & ->).
    cbn [bind]. destruct p; eexists; reflexivity.
  - destruct (findall pattern_circled b).
    + destruct (findall pattern_comma b).
      * destruct (protect_brackets _ [] b) as [p1 b1].
        destruct (protect_brackets _ b1 p1) as [p2 b2].
        cbn [bind].
        match goal with |- context [map ?f ?l] => destruct (map f l) end;
          eexists; reflexivity.
      * cbn [bind map]. eexists. reflexivity.
    + cbn [bind map]. eexists. reflexivity.
Qed.


(** * The marker count through the cleanup *)

(** [re.sub] with a replacement free of [P] keeps a text free of [P]. *)
Lemma sub_from_keeps_lacks (P : list (char * char)) (r : regex) (repl : str) :
  lacks P repl ->
  forall s bos, lacks P s -> lacks P (sub_from r (fun _ => repl) bos s 0).
Proof.
  intros Hrepl s. remember (length s) as n eqn:Hn. revert s Hn.
  induction n as [n IH] using lt_wf_ind. intros s Hn bos Hs.
  rewrite sub_from_step.
  assert (Htail : match s with
                  | [] => lacks P []
                  | c :: s' =>
                      lacks P (c :: sub_from r (fun _ => repl) false s' 0)
                  end).
  { destruct s as [|c s]; [constructor|].
    inversion Hs; subst. constructor; [assumption|].
    apply (IH (length s)); auto. }
  destruct (match_here r bos s) as [[k caps]|] eqn:E.
  - destruct k as [|k]; cbv beta.
    + apply Forall_app. split; auto. destruct s; auto.
    + apply Forall_app. split; auto.
      pose proof (match_here_sound _ _ _ E) as (Hk & _).
      apply (IH (length (skipn (S k) s))).
      * rewrite length_skipn. lia.
      * reflexivity.
      * rewrite <- (firstn_skipn (S k) s) in Hs.
        eapply lacks_suffix; exact Hs.
  - destruct s; auto.
Qed.

Lemma sub_keeps_lacks (P : list (char * char)) (r : regex) (repl s : str) :
  lacks P repl -> lacks P s -> lacks P (sub r repl s).
Proof. intros H1 H2. unfold sub, sub_with. now apply sub_from_keeps_lacks. Qed.

(** A marker does not begin in a text and end in foreign characters put
    behind it. *)
Lemma strip_prefix_foreign_tail (p : str) :
  Forall (fun c => marker_char c = true) p ->
  forall s y,
    Forall (fun c => marker_char c = false) y ->
    Str.strip_prefix p (s ++ y)
    = option_map (fun r => r ++ y) (Str.strip_prefix p s).
Proof.
  induction 1 as [|a p Ha _ IH]; intros s y Hy; auto.
  destruct s as [|c s].
  - cbn [app Str.strip_prefix option_map]. destruct y as [|c y]; auto.
    inversion Hy; subst.
    destruct (a =? c)%N eqn:E; auto.
    apply N.eqb_eq in E. congruence.
  - cbn [app Str.strip_prefix]. destruct (a =? c)%N; auto.
Qed.

Lemma count_foreign_tail (y : str) :
  Forall (fun c => marker_char c = false) y ->
  forall s, Str.count MARKER (s ++ y) = Str.count MARKER s.
Proof.
  intros Hy s. remember (length s) as n eqn:Hn. revert s Hn.
  induction n as [n IH] using lt_wf_ind. intros s Hn.
  destruct s as [|c s].
  - cbn [app]. rewrite <- (app_nil_r y).
    now rewrite count_skip_foreign by exact Hy.
  - cbn [app]. rewrite !count_cons.
    change (c :: s ++ y) with ((c :: s) ++ y).
    rewrite (strip_prefix_foreign_tail marker_chars_marker (c :: s) Hy).
    destruct (Str.strip_prefix MARKER (c :: s)) as [r|] eqn:E;
      cbn [option_map].
    + f_equal. apply (IH (length r)); auto.
      apply strip_prefix_length in E.
      change (length MARKER) with 9 in E. simpl in *. lia.
    + apply (IH (length s)); auto. simpl in Hn. lia.
Qed.

Lemma space_is_foreign (c : char) :
  Str.isspace c = true -> marker_char c = false.
Proof.
  intros H. destruct (marker_char c) eqn:E; auto.
  unfold marker_char in E. apply existsb_exists in E.
  destruct E as (d & Hd & Hcd). apply N.eqb_eq in Hcd. subst d.
  assert (F : Forall (fun d => Str.isspace d = false) MARKER)
    by (repeat constructor).
  rewrite Forall_forall in F. specialize (F c Hd). congruence.
Qed.

Lemma lstrip_run (p : char -> bool) (s : str) :
  exists y, s = y ++ Str.lstrip_by p s /\ Forall (fun c => p c = true) y.
Proof.
  induction s as [|c s (y & IH & Hy)]; cbn [Str.lstrip_by].
  - now exists [].
  - destruct (p c) eqn:E.
    + exists (c :: y). cbn [app]. split; [now f_equal|now constructor].
    + now exists [].
Qed.

Lemma rstrip_run (p : char -> bool) (s : str) :
  exists y, s = Str.rstrip_by p s ++ y /\ Forall (fun c => p c = true) y.
Proof.
  unfold Str.rstrip_by.
  destruct (lstrip_run p (rev s)) as (y & Hy & Fy).
  exists (rev y). split; [|now apply Forall_rev].
  rewrite <- rev_app_distr, <- Hy. now rewrite rev_involutive.
Qed.

(** [strip] removes no marker. *)
Lemma strip_keeps_count (s : str) :
  Str.count MARKER (Str.strip s) = Str.count MARKER s.
Proof.
  unfold Str.strip.
  destruct (lstrip_run Str.isspace s) as (y & Hy & Fy).
  destruct (rstrip_run Str.isspace (Str.lstrip_by Str.isspace s))
    as (z & Hz & Fz).
  assert (Fy' : Forall (fun c => marker_char c = false) y)
    by (eapply Forall_impl; [|exact Fy]; apply space_is_foreign).
  assert (Fz' : Forall (fun c => marker_char c = false) z)
    by (eapply Forall_impl; [|exact Fz]; apply space_is_foreign).
  rewrite Hy at 2. rewrite (count_skip_foreign _ Fy').
  rewrite Hz at 2. now rewrite (count_foreign_tail Fz').
Qed.

Lemma clean_text_keeps_count (s : str) :
  lacks cleanup_hazards s ->
  Str.count MARKER (clean_text s) = Str.count MARKER s.
Proof.
  intros Hs. unfold clean_text.
  rewrite (@sub_with_lacks cleanup_hazards bold_pattern _ s)
    by (auto; reflexivity).
  rewrite (@sub_with_lacks cleanup_hazards italic_pattern _ s)
    by (auto; reflexivity).
  rewrite (@sub_lacks cleanup_hazards (lit (u ",。")) (u "。") s)
    by (auto; reflexivity).
  set (s1 := sub (lit (u "、。")) (u "。") s).
  assert (H1 : lacks cleanup_hazards s1).
  { apply sub_keeps_lacks; auto. apply lacks_forallb. reflexivity. }
  rewrite (@sub_lacks cleanup_hazards _ (u ".") s1) by (auto; reflexivity).
  rewrite (@sub_lacks cleanup_hazards (lit (u ",、")) (u "、") s1)
    by (auto; reflexivity).
  rewrite (@sub_keeps_count (seq [chr 10%N; star space; chr 10%N], [10%N]))
    by reflexivity.
  rewrite strip_keeps_count.
  rewrite (@sub_keeps_count (plus (chars (u "。．")), u "。")) by reflexivity.
  rewrite (@sub_keeps_count (plus (chars (u "、，")), u "、")) by reflexivity.
  rewrite (@sub_keeps_count (plus (chars (u " 　")), u " ")) by reflexivity.
  unfold s1.
  now rewrite (@sub_keeps_count (lit (u "、。"), u "。")) by reflexivity.
Qed.

(** X7: the cleanup neither makes nor removes a marker in a text without
    an emphasis mark [*] and without an ASCII comma. *)
Theorem cleanup_keeps_marker_count :
  forall s : str,
    lacks cleanup_hazards s ->
    Str.count MARKER (clean_text s) = Str.count MARKER s.
Proof. exact clean_text_keeps_count. Qed.

Lemma cleanup_keeps_marker_count_witness :
  lacks cleanup_hazards (u " これは{{BLANK}}　　と、、{{BLANK}}である。。 ") /\
  Str.count MARKER (clean_text (u " これは{{BLANK}}　　と、、{{BLANK}}である。。 "))
  = Str.count MARKER (u " これは{{BLANK}}　　と、、{{BLANK}}である。。 ").
Proof.
  assert (H : lacks cleanup_hazards
                (u " これは{{BLANK}}　　と、、{{BLANK}}である。。 "))
    by (apply lacks_forallb; vm_compute; reflexivity).
  split; [exact H|].
  exact (cleanup_keeps_marker_count H).
Defined.


(** * Every detected blank is rendered *)

(** ** Characters that no stage before the cleanup brings in *)





















(** ** Counting the pieces *)






